(** * Audio quality quiz: a shallow embedding of [src/Component/AudioQuiz.tsx]

    The component keeps its data in React state ([tracks], [selectedAnswers],
    [feedback], [file], [coreLoaded]) and in mutable refs ([objectUrlsRef],
    [audioRefs], [playingTrackIdRef], ...).  Every handler of the component is
    embedded as a function on an explicit record of that state; what the
    browser and the transcoding engine answer is passed in as data.

    Conventions.
    - A JavaScript string is a [string]; one character stands for one code
      unit.  Literals of the source are kept byte for byte (UTF-8).
    - A JavaScript number that holds a count or a time stamp is an [N] or a
      [nat]; a media position (seconds) is a rational [Q].
    - A [Record<string, V>] is a [gmap string V] where only lookups matter and
      an association list where the source iterates over [Object.entries].
    - A [Set<string>] is the list of its members in insertion order.
    - An audio element is a cell of a heap of elements, addressed by its
      identity; the refs hold identities, so two refs can name one element.
    - An [async] handler is one step: what it awaits is answered by the
      environment record it is given.  A promise the handler does not await
      ([target.play()]) settles in a step of its own.
    - A media position is seen when the browser reports it: one [timeupdate]
      report and the listeners it calls are one step.

    Left out: the [coreLoading] overlay flag, logging, [ffmpeg.terminate],
    and the markup the component renders, apart from the condition that
    disables the convert button. *)

From Stdlib Require Import Ascii String QArith DecimalString DecimalN.
From stdpp Require Import gmap strings list fin_maps.

Open Scope string_scope.

(** ** Strings of the JavaScript runtime *)

(** [String(n)] and a number inside a template literal, for a non-negative integer. *)
Definition String_of_N (n : N) : string :=
  NilEmpty.string_of_uint (N.to_uint n).

Definition String_of_nat (n : nat) : string := String_of_N (N.of_nat n).

(** [s.lastIndexOf(c)] for a one-character needle: the index of the last
    occurrence, or [-1]. The scan keeps the last index seen so far. *)
Fixpoint lastIndexOf_from (s : string) (c : ascii) (i found : Z) : Z :=
  match s with
  | EmptyString => found
  | String a rest =>
      lastIndexOf_from rest c (i + 1) (if Ascii.eqb a c then i else found)
  end.

Definition lastIndexOf (s : string) (c : ascii) : Z :=
  lastIndexOf_from s c 0 (-1).

(** [s.slice(start, end)] and [s.slice(start)] for [0 <= start <= end]. *)
Definition slice (s : string) (start stop : Z) : string :=
  String.substring (Z.to_nat start) (Z.to_nat (stop - start)) s.

Definition slice_from (s : string) (start : Z) : string :=
  slice s start (Z.of_nat (String.length s)).

(** [s.startsWith(p)] *)
Definition startsWith (s p : string) : bool := String.prefix p s.

(** [parts.join(sep)] *)
Fixpoint join (sep : string) (parts : list string) : string :=
  match parts with
  | [] => ""
  | [p] => p
  | p :: rest => p +:+ sep +:+ join sep rest
  end.

(** Does the character occur in the string? *)
Fixpoint occurs (c : ascii) (s : string) : bool :=
  match s with
  | EmptyString => false
  | String a rest => Ascii.eqb a c || occurs c rest
  end.

(** ** Constants and types of the component *)

Definition MAX_PLAY_SECONDS : N := 120.

Inductive QuizTrackQuality := mp3_128 | mp3_320 | original.

#[global] Instance QuizTrackQuality_eq_dec : EqDecision QuizTrackQuality.
Proof. solve_decision. Defined.

(** The string each member of the union type is at run time. *)
Definition quality_string (q : QuizTrackQuality) : string :=
  match q with
  | mp3_128 => "mp3_128"
  | mp3_320 => "mp3_320"
  | original => "original"
  end.

Record QuizTrack := {
  id : string;
  quality : QuizTrackQuality;
  fileName : string;
  url : string
}.

Inductive Tone := success | error.

Record FeedbackState := { text : string; tone : Tone }.

Definition QUALITY_LABEL_MAP (q : QuizTrackQuality) : string :=
  match q with
  | mp3_128 => "mp3 128K"
  | mp3_320 => "mp3 320K"
  | original => "オリジナル"
  end.

Definition createTrackId (base : string) (q : QuizTrackQuality) : string :=
  base +:+ "-" +:+ quality_string q.

(** The uploaded [File]: its name, its declared MIME type and its bytes. *)
Record File := {
  name : string;
  type : string;
  bytes : list Byte.byte
}.

(** ** Names derived from the upload *)

Definition baseFileName (file : option File) : string :=
  match file with
  | None => "upload"
  | Some f =>
      let dotIndex := lastIndexOf (name f) "." in
      if (0 <? dotIndex)%Z then slice (name f) 0 dotIndex else name f
  end.

Definition originalExtension (file : option File) : string :=
  match file with
  | None => "orig"
  | Some f =>
      let dotIndex := lastIndexOf (name f) "." in
      if (0 <? dotIndex)%Z then slice_from (name f) (dotIndex + 1) else "orig"
  end.

Definition getMimeByQuality (q : QuizTrackQuality) (originalType : string) : string :=
  match q with
  | original => if decide (originalType = "") then "audio/mpeg" else originalType
  | _ => "audio/mpeg"
  end.

(** The extension as the specification words it: the text after the last
    ['.'] of the name, and the sentinel when the name has no ['.']. *)
Fixpoint after_last_dot (s : string) : option string :=
  match s with
  | EmptyString => None
  | String a rest =>
      match after_last_dot rest with
      | Some e => Some e
      | None => if Ascii.eqb a "." then Some rest else None
      end
  end.

Definition spec_extension (n : string) : string :=
  match after_last_dot n with
  | Some e => e
  | None => "orig"
  end.

(** [Array.prototype.sort] with the comparator [() => Math.random() - 0.5]
    is not a consistent ordering, so which permutation of the copy comes out
    is up to the engine and its random numbers.  The model takes the
    permutation from the environment as a list of draws: the n-th result is
    the item at position [draw mod remaining] of what is left. *)
Fixpoint draw {T : Type} (n : nat) (choices : list nat) (items : list T) : list T :=
  match n with
  | O => []
  | S n' =>
      let i := (default 0%nat (head choices) mod length items)%nat in
      match items !! i with
      | Some x => x :: draw n' (tail choices) (delete i items)
      | None => []
      end
  end.

Definition shuffle {T : Type} (choices : list nat) (items : list T) : list T :=
  draw (length items) choices items.

(** ** The browser: object URLs and audio elements *)

Record Blob := { blob_bytes : list Byte.byte; blob_type : string }.

(** The table behind [URL.createObjectURL] and [URL.revokeObjectURL]:
    the URLs that resolve, how many were ever issued, and every revocation
    the page asked for, oldest first. *)
Record ObjectURLs := {
  issued : N;
  resolving : list (string * Blob);
  revocations : list string
}.

(** The browser never issues a URL twice; the [i]-th one is named after [i]. *)
Definition blob_url (i : N) : string := "blob:" +:+ String_of_N i.

Definition createObjectURL (b : Blob) (u : ObjectURLs) : string * ObjectURLs :=
  let fresh := blob_url (issued u) in
  (fresh, {| issued := issued u + 1;
             resolving := resolving u ++ [(fresh, b)];
             revocations := revocations u |}).

(** Revoking a URL that does not resolve (any more) completes quietly. *)
Definition revokeObjectURL (u : ObjectURLs) (target : string) : ObjectURLs :=
  {| issued := issued u;
     resolving := filter (λ e, e.1 ≠ target) (resolving u);
     revocations := revocations u ++ [target] |}.

(** [Set.prototype.add]: members stay in insertion order, once each. *)
Definition Set_add (x : string) (members : list string) : list string :=
  if decide (x ∈ members) then members else members ++ [x].

(** A listener is one of the closures [limitHandler] / [endedHandler] made by
    the ref callback: it captures the element and the track id. *)
Record Listener := { closure_instance : nat; closure_trackId : string }.

#[global] Instance Listener_eq_dec : EqDecision Listener.
Proof. solve_decision. Defined.

Record HTMLAudioElement := {
  paused : bool;
  currentTime : Q;
  on_timeupdate : list Listener;
  on_ended : list Listener
}.

Definition new_audio : HTMLAudioElement :=
  {| paused := true; currentTime := 0; on_timeupdate := []; on_ended := [] |}.

Definition el_pause (a : HTMLAudioElement) : HTMLAudioElement :=
  {| paused := true; currentTime := currentTime a;
     on_timeupdate := on_timeupdate a; on_ended := on_ended a |}.

Definition el_seek (t : Q) (a : HTMLAudioElement) : HTMLAudioElement :=
  {| paused := paused a; currentTime := t;
     on_timeupdate := on_timeupdate a; on_ended := on_ended a |}.

(** [play()]: the element starts unless the browser refuses playback. *)
Definition el_play (allowed : bool) (a : HTMLAudioElement) : HTMLAudioElement :=
  {| paused := if allowed then false else paused a; currentTime := currentTime a;
     on_timeupdate := on_timeupdate a; on_ended := on_ended a |}.

Fixpoint remove_first (h : Listener) (hs : list Listener) : list Listener :=
  match hs with
  | [] => []
  | h' :: rest => if decide (h' = h) then rest else h' :: remove_first h rest
  end.

Definition el_listen_timeupdate (h : Listener) (a : HTMLAudioElement) : HTMLAudioElement :=
  {| paused := paused a; currentTime := currentTime a;
     on_timeupdate := on_timeupdate a ++ [h]; on_ended := on_ended a |}.

Definition el_listen_ended (h : Listener) (a : HTMLAudioElement) : HTMLAudioElement :=
  {| paused := paused a; currentTime := currentTime a;
     on_timeupdate := on_timeupdate a; on_ended := on_ended a ++ [h] |}.

Definition el_unlisten_timeupdate (h : Listener) (a : HTMLAudioElement) : HTMLAudioElement :=
  {| paused := paused a; currentTime := currentTime a;
     on_timeupdate := remove_first h (on_timeupdate a); on_ended := on_ended a |}.

Definition el_unlisten_ended (h : Listener) (a : HTMLAudioElement) : HTMLAudioElement :=
  {| paused := paused a; currentTime := currentTime a;
     on_timeupdate := on_timeupdate a; on_ended := remove_first h (on_ended a) |}.

(** ** Plain objects used as records keyed by track id

    [Object.entries] walks the keys in insertion order, so the object is an
    association list: assignment replaces in place or appends, [delete]
    drops the key. *)
Fixpoint obj_get {V : Type} (k : string) (o : list (string * V)) : option V :=
  match o with
  | [] => None
  | (k', v) :: rest => if decide (k' = k) then Some v else obj_get k rest
  end.

Fixpoint obj_set {V : Type} (k : string) (v : V) (o : list (string * V)) : list (string * V) :=
  match o with
  | [] => [(k, v)]
  | (k', v') :: rest =>
      if decide (k' = k) then (k, v) :: rest else (k', v') :: obj_set k v rest
  end.

Definition obj_delete {V : Type} (k : string) (o : list (string * V)) : list (string * V) :=
  filter (λ e, e.1 ≠ k) o.

(** ** The playback refs of the component

    [elements] is the browser's side: every audio element that was ever
    created, addressed by its identity.  The other fields are the refs
    [audioRefs], [limitHandlersRef], [endedHandlersRef], [playingTrackIdRef]
    and the keys of [audioRefCallbacks].  The source never stores [null] in
    [audioRefs], so an entry always holds an element. *)
Record Player := {
  elements : list HTMLAudioElement;
  audioRefs : list (string * nat);
  limitHandlersRef : gmap string Listener;
  endedHandlersRef : gmap string Listener;
  playingTrackIdRef : option string;
  audioRefCallbacks : gset string
}.

Definition Player_init : Player :=
  {| elements := []; audioRefs := []; limitHandlersRef := ∅;
     endedHandlersRef := ∅; playingTrackIdRef := None; audioRefCallbacks := ∅ |}.

Definition with_elements (els : list HTMLAudioElement) (p : Player) : Player :=
  {| elements := els; audioRefs := audioRefs p;
     limitHandlersRef := limitHandlersRef p; endedHandlersRef := endedHandlersRef p;
     playingTrackIdRef := playingTrackIdRef p; audioRefCallbacks := audioRefCallbacks p |}.

Definition with_playing (t : option string) (p : Player) : Player :=
  {| elements := elements p; audioRefs := audioRefs p;
     limitHandlersRef := limitHandlersRef p; endedHandlersRef := endedHandlersRef p;
     playingTrackIdRef := t; audioRefCallbacks := audioRefCallbacks p |}.

(** [audio.pause(); audio.currentTime = 0;] *)
Definition halt (audio : nat) (els : list HTMLAudioElement) : list HTMLAudioElement :=
  alter (el_seek 0) audio (alter el_pause audio els).

(** [if (playingTrackIdRef.current === trackId) playingTrackIdRef.current = null;] *)
Definition forget_playing (trackId : string) (p : Player) : Player :=
  if decide (playingTrackIdRef p = Some trackId) then with_playing None p else p.

(** Halt an element and take off the two listeners recorded for its track:
    the body of the loop in [resetAudioRefs] and in the unmount cleanup, and
    what the ref callback does to the element it held before. *)
Definition halt_and_unlisten (limits endeds : gmap string Listener)
    (els : list HTMLAudioElement) (entry : string * nat) : list HTMLAudioElement :=
  let '(trackId, audio) := entry in
  let els1 := halt audio els in
  let els2 :=
    match limits !! trackId with
    | Some limitHandler => alter (el_unlisten_timeupdate limitHandler) audio els1
    | None => els1
    end in
  match endeds !! trackId with
  | Some endedHandler => alter (el_unlisten_ended endedHandler) audio els2
  | None => els2
  end.

Definition resetAudioRefs (p : Player) : Player :=
  {| elements :=
       foldl (halt_and_unlisten (limitHandlersRef p) (endedHandlersRef p))
             (elements p) (audioRefs p);
     audioRefs := [];
     limitHandlersRef := ∅;
     endedHandlersRef := ∅;
     playingTrackIdRef := None;
     audioRefCallbacks := ∅ |}.

(** The loop of [handlePlay]: every other element is halted, and the
    target too when it is the one that plays. *)
Definition halt_others (trackId : string) (isSame : bool)
    (els : list HTMLAudioElement) (entry : string * nat) : list HTMLAudioElement :=
  let '(id, audio) := entry in
  if negb (bool_decide (id = trackId)) || isSame then halt audio els else els.

(** [handlePlay(trackId)] up to the call of [target.play()]; [allowed] says
    whether the browser lets the element start. *)
Definition handlePlay (allowed : bool) (trackId : string) (p : Player) : Player :=
  match obj_get trackId (audioRefs p) with
  | None => p
  | Some target =>
      let isSame := bool_decide (playingTrackIdRef p = Some trackId) in
      let els := foldl (halt_others trackId isSame) (elements p) (audioRefs p) in
      if isSame then with_playing None (with_elements els p)
      else
        with_elements (alter (el_play allowed) target (alter (el_seek 0) target els))
          (with_playing (Some trackId) p)
  end.

(** [MAX_PLAY_SECONDS] as a media position. *)
Definition cap : Q := inject_Z (Z.of_N MAX_PLAY_SECONDS).

(** [instance.currentTime >= MAX_PLAY_SECONDS] *)
Definition limit_reached (a : HTMLAudioElement) : bool :=
  Qle_bool cap (currentTime a).

(** The closure [limitHandler] of the ref callback. *)
Definition limitHandler (h : Listener) (p : Player) : Player :=
  match elements p !! closure_instance h with
  | Some a =>
      if limit_reached a
      then forget_playing (closure_trackId h)
             (with_elements (halt (closure_instance h) (elements p)) p)
      else p
  | None => p
  end.

(** The closure [endedHandler] of the ref callback. *)
Definition endedHandler (h : Listener) (p : Player) : Player :=
  forget_playing (closure_trackId h)
    (with_elements (alter (el_seek 0) (closure_instance h) (elements p)) p).

(** The callback [getAudioRef(trackId)] hands to React, called with the
    element or with [null]. *)
Definition refCallback (trackId : string) (instance : option nat) (p : Player) : Player :=
  let previous := obj_get trackId (audioRefs p) in
  if decide (is_Some previous ∧ previous = instance) then p
  else
    let els1 :=
      match previous with
      | Some prev =>
          halt_and_unlisten (limitHandlersRef p) (endedHandlersRef p)
            (elements p) (trackId, prev)
      | None => elements p
      end in
    match instance with
    | None =>
        {| elements := els1;
           audioRefs := obj_delete trackId (audioRefs p);
           limitHandlersRef := delete trackId (limitHandlersRef p);
           endedHandlersRef := delete trackId (endedHandlersRef p);
           playingTrackIdRef :=
             if decide (playingTrackIdRef p = Some trackId) then None
             else playingTrackIdRef p;
           audioRefCallbacks := audioRefCallbacks p ∖ {[trackId]} |}
    | Some inst =>
        let h := {| closure_instance := inst; closure_trackId := trackId |} in
        {| elements :=
             alter (el_listen_ended h) inst (alter (el_listen_timeupdate h) inst els1);
           audioRefs := obj_set trackId inst (audioRefs p);
           limitHandlersRef := <[trackId := h]> (limitHandlersRef p);
           endedHandlersRef := <[trackId := h]> (endedHandlersRef p);
           playingTrackIdRef := playingTrackIdRef p;
           audioRefCallbacks := audioRefCallbacks p |}
    end.

(** [getAudioRef(trackId)] during render: the callback is made once per id. *)
Definition getAudioRef (trackId : string) (p : Player) : Player :=
  {| elements := elements p; audioRefs := audioRefs p;
     limitHandlersRef := limitHandlersRef p; endedHandlersRef := endedHandlersRef p;
     playingTrackIdRef := playingTrackIdRef p;
     audioRefCallbacks := audioRefCallbacks p ∪ {[trackId]} |}.

(** React mounts an [<audio>] for the track: a new element is created and
    the ref callback receives it. *)
Definition mountAudio (trackId : string) (p : Player) : Player :=
  let inst := length (elements p) in
  refCallback trackId (Some inst)
    (getAudioRef trackId (with_elements (elements p ++ [new_audio]) p)).

(** React unmounts it: the ref callback receives [null]. *)
Definition unmountAudio (trackId : string) (p : Player) : Player :=
  refCallback trackId None p.

(** The browser calls the listeners of an event in the order they were added. *)
Definition dispatch (run : Listener → Player → Player) (hs : list Listener)
    (p : Player) : Player :=
  foldl (λ q h, run h q) p hs.

(** A playing element moved on to position [t]; the browser fires
    [timeupdate] on it. *)
Definition mediaProgress (e : nat) (t : Q) (p : Player) : Player :=
  match elements p !! e with
  | Some a =>
      let p1 := if paused a then p
                else with_elements (alter (el_seek t) e (elements p)) p in
      dispatch limitHandler (on_timeupdate a) p1
  | None => p
  end.

(** A playing element ran to the end of its media: the browser pauses it
    and fires [ended]. *)
Definition mediaEnded (e : nat) (p : Player) : Player :=
  match elements p !! e with
  | Some a =>
      if paused a then p
      else dispatch endedHandler (on_ended a)
             (with_elements (alter el_pause e (elements p)) p)
  | None => p
  end.

(** ** The transcoding engine *)

(** The [FFmpeg] instance as the component sees it: its virtual file system
    and, for the record, every argument list [exec] was called with. *)
Record FFmpeg := {
  files : gmap string (list Byte.byte);
  invocations : list (list string)
}.

Definition FFmpeg_new : FFmpeg := {| files := ∅; invocations := [] |}.

(** How one [exec] call ends: the promise rejects, or it resolves after the
    engine wrote its output file (last argument) or wrote nothing. *)
Inductive ExecOutcome :=
| ExecRejects
| ExecResolves (output : option (list Byte.byte)).

(** What the outside world answers during one run of [handleConvert]. *)
Record ConvertEnv := {
  now : N;                                  (* Date.now() *)
  upload_ok : bool;                         (* fetchFile and writeFile fulfil *)
  engine : list string → ExecOutcome;       (* exec, by argument list *)
  listDir_ok : bool;                        (* listDir fulfils *)
  random : list nat                         (* draws behind shuffle *)
}.

(** ** The state of the component *)

Record AppState := {
  ffmpegRef : option FFmpeg;
  coreLoaded : bool;
  converting : bool;
  file : option File;
  tracks : list QuizTrack;
  selectedAnswers : gmap string (option QuizTrackQuality);
  feedback : option FeedbackState;
  objectUrlsRef : list string;
  objectURLs : ObjectURLs;
  player : Player
}.

Definition set_ffmpeg (v : option FFmpeg) (s : AppState) : AppState :=
  {| ffmpegRef := v; coreLoaded := coreLoaded s; converting := converting s;
     file := file s; tracks := tracks s; selectedAnswers := selectedAnswers s;
     feedback := feedback s; objectUrlsRef := objectUrlsRef s;
     objectURLs := objectURLs s; player := player s |}.

Definition set_coreLoaded (v : bool) (s : AppState) : AppState :=
  {| ffmpegRef := ffmpegRef s; coreLoaded := v; converting := converting s;
     file := file s; tracks := tracks s; selectedAnswers := selectedAnswers s;
     feedback := feedback s; objectUrlsRef := objectUrlsRef s;
     objectURLs := objectURLs s; player := player s |}.

Definition set_converting (v : bool) (s : AppState) : AppState :=
  {| ffmpegRef := ffmpegRef s; coreLoaded := coreLoaded s; converting := v;
     file := file s; tracks := tracks s; selectedAnswers := selectedAnswers s;
     feedback := feedback s; objectUrlsRef := objectUrlsRef s;
     objectURLs := objectURLs s; player := player s |}.

Definition setFile (v : option File) (s : AppState) : AppState :=
  {| ffmpegRef := ffmpegRef s; coreLoaded := coreLoaded s; converting := converting s;
     file := v; tracks := tracks s; selectedAnswers := selectedAnswers s;
     feedback := feedback s; objectUrlsRef := objectUrlsRef s;
     objectURLs := objectURLs s; player := player s |}.

Definition set_tracks (v : list QuizTrack) (s : AppState) : AppState :=
  {| ffmpegRef := ffmpegRef s; coreLoaded := coreLoaded s; converting := converting s;
     file := file s; tracks := v; selectedAnswers := selectedAnswers s;
     feedback := feedback s; objectUrlsRef := objectUrlsRef s;
     objectURLs := objectURLs s; player := player s |}.

Definition setSelectedAnswers (v : gmap string (option QuizTrackQuality))
    (s : AppState) : AppState :=
  {| ffmpegRef := ffmpegRef s; coreLoaded := coreLoaded s; converting := converting s;
     file := file s; tracks := tracks s; selectedAnswers := v;
     feedback := feedback s; objectUrlsRef := objectUrlsRef s;
     objectURLs := objectURLs s; player := player s |}.

Definition setFeedback (v : FeedbackState) (s : AppState) : AppState :=
  {| ffmpegRef := ffmpegRef s; coreLoaded := coreLoaded s; converting := converting s;
     file := file s; tracks := tracks s; selectedAnswers := selectedAnswers s;
     feedback := Some v; objectUrlsRef := objectUrlsRef s;
     objectURLs := objectURLs s; player := player s |}.

Definition set_locators (members : list string) (u : ObjectURLs) (s : AppState) : AppState :=
  {| ffmpegRef := ffmpegRef s; coreLoaded := coreLoaded s; converting := converting s;
     file := file s; tracks := tracks s; selectedAnswers := selectedAnswers s;
     feedback := feedback s; objectUrlsRef := members;
     objectURLs := u; player := player s |}.

Definition set_player (v : Player) (s : AppState) : AppState :=
  {| ffmpegRef := ffmpegRef s; coreLoaded := coreLoaded s; converting := converting s;
     file := file s; tracks := tracks s; selectedAnswers := selectedAnswers s;
     feedback := feedback s; objectUrlsRef := objectUrlsRef s;
     objectURLs := objectURLs s; player := v |}.

(** The component before its mount effect ran. *)
Definition AppState_init : AppState :=
  {| ffmpegRef := None; coreLoaded := false; converting := false; file := None;
     tracks := []; selectedAnswers := ∅; feedback := None; objectUrlsRef := [];
     objectURLs := {| issued := 0; resolving := []; revocations := [] |};
     player := Player_init |}.

(** The messages of the first variant of the component, under the names the
    specification gives to the failures they report. *)
Definition NotReady : FeedbackState :=
  {| text := "まずはFFmpegを読み込んでください。"; tone := error |}.
Definition NoInput : FeedbackState :=
  {| text := "楽曲を選択してください。"; tone := error |}.
Definition TranscodeFailure : FeedbackState :=
  {| text := "音声変換に失敗しました。別のファイルでお試しください。"; tone := error |}.
Definition PlaybackFailure : FeedbackState :=
  {| text := "音声の再生に失敗しました。もう一度お試しください。"; tone := error |}.
Definition EmptyTrackSet : FeedbackState :=
  {| text := "まずは曲を変換してください。"; tone := error |}.
Definition IncompleteAnswers : FeedbackState :=
  {| text := "すべての曲で予想を選択してください。"; tone := error |}.
Definition CoreLoadFailure : FeedbackState :=
  {| text := "ffmpeg-coreの読み込みに失敗しました。時間をおいて再試行してください。";
     tone := error |}.
Definition ConvertDone : FeedbackState :=
  {| text := "変換が完了しました。曲を再生して当ててみよう！(再生は冒頭"
             +:+ String_of_N MAX_PLAY_SECONDS +:+ "秒まで)";
     tone := success |}.

(** ** Resource ledger: [objectUrlsRef] *)

(** [revokeTrackUrls]: revoke every member, then clear the set. *)
Definition revokeTrackUrls (s : AppState) : AppState :=
  set_locators [] (foldl revokeObjectURL (objectURLs s) (objectUrlsRef s)) s.

(** [objectUrlsRef.current.add(url)] *)
Definition registerUrl (u : string) (s : AppState) : AppState :=
  set_locators (Set_add u (objectUrlsRef s)) (objectURLs s) s.

(** The effect run at mount, and the cleanup it returns, run at unmount. *)
Definition mountEffect (s : AppState) : AppState :=
  set_ffmpeg (Some FFmpeg_new) s.

Definition unmountCleanup (s : AppState) : AppState :=
  let p := player s in
  let els := foldl (halt_and_unlisten (limitHandlersRef p) (endedHandlersRef p))
                   (elements p) (audioRefs p) in
  revokeTrackUrls (set_player (with_elements els p) s).

(** [loadCore]; [load_ok] says whether the download and [ffmpeg.load] fulfil. *)
Definition loadCore (load_ok : bool) (s : AppState) : AppState :=
  match ffmpegRef s with
  | None => s
  | Some _ =>
      if coreLoaded s then s
      else if load_ok then set_coreLoaded true s
      else setFeedback CoreLoadFailure s
  end.

(** The rejection handler attached to [target.play()] in [handlePlay]. *)
Definition handlePlay_rejected (s : AppState) : AppState :=
  setFeedback PlaybackFailure (set_player (with_playing None (player s)) s).

Definition handleAnswerChange (trackId : string) (value : option QuizTrackQuality)
    (s : AppState) : AppState :=
  setSelectedAnswers (<[trackId := value]> (selectedAnswers s)) s.

(** ** Awaited steps: state passing with rejection

    The body of [handleConvert] is a chain of awaited calls inside
    [try { ... }]: each step changes the state and either fulfils with a
    value or rejects, and a rejection skips the rest of the chain. *)
Inductive Completion (A : Type) :=
| Fulfilled (a : A)
| Rejected.
Arguments Fulfilled {A} a.
Arguments Rejected {A}.

Definition Async (A : Type) : Type := AppState → Completion A * AppState.

#[global] Instance Async_ret : MRet Async := λ A a s, (Fulfilled a, s).

#[global] Instance Async_bind : MBind Async := λ A B k m s,
  match m s with
  | (Fulfilled a, s') => k a s'
  | (Rejected, s') => (Rejected, s')
  end.

(** A synchronous statement that cannot throw. *)
Definition perform (f : AppState → AppState) : Async () :=
  λ s, (Fulfilled (), f s).

(** [await ffmpeg.writeFile(name, await fetchFile(file))] *)
Definition writeFile (ok : bool) (n : string) (data : list Byte.byte) : Async () :=
  λ s,
    match ffmpegRef s with
    | Some ff =>
        if ok
        then (Fulfilled (),
              set_ffmpeg (Some {| files := <[n := data]> (files ff);
                                  invocations := invocations ff |}) s)
        else (Rejected, s)
    | None => (Rejected, s)
    end.

(** [await ffmpeg.exec(args)] *)
Definition exec (answer : list string → ExecOutcome) (args : list string) : Async () :=
  λ s,
    match ffmpegRef s with
    | Some ff =>
        let called := (invocations ff ++ [args])%list in
        match answer args with
        | ExecRejects =>
            (Rejected, set_ffmpeg (Some {| files := files ff; invocations := called |}) s)
        | ExecResolves None =>
            (Fulfilled (), set_ffmpeg (Some {| files := files ff; invocations := called |}) s)
        | ExecResolves (Some data) =>
            (Fulfilled (),
             set_ffmpeg (Some {| files := <[default "" (last args) := data]> (files ff);
                                 invocations := called |}) s)
        end
    | None => (Rejected, s)
    end.

(** [await ffmpeg.readFile(name)]: rejects when there is no such file. *)
Definition readFile (n : string) : Async (list Byte.byte) :=
  λ s,
    match ffmpegRef s with
    | Some ff =>
        match files ff !! n with
        | Some data => (Fulfilled data, s)
        | None => (Rejected, s)
        end
    | None => (Rejected, s)
    end.

(** [URL.createObjectURL(blob)] *)
Definition newObjectURL (b : Blob) : Async string :=
  λ s,
    let '(u, table) := createObjectURL b (objectURLs s) in
    (Fulfilled u, set_locators (objectUrlsRef s) table s).

Record OutputPlan := {
  plan_quality : QuizTrackQuality;
  outputName : string;
  command : list string;
  mime : string
}.

Definition outputPlans (baseIdentifier inputName extension fileType : string)
    : list OutputPlan :=
  [ {| plan_quality := mp3_128;
       outputName := baseIdentifier +:+ "_128.mp3";
       command := ["-i"; inputName; "-t"; String_of_N MAX_PLAY_SECONDS;
                   "-c:a"; "libmp3lame"; "-b:a"; "128k"];
       mime := getMimeByQuality mp3_128 fileType |};
    {| plan_quality := mp3_320;
       outputName := baseIdentifier +:+ "_320.mp3";
       command := ["-i"; inputName; "-t"; String_of_N MAX_PLAY_SECONDS;
                   "-c:a"; "libmp3lame"; "-b:a"; "320k"];
       mime := getMimeByQuality mp3_320 fileType |};
    {| plan_quality := original;
       outputName := baseIdentifier +:+ "_original." +:+ extension;
       command := ["-i"; inputName; "-t"; String_of_N MAX_PLAY_SECONDS;
                   "-c"; "copy"];
       mime := getMimeByQuality original fileType |} ].

(** The loop [for (const plan of outputPlans)], with [preparedTracks] as
    accumulator. *)
Fixpoint transcodePlans (env : ConvertEnv) (baseIdentifier : string)
    (plans : list OutputPlan) (preparedTracks : list QuizTrack)
    : Async (list QuizTrack) :=
  match plans with
  | [] => mret preparedTracks
  | plan :: rest =>
      exec (engine env) (command plan ++ [outputName plan]) ;;
      data ← readFile (outputName plan);
      u ← newObjectURL {| blob_bytes := data; blob_type := mime plan |};
      perform (registerUrl u) ;;
      transcodePlans env baseIdentifier rest
        (preparedTracks ++
           [ {| id := createTrackId baseIdentifier (plan_quality plan);
                quality := plan_quality plan;
                fileName := outputName plan;
                url := u |} ])
  end.

Definition initialAnswers (shuffled : list QuizTrack)
    : gmap string (option QuizTrackQuality) :=
  foldl (λ m track, <[id track := None]> m) ∅ shuffled.

(** The [try] block of [handleConvert]. *)
Definition convertBody (env : ConvertEnv) (f : File) (baseIdentifier extension : string)
    : Async () :=
  let inputName := baseIdentifier +:+ "_input." +:+ extension in
  writeFile (upload_ok env) inputName (bytes f) ;;
  preparedTracks ←
    transcodePlans env baseIdentifier
      (outputPlans baseIdentifier inputName extension (type f)) [];
  let shuffled := shuffle (random env) preparedTracks in
  perform (set_tracks shuffled) ;;
  perform (setSelectedAnswers (initialAnswers shuffled)) ;;
  perform (setFeedback ConvertDone).

(** The [finally] block: delete the engine files of this run, as far as
    [listDir] answers. *)
Definition cleanupTempFiles (env : ConvertEnv) (baseIdentifier : string)
    (s : AppState) : AppState :=
  match ffmpegRef s with
  | Some ff =>
      if listDir_ok env
      then set_ffmpeg
             (Some {| files := filter (λ e, ¬ startsWith e.1 baseIdentifier) (files ff);
                      invocations := invocations ff |}) s
      else s
  | None => s
  end.

Definition handleConvert (env : ConvertEnv) (s : AppState) : AppState :=
  match ffmpegRef s with
  | None => setFeedback NotReady s
  | Some _ =>
      if negb (coreLoaded s) then setFeedback NotReady s
      else
        match file s with
        | None => setFeedback NoInput s
        | Some f =>
            let s1 := set_converting true s in
            let s2 := set_player (resetAudioRefs (player s1)) s1 in
            let s3 := revokeTrackUrls s2 in
            let s4 := set_tracks [] s3 in
            let baseIdentifier :=
              baseFileName (file s) +:+ "_" +:+ String_of_N (now env) in
            let s5 :=
              match convertBody env f baseIdentifier (originalExtension (file s)) s4 with
              | (Fulfilled _, s') => s'
              | (Rejected, s') => setFeedback TranscodeFailure s'
              end in
            set_converting false (cleanupTempFiles env baseIdentifier s5)
        end
  end.

(** ** Answer evaluation *)

Definition newline : string := String (ascii_of_nat 10) "".

Definition report_header (total correct : nat) : string :=
  String_of_nat total +:+ "問中" +:+ String_of_nat correct +:+ "問正解でした。".

Definition detail_line (index : nat) (track : QuizTrack)
    (answer : option (option QuizTrackQuality)) : string :=
  let label := "曲" +:+ String_of_nat (index + 1) in
  let actual := QUALITY_LABEL_MAP (quality track) in
  let guessed :=
    match answer with
    | Some (Some a) => QUALITY_LABEL_MAP a
    | _ => "未選択"
    end in
  label +:+ ": 正解 " +:+ actual +:+ " / あなたの選択 " +:+ guessed.

(** [!selectedAnswers[track.id]]: a missing key and [null] both count. *)
Definition unanswered (answers : gmap string (option QuizTrackQuality))
    (track : QuizTrack) : bool :=
  match answers !! id track with
  | Some (Some _) => false
  | _ => true
  end.

(** The scoring loop, from [index] on, with [correct] and [details] so far. *)
Fixpoint scoreLoop (answers : gmap string (option QuizTrackQuality))
    (rest : list QuizTrack) (index correct : nat) (details : list string)
    : nat * list string :=
  match rest with
  | [] => (correct, details)
  | track :: rest' =>
      let answer := answers !! id track in
      let isCorrect := bool_decide (answer = Some (Some (quality track))) in
      scoreLoop answers rest' (index + 1)
        (if isCorrect then correct + 1 else correct)%nat
        (details ++ [detail_line index track answer])
  end.

Definition checkAnswers (s : AppState) : AppState :=
  if (length (tracks s) =? 0)%nat then setFeedback EmptyTrackSet s
  else if existsb (unanswered (selectedAnswers s)) (tracks s)
  then setFeedback IncompleteAnswers s
  else
    let '(correct, details) := scoreLoop (selectedAnswers s) (tracks s) 0 0 [] in
    setFeedback
      {| text := join newline (report_header (length (tracks s)) correct :: details);
         tone := if (correct =? length (tracks s))%nat then success else error |}
      s.

(** The guess recorded for the track is its true quality. *)
Definition guessed_right (answers : gmap string (option QuizTrackQuality))
    (track : QuizTrack) : Prop :=
  answers !! id track = Some (Some (quality track)).

#[global] Instance guessed_right_dec answers track :
  Decision (guessed_right answers track).
Proof. unfold guessed_right. apply _. Defined.

(** The detail lines of a report, one per track in presentation order. *)
Definition report_details (answers : gmap string (option QuizTrackQuality))
    (ts : list QuizTrack) : list string :=
  imap (λ i track, detail_line i track (answers !! id track)) ts.

Definition first_char (s : string) : option ascii :=
  match s with
  | EmptyString => None
  | String c _ => Some c
  end.

Definition is_digit (c : ascii) : Prop :=
  (48 ≤ nat_of_ascii c ≤ 57)%nat.

(** ** What one run of the transcoding loop leaves behind *)

(** The URLs the browser issues for the next [k] blobs. *)
Definition issued_urls (from : N) (k : nat) : list string :=
  map (λ i, blob_url (from + N.of_nat i)) (seq 0 k).

(** The argument list [exec] receives for a plan. *)
Definition plan_args (plan : OutputPlan) : list string :=
  command plan ++ [outputName plan].

(** The track the loop builds for a plan once its URL is known. *)
Definition track_of (baseIdentifier : string) (plan : OutputPlan) (u : string)
    : QuizTrack :=
  {| id := createTrackId baseIdentifier (plan_quality plan);
     quality := plan_quality plan;
     fileName := outputName plan;
     url := u |}.

(** The ledger, the browser table and the engine after [k] plans went
    through since state [s]: [k] new URLs, in order, each resolving to the
    blob it was made for. *)
Definition with_outputs (k : nat) (blobs : list Blob) (ff' : FFmpeg)
    (s : AppState) : AppState :=
  set_locators
    (foldl (λ members u, Set_add u members) (objectUrlsRef s)
           (issued_urls (issued (objectURLs s)) k))
    {| issued := issued (objectURLs s) + N.of_nat k;
       resolving := resolving (objectURLs s)
                    ++ zip (issued_urls (issued (objectURLs s)) k) blobs;
       revocations := revocations (objectURLs s) |}
    (set_ffmpeg (Some ff') s).

(** What a run of the loop over [plans] from state [s] (engine [ff]) comes
    to: the number [k] of plans that went through, and either all tracks or
    a rejection right after the call of [exec] for plan [k]. *)
Definition plans_ran (baseIdentifier : string) (plans : list OutputPlan)
    (acc : list QuizTrack) (s : AppState) (ff : FFmpeg)
    (r : Completion (list QuizTrack)) (s' : AppState) : Prop :=
  ∃ (k : nat) (ff' : FFmpeg) (blobs : list Blob),
    length blobs = k
    ∧ s' = with_outputs k blobs ff' s
    ∧ match r with
      | Fulfilled ts =>
          k = length plans
          ∧ invocations ff' = (invocations ff ++ (plan_args <$> plans))%list
          ∧ ts = (acc ++ zip_with (track_of baseIdentifier) plans
                           (issued_urls (issued (objectURLs s)) k))%list
      | Rejected =>
          (k < length plans)%nat
          ∧ invocations ff' = (invocations ff ++ (plan_args <$> take (S k) plans))%list
      end.

(** Does a plan go through in an engine that held the files [fs] before
    the run: [exec] resolves for its arguments, and [readFile] then finds
    its output, written by this call or there before. *)
Definition plan_goes_through (env : ConvertEnv) (fs : gmap string (list Byte.byte))
    (plan : OutputPlan) : bool :=
  match engine env (plan_args plan) with
  | ExecRejects => false
  | ExecResolves (Some _) => true
  | ExecResolves None => bool_decide (is_Some (fs !! outputName plan))
  end.

(** The number of plans that go through before the first one that does not. *)
Fixpoint plans_through (env : ConvertEnv) (fs : gmap string (list Byte.byte))
    (plans : list OutputPlan) : nat :=
  match plans with
  | [] => 0
  | plan :: rest =>
      if plan_goes_through env fs plan then S (plans_through env fs rest) else 0
  end.

(** The pieces of [handleConvert] once it has passed its two checks. *)
Definition sessionId (env : ConvertEnv) (s : AppState) : string :=
  baseFileName (file s) +:+ "_" +:+ String_of_N (now env).

Definition session_plans (env : ConvertEnv) (s : AppState) (f : File)
    : list OutputPlan :=
  outputPlans (sessionId env s)
    (sessionId env s +:+ "_input." +:+ originalExtension (file s))
    (originalExtension (file s)) (type f).

Definition convert_start (s : AppState) : AppState :=
  set_tracks []
    (revokeTrackUrls
       (set_player (resetAudioRefs (player s)) (set_converting true s))).

Definition convert_finish (env : ConvertEnv) (s s' : AppState) : AppState :=
  set_converting false (cleanupTempFiles env (sessionId env s) s').

(** The tracks of a run all of whose plans went through, before and after
    the shuffle. *)
Definition prepared_tracks (env : ConvertEnv) (s : AppState) (f : File)
    : list QuizTrack :=
  zip_with (track_of (sessionId env s)) (session_plans env s f)
           (issued_urls (issued (objectURLs s)) 3).

Definition shuffled_tracks (env : ConvertEnv) (s : AppState) (f : File)
    : list QuizTrack :=
  shuffle (random env) (prepared_tracks env s f).

(** The four ways [handleConvert] ends. *)
Inductive ConvertOutcome (env : ConvertEnv) (s : AppState) : AppState → Prop :=
| Convert_NotReady :
    ffmpegRef s = None ∨ coreLoaded s = false →
    ConvertOutcome env s (setFeedback NotReady s)
| Convert_NoInput :
    is_Some (ffmpegRef s) → coreLoaded s = true → file s = None →
    ConvertOutcome env s (setFeedback NoInput s)
| Convert_Failed (ff : FFmpeg) (f : File) (k j : nat) (ff' : FFmpeg)
      (blobs : list Blob) :
    ffmpegRef s = Some ff → coreLoaded s = true → file s = Some f →
    length blobs = k → (k < 3)%nat →
    (upload_ok env = false ∧ k = 0%nat ∧ j = 0%nat ∨ upload_ok env = true ∧ j = S k) →
    invocations ff'
    = (invocations ff ++ take j (plan_args <$> session_plans env s f))%list →
    ConvertOutcome env s
      (convert_finish env s
         (setFeedback TranscodeFailure
            (with_outputs k blobs ff' (convert_start s))))
| Convert_Done (ff : FFmpeg) (f : File) (ff' : FFmpeg) (blobs : list Blob) :
    ffmpegRef s = Some ff → coreLoaded s = true → file s = Some f →
    length blobs = 3%nat →
    invocations ff'
    = (invocations ff ++ (plan_args <$> session_plans env s f))%list →
    ConvertOutcome env s
      (convert_finish env s
         (setFeedback ConvertDone
            (setSelectedAnswers (initialAnswers (shuffled_tracks env s f))
               (set_tracks (shuffled_tracks env s f)
                  (with_outputs 3 blobs ff' (convert_start s)))))).

(** ** Playback states and the invariant of the playback refs *)

Definition unpaused (p : Player) (e : nat) : Prop :=
  ∃ a, elements p !! e = Some a ∧ paused a = false.

(** Paused with its position at the start. *)
Definition halted (p : Player) (e : nat) : Prop :=
  ∃ a, elements p !! e = Some a ∧ paused a = true ∧ currentTime a = 0%Q.

(** The state [Sounding(trackId)] of the specification: the ref names the
    track and the track's element plays. *)
Definition sounding (p : Player) (trackId : string) : Prop :=
  playingTrackIdRef p = Some trackId
  ∧ ∃ e, obj_get trackId (audioRefs p) = Some e ∧ unpaused p e.

Definition stopped (p : Player) (trackId : string) : Prop :=
  ∃ e, obj_get trackId (audioRefs p) = Some e ∧ halted p e.

(** The state [Idle]: the ref names no track and no element plays. *)
Definition idle (p : Player) : Prop :=
  playingTrackIdRef p = None ∧ ∀ e, ¬ unpaused p e.

(** What the handlers may do to an element other than start it: pause it,
    and put its position back to the start. *)
Definition calmer (a a' : HTMLAudioElement) : Prop :=
  (paused a = true → paused a' = true)
  ∧ (currentTime a' = currentTime a ∨ currentTime a' = 0%Q).

Definition same_listeners (a a' : HTMLAudioElement) : Prop :=
  on_timeupdate a' = on_timeupdate a ∧ on_ended a' = on_ended a.

Definition quieter (els els' : list HTMLAudioElement) : Prop :=
  length els' = length els
  ∧ ∀ e a a', els !! e = Some a → els' !! e = Some a' →
      calmer a a' ∧ same_listeners a a'.

Definition within_cap (a : HTMLAudioElement) : Prop :=
  paused a = true ∨ (currentTime a < cap)%Q.

(** The invariant: an element held in [audioRefs] carries exactly the two
    listeners made for its track; no element is held under two ids; only
    held elements play, at most one of them, and below the cap. *)
Record Player_ok (p : Player) : Prop := {
  ok_listeners : ∀ k e, obj_get k (audioRefs p) = Some e →
    ∃ a, elements p !! e = Some a
         ∧ on_timeupdate a = [ {| closure_instance := e; closure_trackId := k |} ]
         ∧ on_ended a = [ {| closure_instance := e; closure_trackId := k |} ];
  ok_injective : ∀ k1 k2 e,
    obj_get k1 (audioRefs p) = Some e → obj_get k2 (audioRefs p) = Some e → k1 = k2;
  ok_held : ∀ e, unpaused p e → ∃ k, obj_get k (audioRefs p) = Some e;
  ok_single : ∀ e1 e2, unpaused p e1 → unpaused p e2 → e1 = e2;
  ok_capped : ∀ e a, elements p !! e = Some a → within_cap a
}.

(** The invariant of the ledger: no URL was revoked twice, no registered
    URL was revoked, and every URL in sight was issued by the browser. *)
Definition Ledger_ok (s : AppState) : Prop :=
  NoDup (revocations (objectURLs s) ++ objectUrlsRef s)
  ∧ ∀ u, u ∈ (revocations (objectURLs s) ++ objectUrlsRef s)%list →
      ∃ i, (i < issued (objectURLs s))%N ∧ u = blob_url i.

(** Every track on display has its URL registered in the ledger, and the
    URL resolves. *)
Definition Tracks_ok (s : AppState) : Prop :=
  ∀ track, track ∈ tracks s →
    url track ∈ objectUrlsRef s ∧ url track ∈ (resolving (objectURLs s)).*1.

(** ** The life of the component

    Everything that happens to the component between its mount and its
    unmount: the handlers the user triggers, what React does to the audio
    elements, and what the browser reports about them. *)
Inductive Event :=
| Mounted
| CoreLoad (load_ok : bool)
| FileChosen (f : option File)
| ConvertClicked (env : ConvertEnv)
| AnswerChanged (trackId : string) (value : option QuizTrackQuality)
| CheckClicked
| AudioMounted (trackId : string)
| AudioUnmounted (trackId : string)
| PlayClicked (allowed : bool) (trackId : string)
| PlayRejected
| MediaProgress (e : nat) (t : Q)
| MediaEnded (e : nat).

Definition step (s : AppState) (ev : Event) : AppState :=
  match ev with
  | Mounted => mountEffect s
  | CoreLoad load_ok => loadCore load_ok s
  | FileChosen f => setFile f s
  | ConvertClicked env => handleConvert env s
  | AnswerChanged trackId value => handleAnswerChange trackId value s
  | CheckClicked => checkAnswers s
  | AudioMounted trackId => set_player (mountAudio trackId (player s)) s
  | AudioUnmounted trackId => set_player (unmountAudio trackId (player s)) s
  | PlayClicked allowed trackId => set_player (handlePlay allowed trackId (player s)) s
  | PlayRejected => handlePlay_rejected s
  | MediaProgress e t => set_player (mediaProgress e t (player s)) s
  | MediaEnded e => set_player (mediaEnded e (player s)) s
  end.

Definition run (evs : list Event) : AppState := foldl step AppState_init evs.

Definition reachable (s : AppState) : Prop := ∃ evs, s = run evs.

(** ** Proof automation *)

(** Case analysis on a [ConvertOutcome], with the names the proofs use. *)
Ltac outcome_cases H :=
  destruct H
    as [Hnr|Hff Hcore Hfile|ff f k j ff' blobs Hff Hcore Hfile Hlen Hk Hj Hinv
        |ff f ff' blobs Hff Hcore Hfile Hlen Hinv].

(** Facts about calming audio elements, for [auto with quiz]. *)
Create HintDb quiz.

(** ** Sample inputs *)

Definition song : File :=
  {| name := "song.wav"; type := "audio/wav"; bytes := [Byte.x52; Byte.x49] |}.

Definition dotfile : File :=
  {| name := ".mp3"; type := "audio/mpeg"; bytes := [] |}.

Definition quiz_tracks : list QuizTrack :=
  [ {| id := "song_17-original"; quality := original;
       fileName := "song_17_original.wav"; url := "blob:2" |};
    {| id := "song_17-mp3_128"; quality := mp3_128;
       fileName := "song_17_128.mp3"; url := "blob:0" |};
    {| id := "song_17-mp3_320"; quality := mp3_320;
       fileName := "song_17_320.mp3"; url := "blob:1" |} ].

(** A session in which every guess is [mp3_320]. *)
Definition guess_all_320 : AppState :=
  setSelectedAnswers
    (<["song_17-original" := Some mp3_320]>
       (<["song_17-mp3_128" := Some mp3_320]>
          (<["song_17-mp3_320" := Some mp3_320]> ∅)))
    (set_tracks quiz_tracks AppState_init).

(** The component with the engine loaded and [song.wav] chosen. *)
Definition ready_state : AppState :=
  run [Mounted; CoreLoad true; FileChosen (Some song)].

(** An engine that transcodes everything. *)
Definition all_ok : ConvertEnv :=
  {| now := 1700000000000;
     upload_ok := true;
     engine := λ _, ExecResolves (Some [Byte.x49; Byte.x44; Byte.x33]);
     listDir_ok := true;
     random := [2; 0; 0]%nat |}.

(** An engine that rejects the second plan (320k) and transcodes the rest. *)
Definition second_fails : ConvertEnv :=
  {| now := 1700000000000;
     upload_ok := true;
     engine := λ args,
       if decide (last args = Some "song_1700000000000_320.mp3")
       then ExecRejects
       else ExecResolves (Some [Byte.x49; Byte.x44; Byte.x33]);
     listDir_ok := true;
     random := [2; 0; 0]%nat |}.

(** Two tracks with their audio elements mounted, the first one playing. *)
Definition playing_a : AppState :=
  run [Mounted; AudioMounted "a"; AudioMounted "b"; PlayClicked true "a"].

(** A session was converted, the component is about to convert again. *)
Definition after_one_session : AppState :=
  run [Mounted; CoreLoad true; FileChosen (Some song); ConvertClicked all_ok].

(** Track [a] is clicked and, before it has started, track [b]: the click
    on [b] pauses [a], so the browser rejects the pending [play()] of [a]
    and its rejection handler runs; then [b] plays on to twelve seconds. *)
Definition b_plays_unmarked : AppState :=
  run [Mounted; AudioMounted "a"; AudioMounted "b";
       PlayClicked true "a"; PlayClicked true "b"; PlayRejected;
       MediaProgress 1 12].
(** * Further parts of the component *)

(** An argument list for the engine that reads its input up to the first
    [MAX_PLAY_SECONDS] seconds only. *)
Definition capped_args (args : list string) : Prop :=
  ∃ input rest, args = "-i" :: input :: "-t" :: String_of_N MAX_PLAY_SECONDS :: rest.

(** The ledger forgets nothing: a URL resolves exactly while it is a member
    of the ledger, and every URL the browser ever issued is a member or was
    revoked. *)
Definition Ledger_tight (s : AppState) : Prop :=
  (resolving (objectURLs s)).*1 = objectUrlsRef s
  ∧ ∀ i, (i < issued (objectURLs s))%N →
      blob_url i ∈ (revocations (objectURLs s) ++ objectUrlsRef s)%list.

(** ** Listeners and the refs that remember them *)

Definition no_listeners (a : HTMLAudioElement) : Prop :=
  on_timeupdate a = [] ∧ on_ended a = [].

(** The elements are the same in number and each listens as before. *)
Definition ears (els els' : list HTMLAudioElement) : Prop :=
  length els' = length els
  ∧ ∀ e a a', els !! e = Some a → els' !! e = Some a' → same_listeners a a'.

(** A step that touches neither the refs to elements and handlers nor any
    list of listeners. *)
Definition hears (p p' : Player) : Prop :=
  audioRefs p' = audioRefs p
  ∧ limitHandlersRef p' = limitHandlersRef p
  ∧ endedHandlersRef p' = endedHandlersRef p
  ∧ ears (elements p) (elements p').

(** The invariant of the handler refs: [audioRefs] has every key once, the
    two handler refs hold, for every track with an element, the closures
    made for that element, and an element no track holds has no listener. *)
Record Handlers_ok (p : Player) : Prop := {
  hk_keys : NoDup (audioRefs p).*1;
  hk_refs : ∀ k e, obj_get k (audioRefs p) = Some e →
    limitHandlersRef p !! k = Some {| closure_instance := e; closure_trackId := k |}
    ∧ endedHandlersRef p !! k = Some {| closure_instance := e; closure_trackId := k |};
  hk_free : ∀ e a, elements p !! e = Some a →
    (∃ k, obj_get k (audioRefs p) = Some e) ∨ no_listeners a
}.

(** ** Answering every track *)

(** The user picks [guess track] for every track on display: one
    [handleAnswerChange] per track, in presentation order. *)
Definition answerAll (guess : QuizTrack → QuizTrackQuality) (s : AppState) : AppState :=
  foldl (λ st track, handleAnswerChange (id track) (Some (guess track)) st) s (tracks s).

(** ** What a run leaves in the engine and in the blobs *)

(** The files whose names do not start with [base] are the same in both
    file systems. *)
Definition outside (base : string) (fs fs' : gmap string (list Byte.byte)) : Prop :=
  filter (λ e, ¬ startsWith e.1 base) fs' = filter (λ e, ¬ startsWith e.1 base) fs.

(** The blob the loop makes for a plan: it has the MIME type of the plan,
    and the bytes the engine wrote for the plan when it wrote any. *)
Definition blob_of_plan (env : ConvertEnv) (plan : OutputPlan) (b : Blob) : Prop :=
  blob_type b = mime plan
  ∧ ∀ data, engine env (plan_args plan) = ExecResolves (Some data) → blob_bytes b = data.

(** ** What the component renders *)

(** [disabled={!coreLoaded || !file}] of the button that calls
    [handleConvert]. *)
Definition convertDisabled (s : AppState) : bool :=
  negb (coreLoaded s) || bool_decide (file s = None).

(** ** The variant of the component that plays through [use-sound]

    In this variant a track player hands the [Howl] of its track to the
    component, which keeps it in [soundMapRef] while the track plays, and
    two buttons seek five seconds back or forth in the playing track. *)

(** What [handleSeek] reads off a [Howl]: the position [seek()] reports and
    [duration()], which is [None] when it is not a finite number. *)
Record Howl := {
  position : Q;
  duration : option Q
}.

Record SoundState := {
  playingTrackId : option string;
  soundMapRef : gmap string (option Howl)
}.

Definition resetPlayingState (p : SoundState) : SoundState :=
  {| playingTrackId := None; soundMapRef := ∅ |}.

Definition handleSoundUpdate (trackId : string) (sound : option Howl) (p : SoundState)
    : SoundState :=
  {| playingTrackId := playingTrackId p;
     soundMapRef := <[trackId := sound]> (soundMapRef p) |}.

Definition handleTrackPlay (trackId : string) (p : SoundState) : SoundState :=
  {| playingTrackId := Some trackId; soundMapRef := soundMapRef p |}.

Definition handleTrackStop (trackId : string) (p : SoundState) : SoundState :=
  let p1 := handleSoundUpdate trackId None p in
  {| playingTrackId :=
       if decide (playingTrackId p1 = Some trackId) then None else playingTrackId p1;
     soundMapRef := soundMapRef p1 |}.

Definition Math_max (a b : Q) : Q := if Qle_bool a b then b else a.
Definition Math_min (a b : Q) : Q := if Qle_bool a b then a else b.

Section Seek.
(** The sum of two numbers as JavaScript computes it, rounding included. *)
Variable js_add : Q → Q → Q.

(** [handleSeek(offsetSeconds)]: the sound it seeks in and the position
    it passes to [targetSound.seek], or [None] when it returns before. *)
Definition handleSeek (offsetSeconds : Q) (p : SoundState) : option (string * Q) :=
  match playingTrackId p with
  | None => None
  | Some trackId =>
      if decide (trackId = "") then None
      else
        match soundMapRef p !! trackId with
        | Some (Some targetSound) =>
            let currentPosition := position targetSound in
            match duration targetSound with
            | None => None
            | Some d =>
                Some (trackId,
                      Math_min (Math_max (js_add currentPosition offsetSeconds) 0) d)
            end
        | _ => None
        end
  end.
End Seek.


(** * Properties *)

Open Scope list_scope.

(** ** Strings *)

Section LastIndexOf.

Context (c : ascii).

Lemma lastIndexOf_from_absent (s : string) (i found : Z) :
  occurs c s = false → lastIndexOf_from s c i found = found.
Proof.
  revert i found. induction s as [|a s IH]; intros i found H; simpl in *.
  - reflexivity.
  - apply orb_false_iff in H as [Ha Hs]. rewrite Ha. by apply IH.
Qed.

Lemma lastIndexOf_from_split (pre post : string) (i found : Z) :
  occurs c post = false →
  lastIndexOf_from (pre +:+ String c post) c i found
  = (i + Z.of_nat (String.length pre))%Z.
Proof.
  intros Hpost. revert i found.
  induction pre as [|a pre IH]; intros i found; simpl.
  - rewrite Ascii.eqb_refl. rewrite lastIndexOf_from_absent by done. lia.
  - rewrite IH. lia.
Qed.

Lemma lastIndexOf_split (pre post : string) :
  occurs c post = false →
  lastIndexOf (pre +:+ String c post) c = Z.of_nat (String.length pre).
Proof.
  intros H. unfold lastIndexOf. by rewrite lastIndexOf_from_split.
Qed.

Lemma lastIndexOf_absent (s : string) :
  occurs c s = false → lastIndexOf s c = (-1)%Z.
Proof. apply lastIndexOf_from_absent. Qed.

End LastIndexOf.

Lemma substring_all (s : string) : String.substring 0 (String.length s) s = s.
Proof. induction s as [|a s IH]; simpl; [done | by rewrite IH]. Qed.

Lemma substring_prefix (pre rest : string) :
  String.substring 0 (String.length pre) (pre +:+ rest) = pre.
Proof.
  induction pre as [|a pre IH]; simpl.
  - by destruct rest.
  - by rewrite IH.
Qed.

Lemma substring_suffix (pre rest : string) :
  String.substring (String.length pre) (String.length rest) (pre +:+ rest) = rest.
Proof.
  induction pre as [|a pre IH]; simpl; [apply substring_all | done].
Qed.

Lemma length_append (s t : string) :
  String.length (s +:+ t) = (String.length s + String.length t)%nat.
Proof.
  induction s as [|a s IH]; [done|].
  change (S (String.length (s +:+ t)) = S (String.length s + String.length t)).
  by f_equal.
Qed.

Lemma append_assoc (s t u : string) : (s +:+ t) +:+ u = s +:+ (t +:+ u).
Proof.
  induction s as [|a s IH]; [done|].
  change (String a ((s +:+ t) +:+ u) = String a (s +:+ (t +:+ u))).
  by f_equal.
Qed.

Lemma slice_prefix (pre rest : string) :
  slice (pre +:+ rest) 0 (Z.of_nat (String.length pre)) = pre.
Proof.
  unfold slice. rewrite Z.sub_0_r, Nat2Z.id. apply substring_prefix.
Qed.

Lemma slice_from_suffix (pre rest : string) :
  slice_from (pre +:+ rest) (Z.of_nat (String.length pre)) = rest.
Proof.
  unfold slice_from, slice. rewrite length_append, Nat2Z.id.
  replace (Z.to_nat _) with (String.length rest) by lia.
  apply substring_suffix.
Qed.

(** The wording of the specification, checked against its own reading:
    [after_last_dot] returns what follows the last dot. *)
Lemma after_last_dot_absent (s : string) :
  occurs "." s = false → after_last_dot s = None.
Proof.
  induction s as [|a s IH]; simpl; [done|].
  intros H. apply orb_false_iff in H as [Ha Hs]. by rewrite IH, Ha.
Qed.

Lemma after_last_dot_split (pre post : string) :
  occurs "." post = false →
  after_last_dot (pre +:+ String "." post) = Some post.
Proof.
  intros H. induction pre as [|a pre IH]; simpl.
  - by rewrite after_last_dot_absent.
  - by rewrite IH.
Qed.

(** ** C9: names derived from the upload *)

(** C9, as stated, fails: for the name [.mp3] the text after the last dot is
    [mp3], but the code answers the sentinel [orig] although the name has a
    dot. *)
Lemma C9_dotfile_counterexample :
  spec_extension (name dotfile) = "mp3"
  ∧ occurs "." (name dotfile) = true
  ∧ originalExtension (Some dotfile) = "orig"
  ∧ originalExtension (Some dotfile) ≠ spec_extension (name dotfile).
Proof. repeat split; try reflexivity. discriminate. Qed.

(** C9, amended: when the last dot of the name is not its first character,
    the extension is the text after that dot and the base name the text
    before it; when the only dot is the first character, or the name has no
    dot, the extension is the sentinel [orig] and the base name is the whole
    name. *)
Theorem C9_extension_and_base_name (f : File) :
  (∀ pre post : string,
      name f = pre +:+ "." +:+ post → occurs "." post = false → pre ≠ "" →
      originalExtension (Some f) = post ∧ baseFileName (Some f) = pre)
  ∧ (∀ post : string,
      name f = "." +:+ post → occurs "." post = false →
      originalExtension (Some f) = "orig" ∧ baseFileName (Some f) = name f)
  ∧ (occurs "." (name f) = false →
      originalExtension (Some f) = "orig" ∧ baseFileName (Some f) = name f).
Proof.
  split; [|split].
  - intros pre post Hname Hpost Hpre.
    assert (Hidx : lastIndexOf (name f) "." = Z.of_nat (String.length pre)).
    { rewrite Hname. by apply lastIndexOf_split. }
    assert (Hpos : (0 <? Z.of_nat (String.length pre))%Z = true).
    { apply Z.ltb_lt. destruct pre; [done | simpl; lia]. }
    unfold originalExtension, baseFileName. cbv zeta. rewrite Hidx, Hpos, Hname.
    split.
    + replace (Z.of_nat (String.length pre) + 1)%Z
        with (Z.of_nat (String.length (pre +:+ "."))).
      * change (pre +:+ "." +:+ post) with (pre +:+ ("." +:+ post)).
        rewrite <- (append_assoc pre "." post). apply slice_from_suffix.
      * rewrite length_append. simpl. lia.
    + apply slice_prefix.
  - intros post Hname Hpost.
    assert (Hidx : lastIndexOf (name f) "." = 0%Z).
    { rewrite Hname. by apply (lastIndexOf_split "." ""). }
    unfold originalExtension, baseFileName. cbv zeta. by rewrite Hidx.
  - intros Hno. unfold originalExtension, baseFileName. cbv zeta.
    by rewrite lastIndexOf_absent.
Qed.

Lemma C9_extension_and_base_name_witness :
  originalExtension (Some song) = "wav" ∧ baseFileName (Some song) = "song".
Proof.
  apply (proj1 (C9_extension_and_base_name song) "song" "wav");
    [reflexivity | reflexivity | discriminate].
Defined.

(** ** Answer evaluation *)

Lemma scoreLoop_spec answers (ts : list QuizTrack) (index correct : nat)
    (details : list string) :
  scoreLoop answers ts index correct details
  = ((correct + length (filter (guessed_right answers) ts))%nat,
     (details ++
        imap (λ i track, detail_line (index + i) track (answers !! id track)) ts)%list).
Proof.
  revert index correct details.
  induction ts as [|track ts IH]; intros index correct details.
  - simpl. by rewrite Nat.add_0_r, app_nil_r.
  - cbn [scoreLoop]. rewrite IH. f_equal.
    + rewrite filter_cons. unfold guessed_right at 2.
      destruct (decide _) as [E|E].
      * rewrite bool_decide_eq_true_2 by done. simpl. lia.
      * rewrite bool_decide_eq_false_2 by done. lia.
    + rewrite <- app_assoc. f_equal. simpl. rewrite Nat.add_0_r. f_equal.
      apply imap_ext. intros i x _. simpl. f_equal. lia.
Qed.

Lemma filter_all_length {A} (P : A → Prop) `{∀ x, Decision (P x)} (l : list A) :
  (∀ x, x ∈ l → P x) → length (filter P l) = length l.
Proof.
  induction l as [|x l IH]; intros Hall; [done|].
  rewrite filter_cons_True by (apply Hall; left).
  simpl. f_equal. apply IH. intros y Hy. apply Hall. by right.
Qed.

Lemma filter_none_length {A} (P : A → Prop) `{∀ x, Decision (P x)} (l : list A) :
  (∀ x, x ∈ l → ¬ P x) → length (filter P l) = 0%nat.
Proof.
  induction l as [|x l IH]; intros Hnone; [done|].
  rewrite filter_cons_False by (apply Hnone; left).
  apply IH. intros y Hy. apply Hnone. by right.
Qed.

Lemma existsb_unanswered_false answers (ts : list QuizTrack) :
  existsb (unanswered answers) ts = false
  ↔ ∀ track, track ∈ ts → unanswered answers track = false.
Proof.
  induction ts as [|t ts IH]; simpl.
  - split; [|done]. intros _ track H. by apply elem_of_nil in H.
  - rewrite orb_false_iff, IH. split.
    + intros [Ht Hts] track Hin. apply elem_of_cons in Hin as [->|Hin]; auto.
    + intros Hall. split; [apply Hall; left | intros track Hin; apply Hall; by right].
Qed.

Lemma existsb_unanswered_true answers (ts : list QuizTrack) :
  existsb (unanswered answers) ts = true
  ↔ ∃ track, track ∈ ts ∧ unanswered answers track = true.
Proof.
  rewrite existsb_exists. split; intros (t & Hin & Ht); exists t; split; try done;
    by apply list_elem_of_In.
Qed.

(** A decimal numeral starts with a digit. *)
Lemma String_of_N_first (n : N) :
  ∃ c, first_char (String_of_N n) = Some c ∧ is_digit c.
Proof.
  unfold String_of_N.
  assert (Hd : N.to_uint n ≠ Decimal.Nil).
  { destruct n; [done | apply DecimalPos.Unsigned.to_uint_nonnil]. }
  destruct (N.to_uint n); [done | ..]; simpl; eexists; (split; [reflexivity|]);
    unfold is_digit; vm_compute; lia.
Qed.

Lemma first_char_append (s t : string) (c : ascii) :
  first_char s = Some c → first_char (s +:+ t) = Some c.
Proof. by destruct s. Qed.

Lemma first_char_join (sep p : string) (ps : list string) (c : ascii) :
  first_char p = Some c → first_char (join sep (p :: ps)) = Some c.
Proof.
  intros H. destruct ps; [done|]. cbn [join]. by apply first_char_append.
Qed.

(** The text of a report starts with a digit, so it is none of the fixed
    messages. *)
Lemma report_text_first (total correct : nat) (details : list string) :
  ∃ c, first_char (join newline (report_header total correct :: details)) = Some c
       ∧ is_digit c.
Proof.
  destruct (String_of_N_first (N.of_nat total)) as (c & Hc & Hd).
  exists c. split; [|done]. apply first_char_join.
  unfold report_header. by apply first_char_append.
Qed.

Lemma report_is_not (fixed : FeedbackState) (total correct : nat)
    (details : list string) (t : Tone) :
  (∀ c, first_char (text fixed) = Some c → ¬ is_digit c) →
  Some {| text := join newline (report_header total correct :: details); tone := t |}
  ≠ Some fixed.
Proof.
  intros Hfixed E. injection E as E. subst fixed. simpl in Hfixed.
  destruct (report_text_first total correct details) as (c & Hc & Hd).
  by apply (Hfixed c).
Qed.

Lemma EmptyTrackSet_no_digit (c : ascii) :
  first_char (text EmptyTrackSet) = Some c → ¬ is_digit c.
Proof. intros [= <-]. unfold is_digit. vm_compute. lia. Qed.

Lemma IncompleteAnswers_no_digit (c : ascii) :
  first_char (text IncompleteAnswers) = Some c → ¬ is_digit c.
Proof. intros [= <-]. unfold is_digit. vm_compute. lia. Qed.

Lemma checkAnswers_cases (s : AppState) :
  (tracks s = [] ∧ checkAnswers s = setFeedback EmptyTrackSet s)
  ∨ (tracks s ≠ [] ∧ existsb (unanswered (selectedAnswers s)) (tracks s) = true
     ∧ checkAnswers s = setFeedback IncompleteAnswers s)
  ∨ (tracks s ≠ [] ∧ existsb (unanswered (selectedAnswers s)) (tracks s) = false
     ∧ checkAnswers s =
       setFeedback
         {| text :=
              join newline
                (report_header (length (tracks s))
                   (length (filter (guessed_right (selectedAnswers s)) (tracks s)))
                 :: report_details (selectedAnswers s) (tracks s));
            tone :=
              if (length (filter (guessed_right (selectedAnswers s)) (tracks s))
                  =? length (tracks s))%nat
              then success else error |} s).
Proof.
  unfold checkAnswers.
  destruct (tracks s) as [|t ts] eqn:Ets; [left; by split | right].
  change (length (t :: ts) =? 0)%nat with false. cbv iota.
  destruct (existsb _ _) eqn:Eex; [left; by repeat split | right].
  repeat split; [done|]. by rewrite scoreLoop_spec.
Qed.

(** C6: on a non-empty track set with every track answered, [checkAnswers]
    reports as correct-count the number of tracks whose guess is their true
    quality; the tone is success exactly when that count is the number of
    tracks; when every guess is right the count is the number of tracks and
    the tone is success; when every guess is wrong the count is 0 and the
    tone is not success. *)
Theorem C6_checkAnswers_report (s : AppState) :
  tracks s ≠ [] →
  (∀ track, track ∈ tracks s → unanswered (selectedAnswers s) track = false) →
  let total := length (tracks s) in
  let correct := length (filter (guessed_right (selectedAnswers s)) (tracks s)) in
  scoreLoop (selectedAnswers s) (tracks s) 0 0 []
  = (correct, report_details (selectedAnswers s) (tracks s))
  ∧ feedback (checkAnswers s)
    = Some {| text := join newline (report_header total correct
                                    :: report_details (selectedAnswers s) (tracks s));
              tone := if decide (correct = total) then success else error |}
  ∧ ((∀ track, track ∈ tracks s → guessed_right (selectedAnswers s) track) →
     correct = total ∧ tone <$> feedback (checkAnswers s) = Some success)
  ∧ ((∀ track, track ∈ tracks s → ¬ guessed_right (selectedAnswers s) track) →
     correct = 0%nat ∧ tone <$> feedback (checkAnswers s) = Some error).
Proof.
  intros Hne Hall total correct.
  assert (Hfb : feedback (checkAnswers s)
    = Some {| text := join newline (report_header total correct
                                    :: report_details (selectedAnswers s) (tracks s));
              tone := if decide (correct = total) then success else error |}).
  { destruct (checkAnswers_cases s) as [[E _]|[(_ & Ex & _)|(_ & _ & ->)]].
    - done.
    - apply existsb_unanswered_false in Hall. congruence.
    - simpl. fold total correct. do 2 f_equal.
      destruct (decide (correct = total)) as [->|Hd].
      + by rewrite Nat.eqb_refl.
      + by apply Nat.eqb_neq in Hd as ->. }
  split; [by rewrite scoreLoop_spec | split; [exact Hfb | split]].
  - intros Hright.
    assert (E : correct = total) by by apply filter_all_length.
    split; [done|]. rewrite Hfb. simpl. by rewrite decide_True.
  - intros Hwrong.
    assert (E : correct = 0%nat) by by apply filter_none_length.
    split; [done|]. rewrite Hfb. simpl. rewrite decide_False; [done|].
    rewrite E. subst total. destruct (tracks s); [done | simpl; lia].
Qed.

Lemma C6_checkAnswers_report_witness :
  scoreLoop (selectedAnswers guess_all_320) (tracks guess_all_320) 0 0 []
  = (1%nat, report_details (selectedAnswers guess_all_320) (tracks guess_all_320))
  ∧ tone <$> feedback (checkAnswers guess_all_320) = Some error.
Proof.
  assert (Hne : tracks guess_all_320 ≠ []) by discriminate.
  assert (Hall : ∀ track, track ∈ tracks guess_all_320 →
                   unanswered (selectedAnswers guess_all_320) track = false).
  { apply existsb_unanswered_false. reflexivity. }
  destruct (C6_checkAnswers_report guess_all_320 Hne Hall) as (Hloop & Hfb & _).
  split; [exact Hloop | by rewrite Hfb].
Defined.

(** C7: [checkAnswers] answers [EmptyTrackSet] exactly when there are no
    tracks, and [IncompleteAnswers] exactly when there are tracks and one of
    them has no guess; whatever it answers, only the feedback changes: the
    tracks and the answers are as before. *)
Theorem C7_checkAnswers_validation (s : AppState) :
  (feedback (checkAnswers s) = Some EmptyTrackSet ↔ tracks s = [])
  ∧ (feedback (checkAnswers s) = Some IncompleteAnswers ↔
       tracks s ≠ []
       ∧ ∃ track, track ∈ tracks s ∧ unanswered (selectedAnswers s) track = true)
  ∧ tracks (checkAnswers s) = tracks s
  ∧ selectedAnswers (checkAnswers s) = selectedAnswers s
  ∧ ∃ fb, checkAnswers s = setFeedback fb s.
Proof.
  destruct (checkAnswers_cases s) as [[E ->]|[(Hne & Ex & ->)|(Hne & Ex & ->)]];
    (split; [|split; [|split; [done | split; [done | by eexists]]]]); simpl.
  - by split.
  - split; [discriminate | by intros [? _]].
  - split; [discriminate | done].
  - split; [intros _; split; [done | by apply existsb_unanswered_true] | done].
  - split; [|done]. intros H. exfalso. revert H.
    apply report_is_not, EmptyTrackSet_no_digit.
  - split.
    + intros H. exfalso. revert H.
      apply report_is_not, IncompleteAnswers_no_digit.
    + intros (_ & Hex). apply existsb_unanswered_true in Hex. congruence.
Qed.

Lemma C7_checkAnswers_validation_witness :
  feedback (checkAnswers AppState_init) = Some EmptyTrackSet
  ∧ feedback (checkAnswers (set_tracks quiz_tracks AppState_init))
    = Some IncompleteAnswers.
Proof.
  split.
  - by apply (proj1 (C7_checkAnswers_validation AppState_init)).
  - apply (proj1 (proj2 (C7_checkAnswers_validation (set_tracks quiz_tracks AppState_init)))).
    split; [discriminate|]. exists (List.hd (Build_QuizTrack "" original "" "") quiz_tracks).
    split; [left | reflexivity].
Defined.

(** ** Resource ledger *)

Lemma foldl_revoke_issued (l : list string) (u : ObjectURLs) :
  issued (foldl revokeObjectURL u l) = issued u.
Proof. revert u. induction l as [|x l IH]; intros u; simpl; [done | by rewrite IH]. Qed.

Lemma foldl_revoke_revocations (l : list string) (u : ObjectURLs) :
  revocations (foldl revokeObjectURL u l) = (revocations u ++ l)%list.
Proof.
  revert u. induction l as [|x l IH]; intros u; simpl.
  - by rewrite app_nil_r.
  - rewrite IH. simpl. by rewrite <- app_assoc.
Qed.

Lemma foldl_revoke_resolving (l : list string) (u : ObjectURLs) (e : string * Blob) :
  e ∈ resolving (foldl revokeObjectURL u l) ↔ e ∈ resolving u ∧ e.1 ∉ l.
Proof.
  revert u. induction l as [|x l IH]; intros u; simpl.
  - split; [intros H; split; [done | apply not_elem_of_nil] | by intros [H _]].
  - rewrite IH. simpl. rewrite list_elem_of_filter, not_elem_of_cons. tauto.
Qed.

Lemma Set_add_new (x : string) (members : list string) :
  x ∉ members → Set_add x members = (members ++ [x])%list.
Proof. intros H. unfold Set_add. by rewrite decide_False. Qed.

Lemma Set_add_NoDup (x : string) (members : list string) :
  NoDup members → NoDup (Set_add x members).
Proof.
  intros H. unfold Set_add. destruct (decide _); [done|].
  apply NoDup_app. split; [done|]. split.
  - intros y Hy Hx. apply list_elem_of_singleton in Hx. by subst.
  - apply NoDup_singleton.
Qed.

Lemma String_of_N_inj (m n : N) : String_of_N m = String_of_N n → m = n.
Proof.
  unfold String_of_N. intros H.
  assert (E : Some (N.to_uint m) = Some (N.to_uint n)).
  { rewrite <- !NilEmpty.usu. by rewrite H. }
  injection E as E. rewrite <- (DecimalN.Unsigned.of_to m), E.
  apply DecimalN.Unsigned.of_to.
Qed.

Lemma blob_url_inj (m n : N) : blob_url m = blob_url n → m = n.
Proof.
  unfold blob_url. intros H. apply String_of_N_inj.
  by apply (String.app_inj "blob:").
Qed.

Lemma elem_of_issued_urls (u : string) (from : N) (k : nat) :
  u ∈ issued_urls from k ↔ ∃ i, (i < k)%nat ∧ u = blob_url (from + N.of_nat i).
Proof.
  unfold issued_urls. rewrite list_elem_of_fmap. split.
  - intros (i & -> & Hi). apply elem_of_seq in Hi. exists i. split; [lia | done].
  - intros (i & Hi & ->). exists i. split; [done|]. apply elem_of_seq. lia.
Qed.

Lemma issued_urls_NoDup (from : N) (k : nat) : NoDup (issued_urls from k).
Proof.
  unfold issued_urls. apply NoDup_fmap_2_strong; [|apply NoDup_seq].
  intros i j _ _ H. apply blob_url_inj in H. lia.
Qed.

Lemma issued_urls_S (from : N) (k : nat) :
  issued_urls from (S k) = (issued_urls from k ++ [blob_url (from + N.of_nat k)])%list.
Proof. unfold issued_urls. by rewrite seq_S, map_app. Qed.

Lemma length_issued_urls (from : N) (k : nat) : length (issued_urls from k) = k.
Proof. unfold issued_urls. by rewrite length_map, length_seq. Qed.

(** ** The transcoding loop *)

Lemma bind_run {A B} (m : Async A) (k : A → Async B) (s : AppState) :
  (m ≫= k) s = match m s with
               | (Fulfilled a, s') => k a s'
               | (Rejected, s') => (Rejected, s')
               end.
Proof. reflexivity. Qed.

Lemma issued_urls_cons (from : N) (k : nat) :
  issued_urls from (S k) = blob_url from :: issued_urls (from + 1) k.
Proof.
  unfold issued_urls. simpl. rewrite N.add_0_r. f_equal.
  rewrite <- seq_shift, map_map. apply map_ext. intros i. f_equal. lia.
Qed.

Lemma exec_run answer args s ff :
  ffmpegRef s = Some ff →
  ∃ fs c,
    exec answer args s
    = (c, set_ffmpeg (Some {| files := fs;
                              invocations := (invocations ff ++ [args])%list |}) s).
Proof.
  intros Hff. unfold exec. rewrite Hff.
  destruct (answer args) as [|[data|]]; eauto.
Qed.

Lemma readFile_run n s r s' : readFile n s = (r, s') → s' = s.
Proof.
  unfold readFile. destruct (ffmpegRef s) as [ff|]; [|by intros [= _ <-]].
  destruct (files ff !! n); by intros [= _ <-].
Qed.

Lemma with_outputs_0 (ff' : FFmpeg) (s : AppState) :
  with_outputs 0 [] ff' s = set_ffmpeg (Some ff') s.
Proof.
  destruct s as [? ? ? ? ? ? ? ? []]. unfold with_outputs, set_locators, set_ffmpeg.
  simpl. by rewrite N.add_0_r, app_nil_r.
Qed.

(** A rejection stops the loop where it stands. *)
Lemma plans_ran_stop base plan plans acc s ff fs :
  plans_ran base (plan :: plans) acc s ff Rejected
    (set_ffmpeg
       (Some {| files := fs;
                invocations := (invocations ff ++ [plan_args plan])%list |}) s).
Proof.
  eexists 0%nat, _, []. split; [done|]. split; [by rewrite with_outputs_0|].
  split; [simpl; lia | done].
Qed.

Lemma transcodePlans_run env base plans acc s ff r s' :
  ffmpegRef s = Some ff →
  transcodePlans env base plans acc s = (r, s') →
  plans_ran base plans acc s ff r s'.
Proof.
  revert acc s ff. induction plans as [|plan plans IH]; intros acc s ff Hff Hrun.
  - simpl in Hrun. injection Hrun as <- <-.
    exists 0%nat, ff, []. split; [done|]. split.
    + rewrite with_outputs_0. destruct s. simpl in Hff. by subst.
    + by rewrite !app_nil_r.
  - cbn [transcodePlans] in Hrun. rewrite bind_run in Hrun.
    destruct (exec_run (engine env) (plan_args plan) s ff Hff) as (fs & c & Hexec).
    unfold plan_args in Hexec at 1. rewrite Hexec in Hrun. clear Hexec.
    set (ff1 := {| files := fs;
                   invocations := (invocations ff ++ [plan_args plan])%list |}) in *.
    destruct c as [[]|]; [|injection Hrun as <- <-; apply plans_ran_stop].
    rewrite bind_run in Hrun.
    destruct (readFile (outputName plan) (set_ffmpeg (Some ff1) s))
      as [[data|] s1] eqn:Hread;
      apply readFile_run in Hread; subst s1;
      [|injection Hrun as <- <-; apply plans_ran_stop].
    rewrite bind_run in Hrun. unfold newObjectURL at 1 in Hrun.
    cbn [createObjectURL objectURLs set_ffmpeg] in Hrun.
    rewrite bind_run in Hrun. unfold perform at 1 in Hrun.
    eapply (IH _ _ ff1) in Hrun; [|done].
    destruct Hrun as (k & ff' & blobs & Hlen & -> & Hr).
    exists (S k), ff', ({| blob_bytes := data; blob_type := mime plan |} :: blobs).
    split; [simpl; by rewrite Hlen|]. split.
    + unfold with_outputs. rewrite issued_urls_cons. cbn [foldl zip zip_with].
      unfold registerUrl, set_locators, set_ffmpeg. cbn.
      f_equal. f_equal.
      * lia.
      * by rewrite <- app_assoc.
    + cbn in Hr. rewrite issued_urls_cons.
      destruct r as [ts|].
      * destruct Hr as (-> & Hinv & ->). split; [done|]. split.
        -- rewrite Hinv. simpl. by rewrite <- app_assoc.
        -- by rewrite <- app_assoc.
      * destruct Hr as (Hk & Hinv). split; [simpl; lia|].
        rewrite Hinv. simpl. by rewrite <- app_assoc.
Qed.

Lemma handleConvert_unfold (env : ConvertEnv) (s : AppState) ff f :
  ffmpegRef s = Some ff → coreLoaded s = true → file s = Some f →
  handleConvert env s
  = convert_finish env s
      match convertBody env f (sessionId env s) (originalExtension (file s))
              (convert_start s) with
      | (Fulfilled _, s') => s'
      | (Rejected, s') => setFeedback TranscodeFailure s'
      end.
Proof.
  intros Hff Hcore Hfile.
  unfold handleConvert, convert_finish, sessionId. rewrite Hff, Hcore, Hfile.
  reflexivity.
Qed.

Lemma foldl_Set_add_new (members new : list string) :
  NoDup (members ++ new) →
  foldl (λ m u, Set_add u m) members new = (members ++ new)%list.
Proof.
  revert members. induction new as [|u new IH]; intros members Hnd; simpl.
  - by rewrite app_nil_r.
  - rewrite Set_add_new.
    + rewrite IH; rewrite <- app_assoc; done.
    + apply NoDup_app in Hnd as (_ & Hdisj & _). intros Hin.
      apply (Hdisj u Hin). left.
Qed.

Lemma handleConvert_outcome (env : ConvertEnv) (s : AppState) :
  ConvertOutcome env s (handleConvert env s).
Proof.
  destruct (ffmpegRef s) as [ff|] eqn:Hff;
    [|unfold handleConvert; rewrite Hff; constructor; by left].
  destruct (coreLoaded s) eqn:Hcore;
    [|unfold handleConvert; rewrite Hff, Hcore; constructor; by right].
  destruct (file s) as [f|] eqn:Hfile;
    [|unfold handleConvert; rewrite Hff, Hcore, Hfile; by constructor].
  rewrite (handleConvert_unfold env s ff f) by done.
  assert (Hstart : ffmpegRef (convert_start s) = Some ff) by done.
  unfold convertBody. rewrite bind_run. unfold writeFile at 1. rewrite Hstart.
  destruct (upload_ok env) eqn:Hup.
  - rewrite bind_run.
    match goal with |- context [transcodePlans ?e ?b ?p ?a ?s0] =>
      destruct (transcodePlans e b p a s0) as [r s'] eqn:Hrun end.
    eapply transcodePlans_run in Hrun; [|reflexivity].
    destruct Hrun as (k & ff' & blobs & Hlen & -> & Hr).
    change (with_outputs k blobs ff' (set_ffmpeg _ (convert_start s)))
      with (with_outputs k blobs ff' (convert_start s)).
    fold (session_plans env s f) in Hr. cbn [invocations] in Hr.
    destruct r as [ts|].
    + destruct Hr as (-> & Hinv & ->).
      rewrite !bind_run. unfold perform. cbn [app].
      change (objectURLs (set_ffmpeg _ (convert_start s)))
        with (objectURLs (convert_start s)).
      replace (issued (objectURLs (convert_start s))) with (issued (objectURLs s))
        by (symmetry; apply foldl_revoke_issued).
      by eapply Convert_Done.
    + destruct Hr as (Hk & Hinv).
      eapply Convert_Failed; eauto. by rewrite Hinv, fmap_take.
  - replace (convert_start s) with (with_outputs 0 [] ff (convert_start s)).
    + eapply (Convert_Failed env s ff f 0 0 ff []); eauto.
      by rewrite app_nil_r.
    + rewrite with_outputs_0. destruct s. simpl in Hff. by subst.
Qed.

(** The [finally] block touches the engine's files and the [converting]
    flag, nothing else. *)
Lemma convert_finish_frame (env : ConvertEnv) (s x : AppState) :
  tracks (convert_finish env s x) = tracks x
  ∧ selectedAnswers (convert_finish env s x) = selectedAnswers x
  ∧ feedback (convert_finish env s x) = feedback x
  ∧ objectUrlsRef (convert_finish env s x) = objectUrlsRef x
  ∧ objectURLs (convert_finish env s x) = objectURLs x
  ∧ player (convert_finish env s x) = player x
  ∧ file (convert_finish env s x) = file x
  ∧ coreLoaded (convert_finish env s x) = coreLoaded x
  ∧ invocations <$> ffmpegRef (convert_finish env s x) = invocations <$> ffmpegRef x.
Proof.
  unfold convert_finish, cleanupTempFiles.
  destruct (ffmpegRef x) eqn:E; [destruct (listDir_ok env)|]; simpl;
    rewrite ?E; by repeat split.
Qed.

Lemma convert_start_ledger (s : AppState) :
  objectUrlsRef (convert_start s) = []
  ∧ issued (objectURLs (convert_start s)) = issued (objectURLs s)
  ∧ revocations (objectURLs (convert_start s))
    = (revocations (objectURLs s) ++ objectUrlsRef s)%list.
Proof.
  unfold convert_start. simpl.
  by rewrite foldl_revoke_issued, foldl_revoke_revocations.
Qed.

(** After [k] plans of a run went through, the ledger holds exactly their
    [k] URLs, all of them resolve, and the run has revoked nothing of its
    own. *)
Lemma with_outputs_ledger (k : nat) (blobs : list Blob) (ff' : FFmpeg) (s : AppState) :
  length blobs = k →
  let s' := with_outputs k blobs ff' (convert_start s) in
  objectUrlsRef s' = issued_urls (issued (objectURLs s)) k
  ∧ issued (objectURLs s') = (issued (objectURLs s) + N.of_nat k)%N
  ∧ revocations (objectURLs s')
    = (revocations (objectURLs s) ++ objectUrlsRef s)%list
  ∧ (∀ u, u ∈ objectUrlsRef s' → u ∈ (resolving (objectURLs s')).*1)
  ∧ tracks s' = [] ∧ player s' = resetAudioRefs (player s)
  ∧ selectedAnswers s' = selectedAnswers s ∧ ffmpegRef s' = Some ff'.
Proof.
  intros Hlen s'. subst s'.
  destruct (convert_start_ledger s) as (Hm & Hi & Hr).
  unfold with_outputs. cbn [objectUrlsRef objectURLs set_locators issued revocations
    resolving tracks player selectedAnswers ffmpegRef set_ffmpeg].
  rewrite Hm, Hi, Hr.
  rewrite foldl_Set_add_new by apply issued_urls_NoDup. cbn [app].
  repeat split; try done.
  intros u Hu. rewrite fmap_app. apply elem_of_app. right.
  rewrite fst_zip; [done|]. rewrite length_issued_urls. lia.
Qed.

(** ** Shuffle *)

Lemma draw_Permutation {T} (n : nat) (choices : list nat) (items : list T) :
  length items = n → draw n choices items ≡ₚ items.
Proof.
  revert choices items. induction n as [|n IH]; intros choices items Hlen.
  - destruct items; [done | discriminate].
  - cbn [draw].
    set (i := (default 0%nat (head choices) mod length items)%nat).
    assert (Hi : (i < length items)%nat).
    { subst i. apply Nat.mod_upper_bound. lia. }
    destruct (lookup_lt_is_Some_2 items i Hi) as [x Hx]. rewrite Hx.
    etrans; [|symmetry; apply (delete_Permutation items i x Hx)].
    constructor. apply IH. rewrite length_delete by eauto. lia.
Qed.

Lemma shuffle_Permutation {T} (choices : list nat) (items : list T) :
  shuffle choices items ≡ₚ items.
Proof. by apply draw_Permutation. Qed.

(** ** C5: the checks of [handleConvert] *)

(** C5: when the engine is not ready the call answers [NotReady], and when
    it is ready but no file is chosen it answers [NoInput]; in both cases
    the feedback is all that changes: the engine (its files and its
    invocations), the ledger and the browser's URL table are as before. *)
Theorem C5_convert_fails_fast (env : ConvertEnv) (s : AppState) :
  ffmpegRef s = None ∨ coreLoaded s = false ∨ file s = None →
  let s' := handleConvert env s in
  let failure :=
    if decide (ffmpegRef s = None ∨ coreLoaded s = false) then NotReady else NoInput in
  s' = setFeedback failure s
  ∧ feedback s' = Some failure
  ∧ ffmpegRef s' = ffmpegRef s
  ∧ objectUrlsRef s' = objectUrlsRef s
  ∧ objectURLs s' = objectURLs s
  ∧ tracks s' = tracks s.
Proof.
  intros H s' failure.
  assert (E : s' = setFeedback failure s).
  { subst s' failure. unfold handleConvert.
    destruct (ffmpegRef s) as [ff|] eqn:Hff.
    - destruct (coreLoaded s) eqn:Hcore; cbn [negb].
      + rewrite decide_False by (intros [?|?]; done).
        destruct H as [H|[H|H]]; [done | done | by rewrite H].
      + by rewrite decide_True by by right.
    - by rewrite decide_True by by left. }
  by rewrite E.
Qed.

Lemma C5_convert_fails_fast_witness :
  handleConvert all_ok AppState_init = setFeedback NotReady AppState_init
  ∧ handleConvert all_ok (run [Mounted; CoreLoad true])
    = setFeedback NoInput (run [Mounted; CoreLoad true]).
Proof.
  split.
  - apply (C5_convert_fails_fast all_ok AppState_init). by left.
  - apply (C5_convert_fails_fast all_ok (run [Mounted; CoreLoad true])).
    right. by right.
Defined.

Lemma prepared_tracks_eq env s f :
  ∃ t1 t2 t3, prepared_tracks env s f = [t1; t2; t3]
    ∧ quality t1 = mp3_128 ∧ quality t2 = mp3_320 ∧ quality t3 = original
    ∧ Forall (λ track, id track = sessionId env s +:+ "-" +:+ quality_string (quality track)
                       ∧ url track ∈ issued_urls (issued (objectURLs s)) 3) [t1; t2; t3].
Proof.
  unfold prepared_tracks, session_plans, outputPlans. cbn [zip_with issued_urls seq map].
  do 3 eexists. split; [reflexivity|]. repeat split; try reflexivity.
  repeat constructor; cbn; set_solver.
Qed.

(** ** C4: the track set of a successful run *)

(** C4: when [handleConvert] reports success, the track set has three
    tracks, their qualities are [mp3_128], [mp3_320] and [original] in some
    order, so each quality is the quality of exactly one track, every
    track's id is the session identifier, a dash and the track's quality,
    and every track's URL is registered in the ledger. *)
Theorem C4_convert_track_set (env : ConvertEnv) (s : AppState) :
  tone <$> feedback (handleConvert env s) = Some success →
  let s' := handleConvert env s in
  length (tracks s') = 3%nat
  ∧ quality <$> tracks s' ≡ₚ [mp3_128; mp3_320; original]
  ∧ (∀ q, length (filter (λ track, quality track = q) (tracks s')) = 1%nat)
  ∧ (∀ track, track ∈ tracks s' →
       id track = sessionId env s +:+ "-" +:+ quality_string (quality track))
  ∧ (∀ track, track ∈ tracks s' → url track ∈ objectUrlsRef s').
Proof.
  intros Hok s'. subst s'.
  outcome_cases (handleConvert_outcome env s).
  1-3: try (destruct (convert_finish_frame env s
      (setFeedback TranscodeFailure (with_outputs k blobs ff' (convert_start s))))
      as (_ & _ & Hfb & _); rewrite Hfb in Hok); by simpl in Hok.
  clear Hok.
  match goal with |- context [convert_finish env s ?x] =>
    destruct (convert_finish_frame env s x) as (-> & _ & _ & -> & _) end.
  cbn [tracks set_tracks setFeedback setSelectedAnswers objectUrlsRef].
  destruct (with_outputs_ledger 3 blobs ff' s Hlen) as (-> & _).
  assert (Hperm : shuffled_tracks env s f ≡ₚ prepared_tracks env s f)
    by apply shuffle_Permutation.
  destruct (prepared_tracks_eq env s f) as (t1 & t2 & t3 & Heq & Hq1 & Hq2 & Hq3 & Hall).
  rewrite Heq in Hperm.
  split; [by rewrite Hperm|]. split; [by rewrite Hperm; simpl; rewrite Hq1, Hq2, Hq3|].
  split.
  - intros q. rewrite Hperm. rewrite !filter_cons, filter_nil, Hq1, Hq2, Hq3.
    by destruct q.
  - rewrite Forall_forall in Hall. setoid_rewrite Hperm. split; intros; by apply Hall.
Qed.

Lemma C4_convert_track_set_witness :
  quality <$> tracks (handleConvert all_ok ready_state)
  ≡ₚ [mp3_128; mp3_320; original].
Proof.
  apply (C4_convert_track_set all_ok ready_state). reflexivity.
Defined.

(** ** C1: a run that fails part way *)

(** C1, as stated, fails: when the engine rejects the second plan, the run
    reports [TranscodeFailure] and shows no track, but the URL made for the
    first plan is still a member of [objectUrlsRef], still resolves, and
    was not revoked. *)
Lemma C1_partial_failure_counterexample :
  let s' := handleConvert second_fails ready_state in
  feedback s' = Some TranscodeFailure
  ∧ tracks s' = []
  ∧ objectUrlsRef s' = ["blob:0"]
  ∧ revocations (objectURLs s') = []
  ∧ (resolving (objectURLs s')).*1 = ["blob:0"]
  ∧ ¬ (objectUrlsRef s' = [] ∧ "blob:0" ∈ revocations (objectURLs s')).
Proof.
  cbv zeta. repeat split; try reflexivity. intros [H _]. discriminate H.
Qed.

Lemma NoDup_prefixed (pre : string) (xs : list string) :
  NoDup xs → NoDup (String.append pre <$> xs).
Proof.
  apply NoDup_fmap_2_strong. intros x y _ _ H. by apply (String.app_inj pre).
Qed.

Lemma suffixes_distinct (extension : string) :
  NoDup ["_input." +:+ extension; "_128.mp3"; "_320.mp3"; "_original." +:+ extension].
Proof.
  change ("_input." +:+ extension) with (String "_" (String "i" ("nput." +:+ extension))).
  change ("_original." +:+ extension)
    with (String "_" (String "o" ("riginal." +:+ extension))).
  repeat (apply NoDup_cons; split); [..|apply NoDup_nil_2];
    rewrite ?elem_of_cons, ?elem_of_nil; intros H; decompose [or] H; done.
Qed.

Lemma plans_through_ext env fs fs' plans :
  (∀ plan, plan ∈ plans → fs' !! outputName plan = fs !! outputName plan) →
  plans_through env fs' plans = plans_through env fs plans.
Proof.
  induction plans as [|plan plans IH]; intros Hext; [done|]. cbn [plans_through].
  rewrite IH by (intros p Hp; apply Hext; by right).
  unfold plan_goes_through. rewrite (Hext plan) by left. done.
Qed.

(** The count stops short exactly when some plan does not go through. *)
Lemma plans_through_lt env fs plans :
  (plans_through env fs plans < length plans)%nat
  ↔ ∃ plan, plan ∈ plans ∧ plan_goes_through env fs plan = false.
Proof.
  induction plans as [|plan plans IH]; cbn [plans_through length].
  - split; [lia|]. intros (plan & Hin & _). by apply elem_of_nil in Hin.
  - destruct (plan_goes_through env fs plan) eqn:Hplan.
    + split.
      * intros Hlt. destruct (proj1 IH) as (p & Hp & Hno); [lia|].
        exists p. split; [by right | done].
      * intros (p & Hp & Hno). apply elem_of_cons in Hp as [->|Hp]; [congruence|].
        assert (plans_through env fs plans < length plans)%nat; [|lia].
        apply IH. by exists p.
    + split; [|lia]. intros _. exists plan. split; [left | done].
Qed.

(** One call of [exec] for a plan: what it leaves in the engine's files. *)
Lemma exec_files env plan s ff :
  ffmpegRef s = Some ff →
  ∃ c ff1,
    exec (engine env) (command plan ++ [outputName plan]) s
    = (c, set_ffmpeg (Some ff1) s)
    ∧ (∀ n, n ≠ outputName plan → files ff1 !! n = files ff !! n)
    ∧ plan_goes_through env (files ff) plan
      = match c with
        | Fulfilled _ => bool_decide (is_Some (files ff1 !! outputName plan))
        | Rejected => false
        end.
Proof.
  intros Hff. unfold exec, plan_goes_through. rewrite Hff. fold (plan_args plan).
  destruct (engine env (plan_args plan)) as [|[data|]] eqn:Heng;
    do 2 eexists; (split; [reflexivity|]); cbn [files]; split; try done.
  - intros n Hn. unfold plan_args. rewrite last_snoc. cbn [default].
    by rewrite lookup_insert_ne.
  - unfold plan_args. rewrite last_snoc. cbn [default].
    rewrite lookup_insert_eq. symmetry. apply bool_decide_eq_true. by eexists.
Qed.

(** The loop issues one URL for every plan that goes through, up to the
    first plan that does not. *)
Lemma transcodePlans_through env base plans acc s ff r s' :
  ffmpegRef s = Some ff →
  NoDup (outputName <$> plans) →
  transcodePlans env base plans acc s = (r, s') →
  issued (objectURLs s')
  = (issued (objectURLs s) + N.of_nat (plans_through env (files ff) plans))%N.
Proof.
  revert acc s ff. induction plans as [|plan plans IH]; intros acc s ff Hff Hnd Hrun.
  - simpl in Hrun. injection Hrun as <- <-. simpl. lia.
  - cbn [fmap list_fmap] in Hnd. apply NoDup_cons in Hnd as [Hnot Hnd].
    cbn [transcodePlans] in Hrun. rewrite bind_run in Hrun.
    destruct (exec_files env plan s ff Hff) as (c & ff1 & Hexec & Hkeep & Hthrough).
    rewrite Hexec in Hrun. clear Hexec. cbn [plans_through]. rewrite Hthrough.
    destruct c as [[]|]; [|injection Hrun as <- <-; simpl; lia].
    rewrite bind_run in Hrun. unfold readFile at 1 in Hrun.
    cbn [ffmpegRef set_ffmpeg] in Hrun.
    destruct (files ff1 !! outputName plan) as [data|] eqn:Hread.
    + rewrite bool_decide_eq_true_2 by by eexists.
      rewrite bind_run in Hrun. unfold newObjectURL at 1 in Hrun.
      cbn [createObjectURL objectURLs set_ffmpeg] in Hrun.
      rewrite bind_run in Hrun. unfold perform at 1 in Hrun.
      eapply (IH _ _ ff1) in Hrun; [|done|done].
      rewrite Hrun. cbn [objectURLs registerUrl set_locators issued].
      rewrite (plans_through_ext env (files ff) (files ff1)).
      * lia.
      * intros p Hp. apply Hkeep. intros Heq. apply Hnot. rewrite <- Heq.
        apply list_elem_of_fmap. by exists p.
    + rewrite bool_decide_eq_false_2 by (intros [x Hx]; congruence).
      injection Hrun as <- <-. simpl. lia.
Qed.

Lemma session_names_NoDup env s f :
  NoDup ((sessionId env s +:+ "_input." +:+ originalExtension (file s))
         :: (outputName <$> session_plans env s f)).
Proof.
  exact (NoDup_prefixed (sessionId env s) _ (suffixes_distinct (originalExtension (file s)))).
Qed.

(** A run that passed its checks issues one URL for every plan that went
    through. *)
Lemma handleConvert_issued env s ff f :
  ffmpegRef s = Some ff → coreLoaded s = true → file s = Some f →
  issued (objectURLs (handleConvert env s))
  = (issued (objectURLs s)
     + N.of_nat (if upload_ok env
                 then plans_through env (files ff) (session_plans env s f)
                 else 0%nat))%N.
Proof.
  intros Hff Hcore Hfile.
  rewrite (handleConvert_unfold env s ff f) by done.
  match goal with |- context [convert_finish env s ?x] =>
    destruct (convert_finish_frame env s x) as (_ & _ & _ & _ & -> & _) end.
  assert (Hstart : ffmpegRef (convert_start s) = Some ff) by done.
  assert (Hiss : issued (objectURLs (convert_start s)) = issued (objectURLs s))
    by apply convert_start_ledger.
  unfold convertBody. rewrite bind_run. unfold writeFile at 1. rewrite Hstart.
  destruct (upload_ok env) eqn:Hup.
  - rewrite bind_run.
    match goal with |- context [transcodePlans ?e ?b ?p ?a ?s0] =>
      destruct (transcodePlans e b p a s0) as [r s'] eqn:Hrun end.
    fold (session_plans env s f) in Hrun.
    pose proof (session_names_NoDup env s f) as Hnd.
    apply NoDup_cons in Hnd as [Hinput Hnd].
    eapply transcodePlans_through in Hrun; [|reflexivity|done].
    cbn [files objectURLs set_ffmpeg] in Hrun. rewrite Hiss in Hrun.
    rewrite (plans_through_ext env (files ff)) in Hrun.
    + destruct r as [ts|]; [|exact Hrun].
      rewrite !bind_run. unfold perform. exact Hrun.
    + intros p Hp. apply lookup_insert_ne. intros Heq. apply Hinput.
      apply list_elem_of_fmap. exists p. split; [exact Heq | done].
  - cbn [objectURLs setFeedback]. rewrite Hiss. lia.
Qed.

(** C1, amended: a run that passed its checks fails when a step of it
    fails: the upload is refused, or for one of the three plans [exec]
    rejects, or it resolves without an output that [readFile] could find.
    Exactly then the run reports [TranscodeFailure]. The failing run went
    through the [k] plans before the first failing one, [k < 3], and called
    [exec] for no plan after that one; it shows no track; the [k] URLs it
    made stay registered in the ledger, in order, each still resolving; the
    only revocations of the run are those of the previous session's URLs,
    made before the first plan; the next [revokeTrackUrls] revokes the [k]
    URLs and empties the ledger. *)
Theorem C1_convert_failure (env : ConvertEnv) (s : AppState)
    (held : FFmpeg) (upload : File) :
  ffmpegRef s = Some held → coreLoaded s = true → file s = Some upload →
  let s' := handleConvert env s in
  let plans := session_plans env s upload in
  let k := if upload_ok env then plans_through env (files held) plans else 0%nat in
  let j := if upload_ok env then S k else 0%nat in
  let a_step_fails :=
    upload_ok env = false
    ∨ ∃ plan, plan ∈ plans ∧ plan_goes_through env (files held) plan = false in
  (a_step_fails ↔ feedback s' = Some TranscodeFailure)
  ∧ (a_step_fails →
       (k < 3)%nat
       ∧ feedback s' = Some TranscodeFailure
       ∧ tracks s' = []
       ∧ (∃ ff', ffmpegRef s' = Some ff'
            ∧ invocations ff'
              = (invocations held ++ take j (plan_args <$> plans))%list)
       ∧ objectUrlsRef s' = issued_urls (issued (objectURLs s)) k
       ∧ (∀ u, u ∈ objectUrlsRef s' → u ∈ (resolving (objectURLs s')).*1)
       ∧ revocations (objectURLs s')
         = (revocations (objectURLs s) ++ objectUrlsRef s)%list
       ∧ objectUrlsRef (revokeTrackUrls s') = []
       ∧ revocations (objectURLs (revokeTrackUrls s'))
         = (revocations (objectURLs s') ++ objectUrlsRef s')%list).
Proof.
  intros Hheld Hloaded Hupload s' plans kk jj a_step_fails.
  pose proof (handleConvert_issued env s held upload Hheld Hloaded Hupload) as Hcount.
  fold s' plans kk in Hcount.
  assert (Hfails : a_step_fails ↔ upload_ok env = false ∨ (kk < 3)%nat).
  { subst a_step_fails kk. destruct (upload_ok env).
    - rewrite <- plans_through_lt. change (length plans) with 3%nat.
      split; (intros [?|?]; [done | by right]).
    - split; intros _; by left. }
  assert (Hrun : (upload_ok env = false ∨ (kk < 3)%nat →
      feedback s' = Some TranscodeFailure
      ∧ tracks s' = []
      ∧ (∃ ff', ffmpegRef s' = Some ff'
           ∧ invocations ff'
             = (invocations held ++ take jj (plan_args <$> plans))%list)
      ∧ objectUrlsRef s' = issued_urls (issued (objectURLs s)) kk
      ∧ (∀ u, u ∈ objectUrlsRef s' → u ∈ (resolving (objectURLs s')).*1)
      ∧ revocations (objectURLs s')
        = (revocations (objectURLs s) ++ objectUrlsRef s)%list)
    ∧ (feedback s' = Some TranscodeFailure → upload_ok env = false ∨ (kk < 3)%nat)).
  { subst s'. outcome_cases (handleConvert_outcome env s).
    - destruct Hnr; congruence.
    - congruence.
    - match goal with |- context [convert_finish env s ?x] =>
        destruct (convert_finish_frame env s x)
          as (Ht & _ & Hfb & Hm & Hu & _ & _ & _ & Hi);
        set (s' := convert_finish env s x) in * end.
      cbn [tracks objectUrlsRef objectURLs ffmpegRef feedback setFeedback]
        in Ht, Hfb, Hm, Hu, Hi.
      destruct (with_outputs_ledger k blobs ff' s Hlen)
        as (Em & Ei & Er & Eres & Et & _ & _ & Ef).
      cbv zeta in Em, Ei, Er, Eres, Et, Ef.
      assert (Hk0 : k = kk) by (rewrite Hu, Ei in Hcount; lia).
      assert (Hj0 : j = jj).
      { subst jj. destruct Hj as [(Hno & _ & ->)|[Hyes ->]];
          [by rewrite Hno | rewrite Hyes; congruence]. }
      rewrite Hk0 in Em. rewrite Hj0 in Hinv.
      assert (f = upload) as -> by congruence.
      assert (ff = held) as -> by congruence.
      split; [|intros _; right; lia]. intros _.
      split; [done|]. split; [congruence|]. split.
      + rewrite Ef in Hi. destruct (ffmpegRef s') as [ff2|]; [|done].
        injection Hi as Hi. exists ff2. split; [done | by rewrite Hi, Hinv].
      + split; [congruence|]. split; [|congruence].
        rewrite Hm, Hu. exact Eres.
    - match goal with |- context [convert_finish env s ?x] =>
        destruct (convert_finish_frame env s x)
          as (_ & _ & Hfb & _ & Hu & _);
        set (s' := convert_finish env s x) in * end.
      cbn [objectURLs feedback setFeedback setSelectedAnswers set_tracks] in Hfb, Hu.
      destruct (with_outputs_ledger 3 blobs ff' s Hlen) as (_ & Ei & _).
      cbv zeta in Ei.
      assert (Hk3 : kk = 3%nat) by (rewrite Hu, Ei in Hcount; lia).
      assert (Hup : upload_ok env = true).
      { subst kk. destruct (upload_ok env); [done | discriminate Hk3]. }
      split.
      + intros [Hno|Hlt]; [congruence | lia].
      + rewrite Hfb. intros [=]. }
  destruct Hrun as [Hfail Hback].
  split.
  - rewrite Hfails. split; [by intros H; apply Hfail | exact Hback].
  - intros Hstep. apply Hfails in Hstep.
    destruct (Hfail Hstep) as (Hfb & Ht & Hinv & Hm & Hres & Hrev).
    assert (Hk : (kk < 3)%nat).
    { destruct Hstep as [Hno|Hlt]; [|done]. subst kk. rewrite Hno. lia. }
    repeat split; try done.
    unfold revokeTrackUrls. simpl. by rewrite foldl_revoke_revocations.
Qed.

Lemma C1_convert_failure_witness :
  feedback (handleConvert second_fails ready_state) = Some TranscodeFailure
  ∧ tracks (handleConvert second_fails ready_state) = []
  ∧ objectUrlsRef (handleConvert second_fails ready_state) = [blob_url 0].
Proof.
  destruct (C1_convert_failure second_fails ready_state FFmpeg_new song
              eq_refl eq_refl eq_refl) as [_ Hfail].
  destruct Hfail as (_ & Hfb & Ht & _ & Hm & _).
  - right. eexists. split; [right; left | reflexivity].
  - split; [exact Hfb|]. split; [exact Ht | exact Hm].
Defined.

(** ** Audio elements *)

Lemma obj_get_elem_of {V} (k : string) (v : V) (o : list (string * V)) :
  obj_get k o = Some v → (k, v) ∈ o.
Proof.
  induction o as [|[k' v'] o IH]; simpl; [done|].
  destruct (decide (k' = k)) as [->|Hne].
  - intros [= ->]. left.
  - intros H. right. by apply IH.
Qed.

Lemma obj_get_set {V} (k k' : string) (v : V) (o : list (string * V)) :
  obj_get k' (obj_set k v o) = if decide (k = k') then Some v else obj_get k' o.
Proof.
  induction o as [|[k0 v0] o IH]; simpl.
  - destruct (decide (k = k')); done.
  - destruct (decide (k0 = k)) as [->|Hne]; simpl.
    + destruct (decide (k = k')); done.
    + destruct (decide (k0 = k')) as [->|Hne'].
      * by rewrite decide_False.
      * apply IH.
Qed.

Lemma obj_get_delete {V} (k k' : string) (o : list (string * V)) :
  obj_get k' (obj_delete k o) = if decide (k = k') then None else obj_get k' o.
Proof.
  unfold obj_delete. induction o as [|[k0 v0] o IH]; simpl.
  - by destruct (decide (k = k')).
  - rewrite filter_cons. simpl. destruct (decide (k0 ≠ k)) as [Hne|Heq]; simpl.
    + destruct (decide (k0 = k')) as [->|Hne'].
      * by rewrite decide_False.
      * apply IH.
    + apply dec_stable in Heq. subst k0. rewrite IH.
      destruct (decide (k = k')); done.
Qed.

Lemma calmer_refl a : calmer a a.
Proof. split; auto. Qed.

Lemma calmer_trans a b c : calmer a b → calmer b c → calmer a c.
Proof.
  intros [H1 H2] [H3 H4]. split; [auto|].
  destruct H4 as [->| ->]; auto.
Qed.

Lemma quieter_refl els : quieter els els.
Proof.
  split; [done|]. intros e a a' H1 H2. rewrite H1 in H2. injection H2 as <-.
  split; [apply calmer_refl | done].
Qed.

Lemma quieter_trans els1 els2 els3 :
  quieter els1 els2 → quieter els2 els3 → quieter els1 els3.
Proof.
  intros [L1 H1] [L2 H2]. split; [congruence|].
  intros e a a' Ha Ha'.
  destruct (lookup_lt_is_Some_2 els2 e) as [b Hb].
  { rewrite L1. by eapply lookup_lt_Some. }
  destruct (H1 e a b Ha Hb) as [C1 [S1 S1']].
  destruct (H2 e b a' Hb Ha') as [C2 [S2 S2']].
  split; [by eapply calmer_trans | split; congruence].
Qed.

Lemma quieter_alter (f : HTMLAudioElement → HTMLAudioElement) e els :
  (∀ a, calmer a (f a) ∧ same_listeners a (f a)) → quieter els (alter f e els).
Proof.
  intros Hf. split; [apply length_alter|].
  intros e' a a' Ha Ha'. destruct (decide (e = e')) as [->|Hne].
  - rewrite list_lookup_alter_eq, Ha in Ha'. injection Ha' as <-. apply Hf.
  - rewrite list_lookup_alter_ne, Ha in Ha' by done. injection Ha' as <-.
    split; [apply calmer_refl | done].
Qed.

Lemma quieter_halt e els : quieter els (halt e els).
Proof.
  unfold halt. eapply quieter_trans; apply quieter_alter; intros a;
    (split; [split|split]); simpl; auto.
Qed.

Lemma halt_lookup e els :
  halt e els !! e = (λ a, el_seek 0 (el_pause a)) <$> els !! e.
Proof.
  unfold halt. rewrite !list_lookup_alter_eq. by destruct (els !! e).
Qed.

Lemma halt_lookup_ne e e' els : e ≠ e' → halt e els !! e' = els !! e'.
Proof. intros H. unfold halt. by rewrite !list_lookup_alter_ne. Qed.

(** Being paused at the start survives every calmer change. *)
#[local] Hint Resolve calmer_refl quieter_refl quieter_halt : quiz.

Lemma quieter_keeps_halted els els' e a' :
  quieter els els' →
  (∃ a, els !! e = Some a ∧ paused a = true ∧ currentTime a = 0%Q) →
  els' !! e = Some a' → paused a' = true ∧ currentTime a' = 0%Q.
Proof.
  intros [_ H] (a & Ha & Hp & Ht) Ha'.
  destruct (H e a a' Ha Ha') as [[C1 C2] _].
  split; [auto|]. destruct C2; congruence.
Qed.

Lemma cap_positive : (0 < cap)%Q.
Proof. reflexivity. Qed.

Lemma calmer_within_cap a a' : calmer a a' → within_cap a → within_cap a'.
Proof.
  unfold within_cap. intros [Hp Ht] [H|H]; [left; auto|].
  destruct Ht as [->| ->]; right; [done | apply cap_positive].
Qed.

Lemma halt_and_unlisten_spec limits endeds els k e :
  let els' := halt_and_unlisten limits endeds els (k, e) in
  length els' = length els
  ∧ (∀ e', e' ≠ e → els' !! e' = els !! e')
  ∧ (∀ a, els !! e = Some a →
       ∃ a', els' !! e = Some a' ∧ paused a' = true ∧ currentTime a' = 0%Q).
Proof.
  unfold halt_and_unlisten.
  destruct (limits !! k) as [h1|]; destruct (endeds !! k) as [h2|];
    (split; [by rewrite ?length_alter; unfold halt; rewrite ?length_alter|]);
    (split; [intros e' Hne; by rewrite ?list_lookup_alter_ne, ?halt_lookup_ne by done|]);
    intros a Ha; rewrite ?list_lookup_alter_eq, halt_lookup, Ha; simpl; eauto.
Qed.

(** The loop of [resetAudioRefs]: every element is calmer afterwards, and
    every element of the entries is paused at the start. *)
Lemma halt_and_unlisten_loop limits endeds entries els :
  let els' := foldl (halt_and_unlisten limits endeds) els entries in
  length els' = length els
  ∧ (∀ e a a', els !! e = Some a → els' !! e = Some a' → calmer a a')
  ∧ (∀ k e a', (k, e) ∈ entries → els' !! e = Some a' →
       paused a' = true ∧ currentTime a' = 0%Q).
Proof.
  revert els. induction entries as [|[k e] entries IH]; intros els; cbn [foldl].
  - split; [done|]. split.
    + intros e a a' H1 H2. rewrite H1 in H2. injection H2 as <-. apply calmer_refl.
    + intros k e a' H. by apply elem_of_nil in H.
  - destruct (IH (halt_and_unlisten limits endeds els (k, e))) as (L & C & Hd).
    destruct (halt_and_unlisten_spec limits endeds els k e) as (L1 & O1 & H1).
    split; [congruence|]. split.
    + intros e0 a a' Ha Ha'.
      destruct (decide (e0 = e)) as [->|Hne].
      * destruct (H1 a Ha) as (a1 & Ha1 & Hp & Ht).
        eapply calmer_trans; [|by eapply C]. split; auto.
      * eapply C; [|done]. by rewrite O1.
    + intros k0 e0 a' Hin Ha'. apply elem_of_cons in Hin as [[= -> ->]|Hin].
      * destruct (lookup_lt_is_Some_2 els e) as [a Ha].
        { rewrite <- L1, <- L. by eapply lookup_lt_Some. }
        destruct (H1 a Ha) as (a1 & Ha1 & Hp & Ht).
        destruct (C e a1 a' Ha1 Ha') as [C1 C2].
        split; [auto|]. destruct C2; congruence.
      * by eapply Hd.
Qed.

(** The loop of [handlePlay]. *)
Lemma halt_others_loop trackId isSame entries els :
  let els' := foldl (halt_others trackId isSame) els entries in
  quieter els els'
  ∧ (∀ k e a', (k, e) ∈ entries → k ≠ trackId ∨ isSame = true →
       els' !! e = Some a' → paused a' = true ∧ currentTime a' = 0%Q).
Proof.
  revert els. induction entries as [|[k e] entries IH]; intros els; cbn [foldl].
  - split; [apply quieter_refl|]. intros k e a' H. by apply elem_of_nil in H.
  - destruct (IH (halt_others trackId isSame els (k, e))) as (Hq & Hd).
    assert (Hq1 : quieter els (halt_others trackId isSame els (k, e))).
    { unfold halt_others. destruct (_ || _); [apply quieter_halt | apply quieter_refl]. }
    split; [by eapply quieter_trans|].
    intros k0 e0 a' Hin Hcond Ha'. apply elem_of_cons in Hin as [[= -> ->]|Hin].
    + eapply quieter_keeps_halted; [exact Hq | | exact Ha'].
      unfold halt_others.
      assert (Hc : negb (bool_decide (k = trackId)) || isSame = true).
      { destruct Hcond as [Hne| ->]; [|apply orb_true_r].
        by rewrite bool_decide_eq_false_2. }
      rewrite Hc. rewrite halt_lookup.
      destruct (lookup_lt_is_Some_2 els e) as [a Ha].
      { destruct Hq as [L _], Hq1 as [L1 _]. rewrite <- L1, <- L.
        by eapply lookup_lt_Some. }
      rewrite Ha. simpl. eauto.
    + by eapply Hd.
Qed.

(** The invariant survives every change that only calms elements or moves
    a position below the cap. *)
Lemma Player_ok_tamer (p p' : Player) :
  Player_ok p →
  audioRefs p' = audioRefs p →
  length (elements p') = length (elements p) →
  (∀ e a a', elements p !! e = Some a → elements p' !! e = Some a' →
     (paused a = true → paused a' = true) ∧ same_listeners a a' ∧ within_cap a') →
  Player_ok p'.
Proof.
  intros [Hl Hi Hh Hs Hc] Hrefs Hlen Hrel.
  assert (Hback : ∀ e, unpaused p' e → unpaused p e).
  { intros e (a' & Ha' & Hp').
    destruct (lookup_lt_is_Some_2 (elements p) e) as [a Ha].
    { rewrite <- Hlen. by eapply lookup_lt_Some. }
    exists a. split; [done|]. destruct (Hrel e a a' Ha Ha') as (Hp & _).
    destruct (paused a); [|done]. rewrite Hp in Hp'; done. }
  split; rewrite ?Hrefs.
  - intros k e Hk. destruct (Hl k e Hk) as (a & Ha & Ht & He).
    destruct (lookup_lt_is_Some_2 (elements p') e) as [a' Ha'].
    { rewrite Hlen. by eapply lookup_lt_Some. }
    exists a'. split; [done|].
    destruct (Hrel e a a' Ha Ha') as (_ & [S1 S2] & _). split; congruence.
  - exact Hi.
  - intros e He. by apply Hh, Hback.
  - intros e1 e2 H1 H2. apply Hs; by apply Hback.
  - intros e a' Ha'.
    destruct (lookup_lt_is_Some_2 (elements p) e) as [a Ha].
    { rewrite <- Hlen. by eapply lookup_lt_Some. }
    by destruct (Hrel e a a' Ha Ha') as (_ & _ & ?).
Qed.

Lemma Player_ok_quieter (p p' : Player) :
  Player_ok p →
  audioRefs p' = audioRefs p →
  quieter (elements p) (elements p') →
  Player_ok p'.
Proof.
  intros Hok Hrefs [Hlen Hq]. apply (Player_ok_tamer p p' Hok Hrefs Hlen).
  intros e a a' Ha Ha'. destruct (Hq e a a' Ha Ha') as [Hc Hsl].
  split; [apply Hc|]. split; [done|].
  eapply calmer_within_cap; [done|]. by eapply ok_capped.
Qed.

Lemma Player_init_ok : Player_ok Player_init.
Proof.
  split; simpl; try done.
  - by intros e (a & Ha & _).
  - by intros e1 e2 (a & Ha & _).
Qed.

(** Starting the target when nothing else plays. *)
Lemma Player_ok_start (p : Player) (allowed : bool) (trackId : string) (target : nat) :
  Player_ok p →
  obj_get trackId (audioRefs p) = Some target →
  (∀ e, unpaused p e → e = target) →
  Player_ok
    (with_elements
       (alter (el_play allowed) target (alter (el_seek 0) target (elements p)))
       (with_playing (Some trackId) p)).
Proof.
  intros [Hl Hi Hh Hs Hc] Ht Honly.
  assert (Hlook : ∀ e,
    alter (el_play allowed) target (alter (el_seek 0) target (elements p)) !! e
    = if decide (e = target)
      then (λ a, el_play allowed (el_seek 0 a)) <$> elements p !! e
      else elements p !! e).
  { intros e. destruct (decide (e = target)) as [->|Hne].
    - rewrite !list_lookup_alter_eq. by destruct (elements p !! target).
    - by rewrite !list_lookup_alter_ne. }
  assert (Hback : ∀ e, e ≠ target →
    unpaused (with_elements
       (alter (el_play allowed) target (alter (el_seek 0) target (elements p)))
       (with_playing (Some trackId) p)) e → unpaused p e).
  { intros e Hne (a & Ha & Hp). simpl in Ha. rewrite Hlook, decide_False in Ha by done.
    by exists a. }
  split; simpl.
  - intros k e Hk. destruct (Hl k e Hk) as (a & Ha & H1 & H2).
    rewrite Hlook. destruct (decide (e = target)) as [->|Hne].
    + rewrite Ha. simpl. eauto.
    + eauto.
  - exact Hi.
  - intros e He. destruct (decide (e = target)) as [->|Hne]; [eauto|].
    apply Hh. by apply Hback.
  - intros e1 e2 H1 H2.
    assert (E1 : e1 = target).
    { destruct (decide (e1 = target)); [done|]. by apply Honly, Hback. }
    assert (E2 : e2 = target).
    { destruct (decide (e2 = target)); [done|]. by apply Honly, Hback. }
    congruence.
  - intros e a Ha. rewrite Hlook in Ha. destruct (decide (e = target)) as [->|Hne].
    + destruct (elements p !! target) as [a0|]; [|done]. injection Ha as <-.
      right. apply cap_positive.
    + by eapply Hc.
Qed.

Lemma handlePlay_audioRefs allowed trackId p :
  audioRefs (handlePlay allowed trackId p) = audioRefs p.
Proof.
  unfold handlePlay. destruct (obj_get _ _); [|done]. by destruct (bool_decide _).
Qed.

Lemma forget_playing_elements k p : elements (forget_playing k p) = elements p.
Proof. unfold forget_playing. by destruct (decide _). Qed.

Lemma forget_playing_audioRefs k p : audioRefs (forget_playing k p) = audioRefs p.
Proof. unfold forget_playing. by destruct (decide _). Qed.

Lemma limitHandler_quieter h p :
  audioRefs (limitHandler h p) = audioRefs p
  ∧ quieter (elements p) (elements (limitHandler h p)).
Proof.
  unfold limitHandler. destruct (elements p !! closure_instance h) as [a|];
    [|split; auto with quiz].
  destruct (limit_reached a); [|split; auto with quiz].
  rewrite forget_playing_audioRefs, forget_playing_elements. simpl.
  split; auto with quiz.
Qed.

Lemma endedHandler_quieter h p :
  audioRefs (endedHandler h p) = audioRefs p
  ∧ quieter (elements p) (elements (endedHandler h p)).
Proof.
  unfold endedHandler. rewrite forget_playing_audioRefs, forget_playing_elements.
  simpl. split; [done|]. apply quieter_alter. intros a.
  split; [split | split]; simpl; auto.
Qed.

Lemma dispatch_quieter (handler : Listener → Player → Player) hs p :
  (∀ h q, audioRefs (handler h q) = audioRefs q
          ∧ quieter (elements q) (elements (handler h q))) →
  audioRefs (dispatch handler hs p) = audioRefs p
  ∧ quieter (elements p) (elements (dispatch handler hs p)).
Proof.
  intros Hh. revert p. unfold dispatch.
  induction hs as [|h hs IH]; intros p; cbn [foldl].
  - split; auto with quiz.
  - destruct (IH (handler h p)) as [E Q]. destruct (Hh h p) as [E1 Q1].
    split; [congruence | by eapply quieter_trans].
Qed.

(** What the ref callback does to the heap when it lets go of [prev]. *)
Lemma refCallback_detach (p : Player) (k : string) (els1 : list HTMLAudioElement) :
  Player_ok p →
  els1 = match obj_get k (audioRefs p) with
         | Some prev =>
             halt_and_unlisten (limitHandlersRef p) (endedHandlersRef p)
               (elements p) (k, prev)
         | None => elements p
         end →
  length els1 = length (elements p)
  ∧ (∀ e, obj_get k (audioRefs p) ≠ Some e → els1 !! e = elements p !! e)
  ∧ (∀ e a', obj_get k (audioRefs p) = Some e → els1 !! e = Some a' →
       paused a' = true ∧ currentTime a' = 0%Q).
Proof.
  intros Hok ->. destruct (obj_get k (audioRefs p)) as [prev|] eqn:Hk.
  - destruct (halt_and_unlisten_spec (limitHandlersRef p) (endedHandlersRef p)
                (elements p) k prev) as (L & O & H).
    split; [done|]. split.
    + intros e He. apply O. congruence.
    + intros e a' [= <-] Ha'.
      destruct (ok_listeners p Hok k prev Hk) as (a & Ha & _).
      destruct (H a Ha) as (a1 & Ha1 & Hp & Ht).
      rewrite Ha1 in Ha'. by injection Ha' as <-.
  - by repeat split.
Qed.

(** *** Every handler keeps the invariant

    The playback refs [p] are fixed and satisfy the invariant. *)
Section Preservation.

Context (p : Player) (Hok : Player_ok p).

(** After the loop of [handlePlay] nothing plays, except possibly the
    target when another track was playing. *)
Lemma halt_others_silence (trackId : string) (isSame : bool) (target : nat) :
  obj_get trackId (audioRefs p) = Some target →
  let p1 := with_elements
              (foldl (halt_others trackId isSame) (elements p) (audioRefs p)) p in
  Player_ok p1
  ∧ (∀ e, unpaused p1 e → e = target ∧ isSame = false)
  ∧ (∀ k e, obj_get k (audioRefs p) = Some e → k ≠ trackId ∨ isSame = true →
       halted p1 e).
Proof.
  intros Ht p1.
  destruct (halt_others_loop trackId isSame (audioRefs p) (elements p)) as [Hq Hd].
  assert (Hok1 : Player_ok p1) by by apply (Player_ok_quieter p p1 Hok).
  split; [done|].
  assert (Hhalt : ∀ k e, obj_get k (audioRefs p) = Some e →
            k ≠ trackId ∨ isSame = true → halted p1 e).
  { intros k e Hk Hcond.
    destruct (ok_listeners p1 Hok1 k e Hk) as (a' & Ha' & _).
    exists a'. split; [done|].
    eapply Hd; [by apply obj_get_elem_of | done | done]. }
  split; [|done].
  intros e He. destruct (ok_held p1 Hok1 e He) as [k Hk].
  destruct He as (a' & Ha' & Hp').
  destruct (decide (k = trackId)) as [->|Hne].
  - simpl in Hk. rewrite Ht in Hk. injection Hk as <-. split; [done|].
    destruct isSame; [|done].
    destruct (Hhalt trackId target Ht (or_intror eq_refl)) as (a2 & Ha2 & Hp2 & _).
    congruence.
  - destruct (Hhalt k e Hk (or_introl Hne)) as (a2 & Ha2 & Hp2 & _). congruence.
Qed.

Lemma handlePlay_ok allowed trackId : Player_ok (handlePlay allowed trackId p).
Proof.
  unfold handlePlay.
  destruct (obj_get trackId (audioRefs p)) as [target|] eqn:Ht; [|done].
  set (isSame := bool_decide (playingTrackIdRef p = Some trackId)).
  destruct (halt_others_silence trackId isSame target Ht) as (Hok1 & Honly & _).
  destruct isSame.
  - apply (Player_ok_quieter
      (with_elements (foldl (halt_others trackId true) (elements p) (audioRefs p)) p));
      [done | done | apply quieter_refl].
  - apply (Player_ok_start
      (with_elements (foldl (halt_others trackId false) (elements p) (audioRefs p)) p)
      allowed trackId target Hok1 Ht).
    intros e He. by apply Honly.
Qed.

(** [handlePlay] on the track that plays: everything held is halted, and
    the controller is idle. *)
Lemma handlePlay_same allowed trackId target :
  obj_get trackId (audioRefs p) = Some target →
  playingTrackIdRef p = Some trackId →
  let p' := handlePlay allowed trackId p in
  idle p' ∧ ∀ k e, obj_get k (audioRefs p) = Some e → halted p' e.
Proof.
  intros Ht Hplay p'. subst p'. unfold handlePlay. rewrite Ht.
  rewrite bool_decide_eq_true_2 by done.
  destruct (halt_others_silence trackId true target Ht) as (_ & Honly & Hhalt).
  split; [split; [done|]|].
  - intros e He. by destruct (Honly e He).
  - intros k e Hk. apply (Hhalt k e Hk). by right.
Qed.

(** [handlePlay] on another track than the one that plays, the browser
    letting it start: the track sounds from the start, every other held
    element is halted, and the target is the only element that plays. *)
Lemma handlePlay_other trackId target :
  obj_get trackId (audioRefs p) = Some target →
  playingTrackIdRef p ≠ Some trackId →
  let p' := handlePlay true trackId p in
  sounding p' trackId
  ∧ (∃ a, elements p' !! target = Some a ∧ currentTime a = 0%Q)
  ∧ (∀ k e, k ≠ trackId → obj_get k (audioRefs p) = Some e → halted p' e)
  ∧ (∀ e, unpaused p' e → e = target).
Proof.
  intros Ht Hplay p'.
  assert (Hok' : Player_ok p') by apply handlePlay_ok.
  subst p'. revert Hok'. unfold handlePlay. rewrite Ht.
  rewrite bool_decide_eq_false_2 by done. intros Hok'.
  destruct (halt_others_silence trackId false target Ht) as (Hok1 & Honly & Hhalt).
  set (els := foldl (halt_others trackId false) (elements p) (audioRefs p)) in *.
  destruct (ok_listeners _ Hok1 trackId target Ht) as (a1 & Ha1 & _).
  simpl in Ha1.
  assert (Htarget : alter (el_play true) target (alter (el_seek 0) target els) !! target
                    = Some (el_play true (el_seek 0 a1))).
  { by rewrite !list_lookup_alter_eq, Ha1. }
  assert (Hun : unpaused (with_elements
      (alter (el_play true) target (alter (el_seek 0) target els))
      (with_playing (Some trackId) p)) target).
  { eexists. split; [exact Htarget | done]. }
  split; [split; [done | by exists target]|].
  split; [eexists; split; [exact Htarget | done]|].
  split.
  - intros k e Hne Hk.
    assert (e ≠ target).
    { intros ->. apply Hne. by apply (ok_injective p Hok k trackId target). }
    destruct (Hhalt k e Hk (or_introl Hne)) as (a & Ha & Hp & Htime).
    exists a. simpl. by rewrite !list_lookup_alter_ne.
  - intros e He. by apply (ok_single _ Hok' e target).
Qed.

Lemma mediaEnded_ok e : Player_ok (mediaEnded e p).
Proof.
  unfold mediaEnded.
  destruct (elements p !! e) as [a|]; [|done].
  destruct (paused a); [done|].
  set (p1 := with_elements (alter el_pause e (elements p)) p).
  destruct (dispatch_quieter endedHandler (on_ended a) p1 endedHandler_quieter)
    as [E Q].
  apply (Player_ok_quieter p); [done | done |].
  eapply quieter_trans; [|exact Q]. apply quieter_alter.
  intros a0. split; [split | split]; simpl; auto.
Qed.

(** A playing element that reports position [t]: what one [timeupdate]
    does to it. *)
Lemma mediaProgress_playing e t k a :
  elements p !! e = Some a → paused a = false →
  obj_get k (audioRefs p) = Some e →
  mediaProgress e t p
  = if Qle_bool cap t
    then forget_playing k
           (with_elements (halt e (alter (el_seek t) e (elements p))) p)
    else with_elements (alter (el_seek t) e (elements p)) p.
Proof.
  intros Ha Hp Hk. unfold mediaProgress. rewrite Ha, Hp.
  destruct (ok_listeners p Hok k e Hk) as (a0 & Ha0 & Ht & _).
  rewrite Ha in Ha0. injection Ha0 as <-. rewrite Ht.
  unfold dispatch. cbn [foldl]. unfold limitHandler.
  cbn [closure_instance closure_trackId elements with_elements].
  rewrite list_lookup_alter_eq, Ha. cbn [fmap option_fmap option_map].
  unfold limit_reached. cbn [currentTime el_seek].
  by destruct (Qle_bool cap t).
Qed.

Lemma mediaProgress_ok e t : Player_ok (mediaProgress e t p).
Proof.
  destruct (elements p !! e) as [a|] eqn:Ha; [|unfold mediaProgress; by rewrite Ha].
  destruct (paused a) eqn:Hp.
  - unfold mediaProgress. rewrite Ha, Hp.
    destruct (dispatch_quieter limitHandler (on_timeupdate a) p limitHandler_quieter)
      as [E Q].
    by apply (Player_ok_quieter p).
  - destruct (ok_held p Hok e) as [k Hk]; [by exists a|].
    rewrite (mediaProgress_playing e t k a) by done.
    destruct (Qle_bool cap t) eqn:Hcap.
    + apply (Player_ok_tamer p); [done | by rewrite forget_playing_audioRefs | |].
      * rewrite forget_playing_elements. simpl. unfold halt. by rewrite !length_alter.
      * rewrite forget_playing_elements. simpl. intros e' a1 a' Ha1 Ha'.
        destruct (decide (e' = e)) as [->|Hne].
        -- rewrite halt_lookup, list_lookup_alter_eq, Ha1 in Ha'. injection Ha' as <-.
           split; [done|]. split; [done | by left].
        -- rewrite halt_lookup_ne, list_lookup_alter_ne, Ha1 in Ha' by done.
           injection Ha' as <-. split; [done|]. split; [done | by eapply ok_capped].
    + apply (Player_ok_tamer p); [done | done | simpl; by rewrite length_alter |].
      simpl. intros e' a1 a' Ha1 Ha'.
      destruct (decide (e' = e)) as [->|Hne].
      * rewrite list_lookup_alter_eq, Ha1 in Ha'. injection Ha' as <-.
        split; [done|]. split; [done|]. right. simpl.
        apply Qnot_le_lt. intros Hle. apply Qle_bool_iff in Hle. congruence.
      * rewrite list_lookup_alter_ne, Ha1 in Ha' by done.
        injection Ha' as <-. split; [done|]. split; [done | by eapply ok_capped].
Qed.

Lemma resetAudioRefs_ok : Player_ok (resetAudioRefs p).
Proof.
  destruct (halt_and_unlisten_loop (limitHandlersRef p) (endedHandlersRef p)
              (audioRefs p) (elements p)) as (L & C & Hd).
  assert (Hnone : ∀ e, ¬ unpaused (resetAudioRefs p) e).
  { intros e (a' & Ha' & Hp'). simpl in Ha'.
    destruct (lookup_lt_is_Some_2 (elements p) e) as [a Ha].
    { rewrite <- L. by eapply lookup_lt_Some. }
    destruct (C e a a' Ha Ha') as [Hpa _].
    destruct (ok_held p Hok e) as [k Hk].
    { exists a. split; [done|]. destruct (paused a); [|done]. rewrite Hpa in Hp'; done. }
    destruct (Hd k e a' (obj_get_elem_of _ _ _ Hk) Ha') as [Hp _]. congruence. }
  split; simpl; try done.
  - intros e He. by destruct (Hnone e).
  - intros e1 e2 He. by destruct (Hnone e1).
  - intros e a' Ha'.
    destruct (lookup_lt_is_Some_2 (elements p) e) as [a Ha].
    { rewrite <- L. by eapply lookup_lt_Some. }
    eapply calmer_within_cap; [by eapply C | by eapply ok_capped].
Qed.

Lemma unmountAudio_ok k : Player_ok (unmountAudio k p).
Proof.
  unfold unmountAudio, refCallback.
  rewrite decide_False by (intros [[x Hx] H]; congruence).
  cbv zeta.
  set (els1 := match obj_get k (audioRefs p) with
               | Some prev =>
                   halt_and_unlisten (limitHandlersRef p) (endedHandlersRef p)
                     (elements p) (k, prev)
               | None => elements p
               end).
  destruct (refCallback_detach p k els1 Hok eq_refl) as (L & O & Hd).
  assert (Hkeep : ∀ k' e, k ≠ k' → obj_get k' (audioRefs p) = Some e →
            els1 !! e = elements p !! e).
  { intros k' e Hne Hk'. apply O. intros Hk. apply Hne.
    by apply (ok_injective p Hok k k' e). }
  assert (Hback : ∀ e a', els1 !! e = Some a' → paused a' = false →
            elements p !! e = Some a' ∧ obj_get k (audioRefs p) ≠ Some e).
  { intros e a' Ha' Hp'.
    assert (Hne : obj_get k (audioRefs p) ≠ Some e).
    { intros Hk. destruct (Hd e a' Hk Ha'). congruence. }
    split; [|done]. by rewrite <- O. }
  split; simpl.
  - intros k' e. rewrite obj_get_delete. destruct (decide (k = k')); [done|].
    intros Hk'. rewrite (Hkeep k' e) by done. by apply ok_listeners.
  - intros k1 k2 e. rewrite !obj_get_delete.
    destruct (decide (k = k1)); [done|]. destruct (decide (k = k2)); [done|].
    by apply ok_injective.
  - intros e (a' & Ha' & Hp'). destruct (Hback e a' Ha' Hp') as [Ha Hne].
    destruct (ok_held p Hok e) as [k' Hk']; [by exists a'|].
    exists k'. rewrite obj_get_delete. rewrite decide_False; [done|]. congruence.
  - intros e1 e2 (a1 & Ha1 & Hp1) (a2 & Ha2 & Hp2).
    destruct (Hback e1 a1 Ha1 Hp1) as [H1 _]. destruct (Hback e2 a2 Ha2 Hp2) as [H2 _].
    apply (ok_single p Hok); by eexists.
  - intros e a' Ha'. destruct (paused a') eqn:Hp'; [by left|].
    destruct (Hback e a' Ha' Hp') as [Ha _]. by eapply ok_capped.
Qed.

(** A newly created element changes nothing for the others. *)
Lemma Player_ok_alloc k :
  Player_ok (getAudioRef k (with_elements (elements p ++ [new_audio]) p)).
Proof.
  assert (Hold : ∀ e a, (elements p ++ [new_audio]) !! e = Some a → paused a = false →
            elements p !! e = Some a).
  { intros e a Ha Hp. apply lookup_app_Some in Ha as [Ha|[_ Ha]]; [done|].
    apply list_lookup_singleton_Some in Ha as [_ <-]. done. }
  split; simpl.
  - intros k' e Hk'. destruct (ok_listeners p Hok k' e Hk') as (a & Ha & H).
    exists a. split; [|done]. by apply lookup_app_l_Some.
  - by apply ok_injective.
  - intros e (a & Ha & Hp). apply (ok_held p Hok). exists a. split; [|done].
    by apply Hold.
  - intros e1 e2 (a1 & Ha1 & Hp1) (a2 & Ha2 & Hp2).
    apply (ok_single p Hok); eexists; (split; [by apply Hold | done]).
  - intros e a Ha. destruct (paused a) eqn:Hp; [by left|].
    eapply ok_capped; [done|]. by apply Hold.
Qed.

Lemma mountAudio_ok k : Player_ok (mountAudio k p).
Proof.
  unfold mountAudio.
  set (inst := length (elements p)).
  set (p0 := getAudioRef k (with_elements (elements p ++ [new_audio]) p)).
  assert (Hok0 : Player_ok p0) by apply Player_ok_alloc.
  assert (Hbound : ∀ k' e, obj_get k' (audioRefs p) = Some e → e ≠ inst).
  { intros k' e Hk' ->. destruct (ok_listeners p Hok k' inst Hk') as (a & Ha & _).
    apply lookup_lt_Some in Ha. subst inst. lia. }
  unfold refCallback.
  rewrite decide_False by (intros [_ H]; by apply (Hbound k inst)).
  cbv zeta.
  set (els1 := match obj_get k (audioRefs p0) with
               | Some prev =>
                   halt_and_unlisten (limitHandlersRef p0) (endedHandlersRef p0)
                     (elements p0) (k, prev)
               | None => elements p0
               end).
  set (h := {| closure_instance := inst; closure_trackId := k |}).
  destruct (refCallback_detach p0 k els1 Hok0 eq_refl) as (L & O & Hd).
  change (audioRefs p0) with (audioRefs p) in *.
  assert (Hinst : els1 !! inst = Some new_audio).
  { rewrite O by (intros H; by apply (Hbound k inst)).
    simpl. subst inst. by rewrite list_lookup_middle. }
  assert (Hlook : ∀ e,
    alter (el_listen_ended h) inst (alter (el_listen_timeupdate h) inst els1) !! e
    = if decide (e = inst)
      then Some (el_listen_ended h (el_listen_timeupdate h new_audio))
      else els1 !! e).
  { intros e. destruct (decide (e = inst)) as [->|Hne].
    - by rewrite !list_lookup_alter_eq, Hinst.
    - by rewrite !list_lookup_alter_ne. }
  assert (Hback : ∀ e a',
    alter (el_listen_ended h) inst (alter (el_listen_timeupdate h) inst els1) !! e
    = Some a' → paused a' = false →
    elements p0 !! e = Some a' ∧ obj_get k (audioRefs p) ≠ Some e).
  { intros e a' Ha' Hp'. rewrite Hlook in Ha'.
    destruct (decide (e = inst)); [by injection Ha' as <-|].
    assert (Hne : obj_get k (audioRefs p) ≠ Some e).
    { intros Hk. destruct (Hd e a' Hk Ha'). congruence. }
    split; [|done]. by rewrite <- O. }
  split; cbn [elements audioRefs].
  - intros k' e. rewrite obj_get_set, Hlook. destruct (decide (k = k')) as [<-|Hne].
    + intros [= <-]. rewrite decide_True by done. eauto.
    + intros Hk'. rewrite decide_False by by eapply Hbound.
      rewrite O; [by apply (ok_listeners p0 Hok0)|].
      intros Hk. apply Hne. by apply (ok_injective p Hok k k' e).
  - intros k1 k2 e. rewrite !obj_get_set.
    destruct (decide (k = k1)) as [<-|H1], (decide (k = k2)) as [<-|H2]; try done.
    + intros [= <-] H. by destruct (Hbound k2 inst).
    + intros H [= <-]. by destruct (Hbound k1 inst).
    + by apply ok_injective.
  - intros e (a' & Ha' & Hp'). destruct (Hback e a' Ha' Hp') as [Ha Hne].
    destruct (ok_held p0 Hok0 e) as [k' Hk']; [by exists a'|].
    exists k'. rewrite obj_get_set. rewrite decide_False; [done|].
    intros ->. by apply Hne.
  - intros e1 e2 (a1 & Ha1 & Hp1) (a2 & Ha2 & Hp2).
    destruct (Hback e1 a1 Ha1 Hp1) as [H1 _]. destruct (Hback e2 a2 Ha2 Hp2) as [H2 _].
    apply (ok_single p0 Hok0); by eexists.
  - intros e a' Ha'. destruct (paused a') eqn:Hp'; [by left|].
    destruct (Hback e a' Ha' Hp') as [Ha _]. by eapply ok_capped.
Qed.

End Preservation.

(** ** Reachable states *)

Lemma handleConvert_player env s :
  player (handleConvert env s) = player s
  ∨ player (handleConvert env s) = resetAudioRefs (player s).
Proof.
  outcome_cases (handleConvert_outcome env s); [by left | by left | right..];
  match goal with |- context [convert_finish env s ?x] =>
    destruct (convert_finish_frame env s x) as (_ & _ & _ & _ & _ & -> & _) end;
  reflexivity.
Qed.

Lemma Ledger_ok_outputs k blobs ff' s :
  length blobs = k → Ledger_ok s →
  Ledger_ok (with_outputs k blobs ff' (convert_start s)).
Proof.
  intros Hlen [Hnd Hiss]. unfold Ledger_ok.
  destruct (with_outputs_ledger k blobs ff' s Hlen) as (-> & -> & -> & _).
  split.
  - apply NoDup_app. split; [done|]. split; [|apply issued_urls_NoDup].
    intros u Hold Hnew. destruct (Hiss u Hold) as (i & Hi & ->).
    apply elem_of_issued_urls in Hnew as (n & _ & Hn). apply blob_url_inj in Hn. lia.
  - intros u Hu. apply elem_of_app in Hu as [Hu|Hu].
    + destruct (Hiss u Hu) as (i & Hi & ->). exists i. split; [lia | done].
    + apply elem_of_issued_urls in Hu as (n & Hn & ->). eexists. split; [|done]. lia.
Qed.

Lemma handleConvert_Ledger_ok env s : Ledger_ok s → Ledger_ok (handleConvert env s).
Proof.
  intros Hok.
  outcome_cases (handleConvert_outcome env s); [done | done | ..];
  unfold Ledger_ok;
  match goal with |- context [convert_finish env s ?x] =>
    destruct (convert_finish_frame env s x) as (_ & _ & _ & -> & -> & _) end;
  by apply Ledger_ok_outputs.
Qed.

Lemma step_ok s ev :
  Player_ok (player s) ∧ Ledger_ok s →
  Player_ok (player (step s ev)) ∧ Ledger_ok (step s ev).
Proof.
  intros [Hp Hl]. destruct ev; simpl.
  - done.
  - unfold loadCore. destruct (ffmpegRef s); [|done].
    destruct (coreLoaded s); [done|]. by destruct load_ok.
  - done.
  - split; [|by apply handleConvert_Ledger_ok].
    destruct (handleConvert_player env s) as [-> | ->];
      [done | by apply resetAudioRefs_ok].
  - done.
  - by destruct (checkAnswers_cases s) as [[_ ->]|[(_ & _ & ->)|(_ & _ & ->)]].
  - split; [by apply mountAudio_ok | done].
  - split; [by apply unmountAudio_ok | done].
  - split; [by apply handlePlay_ok | done].
  - split; [|done]. by destruct Hp.
  - split; [by apply mediaProgress_ok | done].
  - split; [by apply mediaEnded_ok | done].
Qed.

Lemma run_snoc evs ev : run (evs ++ [ev]) = step (run evs) ev.
Proof. unfold run. by rewrite foldl_snoc. Qed.

Lemma reachable_ok s : reachable s → Player_ok (player s) ∧ Ledger_ok s.
Proof.
  intros [evs ->]. induction evs as [|ev evs IH] using rev_ind.
  - split; [apply Player_init_ok|]. split; [constructor|].
    intros u Hu. by apply elem_of_nil in Hu.
  - rewrite run_snoc. by apply step_ok.
Qed.

Lemma reachable_step s ev : reachable s → reachable (step s ev).
Proof. intros [evs ->]. exists (evs ++ [ev]). by rewrite run_snoc. Qed.

Lemma handlePlay_playing allowed trackId target p :
  obj_get trackId (audioRefs p) = Some target →
  playingTrackIdRef (handlePlay allowed trackId p) = Some trackId
  ∨ playingTrackIdRef (handlePlay allowed trackId p) = None.
Proof.
  intros Ht. unfold handlePlay. rewrite Ht. destruct (bool_decide _); auto.
Qed.

(** ** C2: one track at a time *)

(** C2: in every reachable state at most one audio element is unpaused and
    at most one track is sounding; and for two distinct tracks [A] and [B]
    whose audio elements are mounted, [handlePlay A] followed by
    [handlePlay B] (the browser letting [B] start) leaves [B] sounding, [A]
    paused with its position at zero, and [B]'s element the only one that
    plays. *)
Theorem C2_single_playback (s : AppState) :
  reachable s →
  (∀ e1 e2, unpaused (player s) e1 → unpaused (player s) e2 → e1 = e2)
  ∧ (∀ t1 t2, sounding (player s) t1 → sounding (player s) t2 → t1 = t2)
  ∧ (∀ (A B : string) (a b : nat) (allowed : bool),
       A ≠ B →
       obj_get A (audioRefs (player s)) = Some a →
       obj_get B (audioRefs (player s)) = Some b →
       let p' := handlePlay true B (handlePlay allowed A (player s)) in
       sounding p' B ∧ stopped p' A ∧ ∀ e, unpaused p' e → e = b).
Proof.
  intros Hreach. destruct (reachable_ok s Hreach) as [Hok _].
  split; [apply (ok_single _ Hok)|]. split.
  - intros t1 t2 [H1 _] [H2 _]. congruence.
  - intros A B a b allowed Hne Ha Hb p'.
    set (p1 := handlePlay allowed A (player s)) in *.
    assert (Hok1 : Player_ok p1) by by apply handlePlay_ok.
    assert (Hrefs : audioRefs p1 = audioRefs (player s)) by apply handlePlay_audioRefs.
    assert (Hplay : playingTrackIdRef p1 ≠ Some B).
    { destruct (handlePlay_playing allowed A a (player s) Ha) as [E|E];
        subst p1; rewrite E; congruence. }
    destruct (handlePlay_other p1 Hok1 B b) as (Hs & _ & Hhalt & Honly);
      [by rewrite Hrefs | done |].
    split; [done|]. split; [|done].
    exists a. split.
    + subst p'. by rewrite handlePlay_audioRefs, Hrefs.
    + apply (Hhalt A a); [done | by rewrite Hrefs].
Qed.

Lemma C2_single_playback_witness :
  sounding (handlePlay true "b" (handlePlay true "a" (player playing_a))) "b"
  ∧ stopped (handlePlay true "b" (handlePlay true "a" (player playing_a))) "a".
Proof.
  assert (Hreach : reachable playing_a) by (by eexists).
  destruct (proj2 (proj2 (C2_single_playback playing_a Hreach))
              "a" "b" 0%nat 1%nat true) as (H1 & H2 & _); [done..|].
  by split.
Defined.

(** ** C3: the cap on playback *)

(** C3: in every reachable state every unpaused element is at a position
    below the cap of 120 seconds; and when the element of the sounding
    track reports a position at or beyond the cap, the [timeupdate] handler
    pauses it, puts its position back to zero and clears the playing ref, so
    the controller is idle. *)
Theorem C3_duration_cap (s : AppState) :
  reachable s →
  cap = 120%Q
  ∧ (∀ e a, elements (player s) !! e = Some a → paused a = false →
       (currentTime a < cap)%Q)
  ∧ (∀ (trackId : string) (e : nat) (t : Q),
       sounding (player s) trackId →
       obj_get trackId (audioRefs (player s)) = Some e →
       (cap <= t)%Q →
       let p' := mediaProgress e t (player s) in
       idle p' ∧ stopped p' trackId).
Proof.
  intros Hreach. destruct (reachable_ok s Hreach) as [Hok _].
  split; [reflexivity|]. split.
  - intros e a Ha Hp. destruct (ok_capped _ Hok e a Ha) as [H|H]; [congruence | done].
  - intros trackId e t (Hplay & e0 & He0 & a & Ha & Hp) He Hcap p'.
    rewrite He in He0. injection He0 as <-.
    subst p'. rewrite (mediaProgress_playing (player s) Hok e t trackId a) by done.
    apply Qle_bool_iff in Hcap. rewrite Hcap.
    assert (He' : halted
      (forget_playing trackId
         (with_elements (halt e (alter (el_seek t) e (elements (player s)))) (player s)))
      e).
    { unfold halted. rewrite forget_playing_elements. simpl.
      rewrite halt_lookup, list_lookup_alter_eq, Ha. simpl. eauto. }
    split; [split|].
    + unfold forget_playing. simpl. by rewrite decide_True.
    + intros e' (a' & Ha' & Hp'). rewrite forget_playing_elements in Ha'. simpl in Ha'.
      destruct (decide (e' = e)) as [->|Hne].
      * destruct He' as (a2 & Ha2 & Hp2 & _).
        rewrite forget_playing_elements in Ha2. simpl in Ha2. congruence.
      * rewrite halt_lookup_ne, list_lookup_alter_ne in Ha' by done.
        apply Hne. apply (ok_single _ Hok); by eexists.
    + exists e. split; [|done]. by rewrite forget_playing_audioRefs.
Qed.

Lemma C3_duration_cap_witness :
  idle (mediaProgress 0 (121 # 1) (player playing_a))
  ∧ stopped (mediaProgress 0 (121 # 1) (player playing_a)) "a".
Proof.
  assert (Hreach : reachable playing_a) by (by eexists).
  apply (proj2 (proj2 (C3_duration_cap playing_a Hreach)) "a" 0%nat (121 # 1)).
  - split; [done|]. exists 0%nat. split; [done|]. by eexists.
  - done.
  - done.
Defined.

(** ** C10: playing the sounding track again *)

(** [handlePlay] on a track that plays and that the playing ref names does
    not restart it: the track's element is paused with its position at
    zero, the playing ref is cleared and no element plays, whatever the
    browser would have allowed. *)
Lemma handlePlay_stops_marked (s : AppState) (allowed : bool) (trackId : string) :
  reachable s →
  sounding (player s) trackId →
  let p' := handlePlay allowed trackId (player s) in
  idle p' ∧ stopped p' trackId.
Proof.
  intros Hreach (Hplay & e & He & Hun) p'.
  destruct (reachable_ok s Hreach) as [Hok _].
  destruct (handlePlay_same (player s) Hok allowed trackId e He Hplay) as [Hidle Hhalt].
  split; [done|]. exists e. split; [|by apply (Hhalt trackId)].
  subst p'. by rewrite handlePlay_audioRefs.
Qed.

(** C10: the claim fails where a track plays while the playing ref names
    no track. In [b_plays_unmarked] the rejection of the [play()] of [a]
    has cleared the ref, which named [b] by then: the handler of the
    rejection has no guard [playingTrackIdRef.current === trackId], unlike
    [limitHandler], [endedHandler] and the ref callback. The element of [b]
    plays, at twelve seconds, and [handlePlay] on [b] does not stop it: the
    element still plays, from position zero again, the ref names [b], and
    the controller is neither idle nor is [b] stopped. *)
Theorem C10_unmarked_track_restarts :
  let s := b_plays_unmarked in
  let p' := handlePlay true "b" (player s) in
  reachable s
  ∧ obj_get "b" (audioRefs (player s)) = Some 1%nat
  ∧ (∃ a, elements (player s) !! 1%nat = Some a
          ∧ paused a = false ∧ currentTime a = 12%Q)
  ∧ playingTrackIdRef (player s) = None
  ∧ (∃ a, elements p' !! 1%nat = Some a ∧ paused a = false ∧ currentTime a = 0%Q)
  ∧ playingTrackIdRef p' = Some "b"
  ∧ ¬ idle p'
  ∧ ¬ stopped p' "b".
Proof.
  cbv zeta. split; [by eexists|]. split; [reflexivity|].
  split; [eexists; split; [reflexivity | by split]|].
  split; [reflexivity|].
  split; [eexists; split; [reflexivity | by split]|].
  split; [reflexivity|]. split.
  - intros [Href _]. discriminate Href.
  - intros (e & He & a & Ha & Hp & _).
    injection He as <-. injection Ha as <-. discriminate Hp.
Qed.

(** ** C8: releasing the ledger *)

Lemma filter_absent (u : string) (l : list string) :
  u ∉ l → filter (λ x, x = u) l = [].
Proof.
  induction l as [|x l IH]; intros Hu; [done|].
  apply not_elem_of_cons in Hu as [Hne Hu].
  rewrite filter_cons_False by congruence. by apply IH.
Qed.

Lemma NoDup_occurs_once (u : string) (l : list string) :
  NoDup l → u ∈ l → length (filter (λ x, x = u) l) = 1%nat.
Proof.
  induction 1 as [|x l Hx Hnd IH]; intros Hin; [by apply elem_of_nil in Hin|].
  rewrite filter_cons. destruct (decide (x = u)) as [->|Hne].
  - simpl. by rewrite filter_absent.
  - apply IH. apply elem_of_cons in Hin as [->|Hin]; done.
Qed.

Lemma revokeTrackUrls_empty (s : AppState) :
  objectUrlsRef s = [] → revokeTrackUrls s = s.
Proof. destruct s. simpl. by intros ->. Qed.

(** C8: [revokeTrackUrls] asks the browser to revoke each member of the
    ledger, in order and once, and leaves the ledger empty; afterwards no
    member resolves and each occurs exactly once among all revocations ever
    made; a second call right after changes nothing, the ledger is empty
    after both, and no URL was revoked twice; on an empty ledger the call
    changes nothing. The unmount cleanup releases the ledger the same way. *)
Theorem C8_releaseAll (s : AppState) :
  reachable s →
  let s1 := revokeTrackUrls s in
  let s2 := revokeTrackUrls s1 in
  objectUrlsRef s1 = [] ∧ objectUrlsRef s2 = []
  ∧ revocations (objectURLs s1) = revocations (objectURLs s) ++ objectUrlsRef s
  ∧ (∀ u, u ∈ objectUrlsRef s →
       length (filter (λ x, x = u) (revocations (objectURLs s1))) = 1%nat
       ∧ u ∉ (resolving (objectURLs s1)).*1)
  ∧ s2 = s1
  ∧ NoDup (revocations (objectURLs s2))
  ∧ (objectUrlsRef s = [] → s1 = s)
  ∧ objectUrlsRef (unmountCleanup s) = []
  ∧ objectURLs (unmountCleanup s) = objectURLs s1.
Proof.
  intros Hreach s1 s2. destruct (reachable_ok s Hreach) as [_ [Hnd _]].
  assert (Hrev : revocations (objectURLs s1)
                 = revocations (objectURLs s) ++ objectUrlsRef s).
  { subst s1. simpl. apply foldl_revoke_revocations. }
  assert (H21 : s2 = s1) by by apply revokeTrackUrls_empty.
  split; [done|]. split; [done|]. split; [done|]. split.
  - intros u Hu. split.
    + rewrite Hrev. apply NoDup_occurs_once; [done|]. apply elem_of_app. by right.
    + intros Hres. apply list_elem_of_fmap in Hres as (entry & -> & He).
      subst s1. simpl in He. apply foldl_revoke_resolving in He as [_ He]. done.
  - split; [done|]. split; [by rewrite H21, Hrev|]. split; [|done].
    apply revokeTrackUrls_empty.
Qed.

Lemma C8_releaseAll_witness :
  objectUrlsRef (revokeTrackUrls after_one_session) = []
  ∧ revocations (objectURLs (revokeTrackUrls after_one_session))
    = [blob_url 0; blob_url 1; blob_url 2]
  ∧ revokeTrackUrls (revokeTrackUrls after_one_session)
    = revokeTrackUrls after_one_session.
Proof.
  assert (Hreach : reachable after_one_session) by (by eexists).
  destruct (C8_releaseAll after_one_session Hreach) as (H1 & _ & H3 & _ & H5 & _).
  split; [exact H1|]. split; [exact H3 | exact H5].
Defined.

(** ** Further properties *)

(** The draws restrict the order of [shuffle] no further: every
    permutation of the list is its result for some draws. *)
Lemma shuffle_any_order {T : Type} (items result : list T) :
  result ≡ₚ items → ∃ choices, shuffle choices items = result.
Proof.
  revert items.
  induction result as [|x result IH]; intros items Hperm.
  - apply Permutation_nil_l in Hperm as <-. by exists [].
  - assert (Hin : x ∈ items) by (rewrite <- Hperm; left).
    apply list_elem_of_lookup in Hin as [i Hi].
    assert (Hrest : result ≡ₚ delete i items).
    { apply (Permutation_cons_inv (a := x)).
      etrans; [exact Hperm | by apply delete_Permutation]. }
    destruct (IH _ Hrest) as [choices Hc].
    exists (i :: choices). unfold shuffle.
    assert (Hlen : length items = S (length (delete i items))).
    { pose proof (lookup_lt_Some _ _ _ Hi). rewrite length_delete by eauto. lia. }
    rewrite Hlen at 1. cbn [draw head default tail].
    rewrite Nat.mod_small by by eapply lookup_lt_Some.
    change (Datatypes.id i) with i. rewrite Hi. f_equal. exact Hc.
Qed.

Lemma initialAnswers_lookup (ts : list QuizTrack) (k : string) :
  initialAnswers ts !! k = if decide (k ∈ id <$> ts) then Some None else None.
Proof.
  unfold initialAnswers. induction ts as [|t ts IH] using rev_ind.
  - cbn [foldl fmap list_fmap]. rewrite lookup_empty.
    destruct (decide (k ∈ [])) as [H|]; [by apply elem_of_nil in H | done].
  - rewrite foldl_snoc, fmap_app. cbn [fmap list_fmap].
    destruct (decide (id t = k)) as [<-|Hne].
    + rewrite lookup_insert_eq. rewrite decide_True; [done|].
      apply elem_of_app. right. left.
    + rewrite lookup_insert_ne, IH by done.
      destruct (decide (k ∈ id <$> ts)) as [Hin|Hnin].
      * rewrite decide_True; [done|]. apply elem_of_app. by left.
      * rewrite decide_False; [done|]. intros Hin.
        apply elem_of_app in Hin as [Hin|Hin]; [done|].
        apply list_elem_of_singleton in Hin. congruence.
Qed.

(** X2: a successful run resets the answers: afterwards the recorded answers
    are those of the new tracks, every one of them unanswered, so checking
    at once is refused as incomplete. *)
Theorem convert_resets_answers (env : ConvertEnv) (s : AppState) :
  tone <$> feedback (handleConvert env s) = Some success →
  let s' := handleConvert env s in
  (∀ k, selectedAnswers s' !! k
        = if decide (k ∈ id <$> tracks s') then Some None else None)
  ∧ feedback (checkAnswers s') = Some IncompleteAnswers.
Proof.
  intros Hok s'. subst s'.
  assert (Hans : ∀ k, selectedAnswers (handleConvert env s) !! k
    = if decide (k ∈ id <$> tracks (handleConvert env s)) then Some None else None).
  { outcome_cases (handleConvert_outcome env s).
    1-3: try (destruct (convert_finish_frame env s
        (setFeedback TranscodeFailure (with_outputs k blobs ff' (convert_start s))))
        as (_ & _ & Hfb & _); rewrite Hfb in Hok); by simpl in Hok.
    match goal with |- context [convert_finish env s ?x] =>
      destruct (convert_finish_frame env s x) as (-> & -> & _) end.
    intros k. apply initialAnswers_lookup. }
  split; [done|].
  destruct (checkAnswers_cases (handleConvert env s))
    as [[E _]|[(_ & _ & ->)|(Hne & Hex & _)]]; [|done|].
  - exfalso. revert E.
    outcome_cases (handleConvert_outcome env s).
    1-3: try (destruct (convert_finish_frame env s
        (setFeedback TranscodeFailure (with_outputs k blobs ff' (convert_start s))))
        as (_ & _ & Hfb & _); rewrite Hfb in Hok); by simpl in Hok.
    match goal with |- context [convert_finish env s ?x] =>
      destruct (convert_finish_frame env s x) as (-> & _) end.
    cbn [tracks set_tracks setFeedback setSelectedAnswers].
    intros E.
    assert (Hp : shuffled_tracks env s f ≡ₚ prepared_tracks env s f)
      by apply shuffle_Permutation.
    rewrite E in Hp. apply Permutation_nil_l in Hp.
    destruct (prepared_tracks_eq env s f) as (t1 & t2 & t3 & Heq & _). congruence.
  - exfalso. destruct (tracks (handleConvert env s)) as [|t ts] eqn:Et; [done|].
    apply existsb_unanswered_false with (track := t) in Hex; [|left].
    unfold unanswered in Hex. rewrite Hans in Hex.
    rewrite decide_True in Hex; [done|]. left.
Qed.

Lemma convert_resets_answers_witness :
  feedback (checkAnswers (handleConvert all_ok ready_state)) = Some IncompleteAnswers.
Proof.
  apply (convert_resets_answers all_ok ready_state). reflexivity.
Defined.

Lemma handleConvert_Tracks_ok env s : Tracks_ok s → Tracks_ok (handleConvert env s).
Proof.
  intros Hok. outcome_cases (handleConvert_outcome env s); [done | done | ..]; unfold Tracks_ok;
  match goal with |- context [convert_finish env s ?x] =>
    destruct (convert_finish_frame env s x) as (-> & _ & _ & -> & -> & _) end;
  cbn [tracks objectUrlsRef objectURLs setFeedback setSelectedAnswers set_tracks].
  - destruct (with_outputs_ledger k blobs ff' s Hlen) as (_ & _ & _ & _ & -> & _).
    intros track Hin. by apply elem_of_nil in Hin.
  - destruct (with_outputs_ledger 3 blobs ff' s Hlen) as (Hm & _ & _ & Hres & _).
    assert (Hp : shuffled_tracks env s f ≡ₚ prepared_tracks env s f)
      by apply shuffle_Permutation.
    destruct (prepared_tracks_eq env s f) as (t1 & t2 & t3 & Heq & _ & _ & _ & Hall).
    rewrite Heq in Hp. rewrite Forall_forall in Hall.
    intros track Hin. rewrite Hp in Hin. destruct (Hall track Hin) as [_ Hu].
    rewrite <- Hm in Hu. split; [done | by apply Hres].
Qed.

Lemma step_Tracks_ok s ev : Tracks_ok s → Tracks_ok (step s ev).
Proof.
  intros Hok. destruct ev; simpl; try done.
  - unfold loadCore. destruct (ffmpegRef s); [|done].
    destruct (coreLoaded s); [done|]. by destruct load_ok.
  - by apply handleConvert_Tracks_ok.
  - by destruct (checkAnswers_cases s) as [[_ ->]|[(_ & _ & ->)|(_ & _ & ->)]].
Qed.

(** X3: in every reachable state every track on display has its URL
    registered in the ledger, and the URL resolves: a URL is registered
    before its track is shown and is not revoked while the track is shown. *)
Theorem tracks_are_registered (s : AppState) :
  reachable s →
  ∀ track, track ∈ tracks s →
    url track ∈ objectUrlsRef s ∧ url track ∈ (resolving (objectURLs s)).*1.
Proof.
  intros [evs ->]. induction evs as [|ev evs IH] using rev_ind.
  - intros track Hin. by apply elem_of_nil in Hin.
  - rewrite run_snoc. by apply step_Tracks_ok.
Qed.

Lemma tracks_are_registered_witness :
  Forall (λ track, url track ∈ objectUrlsRef after_one_session)
         (tracks after_one_session).
Proof.
  apply Forall_forall. intros track Hin.
  assert (Hreach : reachable after_one_session) by (by eexists).
  apply (tracks_are_registered after_one_session Hreach track Hin).
Defined.
(** * Further properties of the component *)

(** ** Names derived from the upload, put together again *)

Lemma lastIndexOf_from_found (s : string) (c : ascii) (i found : Z) :
  (lastIndexOf_from s c i found = found ∧ occurs c s = false)
  ∨ ∃ pre post,
      s = pre +:+ String c post
      ∧ lastIndexOf_from s c i found = (i + Z.of_nat (String.length pre))%Z
      ∧ occurs c post = false.
Proof.
  revert i found. induction s as [|a s IH]; intros i found; [by left|].
  cbn [lastIndexOf_from occurs].
  destruct (IH (i + 1)%Z (if Ascii.eqb a c then i else found))
    as [[E Hno]|(pre & post & -> & E & Hno)].
  - destruct (Ascii.eqb a c) eqn:Hac.
    + right. apply Ascii.eqb_eq in Hac as ->. exists "", s.
      split; [done|]. split; [rewrite E; simpl; lia | done].
    + left. by rewrite E, Hno.
  - right. exists (String a pre), post. split; [done|].
    split; [rewrite E; simpl; lia | done].
Qed.

(** X4: the two names derived from an upload put its name together again:
    either the base name is the whole name and the extension is the
    sentinel [orig], or base name, a dot and extension make up the name, the
    base name is not empty and the extension holds no dot. *)
Theorem names_recompose (f : File) :
  (baseFileName (Some f) = name f ∧ originalExtension (Some f) = "orig")
  ∨ (baseFileName (Some f) +:+ "." +:+ originalExtension (Some f) = name f
     ∧ baseFileName (Some f) ≠ ""
     ∧ occurs "." (originalExtension (Some f)) = false).
Proof.
  unfold baseFileName, originalExtension. cbv zeta. unfold lastIndexOf.
  destruct (lastIndexOf_from_found (name f) "." 0 (-1))
    as [[E Hno]|(pre & post & Hname & E & Hno)]; rewrite E.
  - by left.
  - rewrite Z.add_0_l. destruct pre as [|a pre]; [by left|]. right.
    change (0 <? Z.of_nat (String.length (String a pre)))%Z with true. cbv iota.
    rewrite Hname.
    change (String a pre +:+ String "." post) with (String a pre +:+ ("." +:+ post)).
    rewrite slice_prefix.
    replace (Z.of_nat (String.length (String a pre)) + 1)%Z
      with (Z.of_nat (String.length (String a pre +:+ "."))).
    + rewrite <- (append_assoc (String a pre) "." post), slice_from_suffix.
      by rewrite append_assoc.
    + rewrite length_append. simpl. lia.
Qed.

Lemma names_recompose_witness :
  baseFileName (Some song) +:+ "." +:+ originalExtension (Some song) = name song.
Proof.
  destruct (names_recompose song) as [[_ H]|[H _]]; [discriminate H | exact H].
Defined.

(** ** The end of a track, and a play the browser refuses *)

(** X5: when the element of the sounding track runs to the end of its
    media, the [ended] handler puts its position back to zero and clears
    the playing ref: the track is stopped and the controller is idle. *)
Theorem natural_end_goes_idle (s : AppState) (trackId : string) (e : nat) :
  reachable s →
  sounding (player s) trackId →
  obj_get trackId (audioRefs (player s)) = Some e →
  idle (mediaEnded e (player s)) ∧ stopped (mediaEnded e (player s)) trackId.
Proof.
  intros Hreach (Hplay & e0 & He0 & a & Ha & Hp) He.
  destruct (reachable_ok s Hreach) as [Hok _].
  rewrite He in He0. injection He0 as <-.
  destruct (ok_listeners _ Hok trackId e He) as (a0 & Ha0 & _ & Hended).
  rewrite Ha in Ha0. injection Ha0 as <-.
  unfold mediaEnded. rewrite Ha, Hp, Hended.
  unfold dispatch. cbn [foldl]. unfold endedHandler.
  cbn [closure_instance closure_trackId elements with_elements].
  set (els := alter (el_seek 0) e (alter el_pause e (elements (player s)))).
  assert (Hlook : els !! e = Some (el_seek 0 (el_pause a))).
  { subst els. by rewrite !list_lookup_alter_eq, Ha. }
  assert (Hforget : forget_playing trackId
            (with_elements els (with_elements (alter el_pause e (elements (player s)))
                                  (player s)))
          = with_playing None
              (with_elements els (with_elements (alter el_pause e (elements (player s)))
                                    (player s)))).
  { unfold forget_playing. by rewrite decide_True. }
  rewrite Hforget. split; [split; [done|]|].
  - intros e' (a' & Ha' & Hp'). cbn [elements with_playing with_elements] in Ha'.
    destruct (decide (e' = e)) as [->|Hne].
    + rewrite Hlook in Ha'. by injection Ha' as <-.
    + subst els. rewrite !list_lookup_alter_ne in Ha' by done.
      apply Hne. apply (ok_single _ Hok); by eexists.
  - exists e. split; [done|]. by eexists.
Qed.

Lemma natural_end_goes_idle_witness :
  idle (mediaEnded 0 (player playing_a)) ∧ stopped (mediaEnded 0 (player playing_a)) "a".
Proof.
  assert (Hreach : reachable playing_a) by (by eexists).
  apply (natural_end_goes_idle playing_a "a" 0%nat Hreach).
  - split; [done|]. exists 0%nat. split; [done|]. by eexists.
  - done.
Defined.

(** X6: a click that starts a paused track while the browser refuses the
    playback leaves nothing playing; once the rejection is handled the
    feedback is [PlaybackFailure] and the playing ref is cleared, so the next
    click on the same track, the browser willing, starts it instead of
    toggling it off. *)
Theorem refused_play_recovers (s : AppState) (trackId : string) (e : nat) :
  reachable s →
  obj_get trackId (audioRefs (player s)) = Some e →
  playingTrackIdRef (player s) ≠ Some trackId →
  ¬ unpaused (player s) e →
  let s1 := step (step s (PlayClicked false trackId)) PlayRejected in
  feedback s1 = Some PlaybackFailure
  ∧ idle (player s1)
  ∧ sounding (handlePlay true trackId (player s1)) trackId.
Proof.
  intros Hreach He Hother Hpaused s1.
  assert (Hreach1 : reachable s1) by by do 2 apply reachable_step.
  destruct (reachable_ok s Hreach) as [Hok _].
  destruct (reachable_ok s1 Hreach1) as [Hok1 _].
  assert (Hrefs : audioRefs (player s1) = audioRefs (player s)).
  { subst s1. simpl. apply handlePlay_audioRefs. }
  split; [done|]. split; [split; [done|]|].
  - intros e' (a' & Ha' & Hp'). subst s1.
    cbn [step handlePlay_rejected player setFeedback set_player with_playing elements]
      in Ha'.
    unfold handlePlay in Ha'. rewrite He in Ha'.
    rewrite bool_decide_eq_false_2 in Ha' by done.
    cbn [elements with_elements with_playing] in Ha'.
    destruct (halt_others_silence (player s) Hok trackId false e He) as (_ & Honly & _).
    destruct (halt_others_loop trackId false (audioRefs (player s)) (elements (player s)))
      as [[_ Hq] _].
    set (els := foldl (halt_others trackId false) (elements (player s))
                  (audioRefs (player s))) in *.
    destruct (decide (e' = e)) as [->|Hne].
    + rewrite !list_lookup_alter_eq in Ha'.
      destruct (els !! e) as [a0|] eqn:Ha0; [|done].
      injection Ha' as <-. cbn in Hp'.
      destruct (elements (player s) !! e) as [a|] eqn:Ha.
      * destruct (Hq e a a0 Ha Ha0) as [[Hc _] _].
        destruct (paused a) eqn:Hpa; [by rewrite Hc in Hp'|].
        apply Hpaused. by exists a.
      * apply lookup_ge_None in Ha. apply lookup_lt_Some in Ha0.
        destruct (halt_others_loop trackId false (audioRefs (player s))
                    (elements (player s))) as [[Hlen _] _].
        fold els in Hlen. lia.
    + rewrite !list_lookup_alter_ne in Ha' by done.
      apply Hne. apply Honly. by exists a'.
  - apply (handlePlay_other (player s1) Hok1 trackId e); [by rewrite Hrefs | done].
Qed.

Lemma refused_play_recovers_witness :
  let s1 := step (step playing_a (PlayClicked false "b")) PlayRejected in
  feedback s1 = Some PlaybackFailure
  ∧ idle (player s1)
  ∧ sounding (handlePlay true "b" (player s1)) "b".
Proof.
  assert (Hreach : reachable playing_a) by (by eexists).
  apply (refused_play_recovers playing_a "b" 1%nat Hreach).
  - done.
  - discriminate.
  - intros (a & Ha & Hp). vm_compute in Ha. injection Ha as <-. discriminate Hp.
Defined.

(** ** Readiness of the engine *)

Lemma with_outputs_core k blobs ff' s :
  coreLoaded (with_outputs k blobs ff' s) = coreLoaded s
  ∧ converting (with_outputs k blobs ff' s) = converting s
  ∧ file (with_outputs k blobs ff' s) = file s.
Proof. by destruct s. Qed.

Lemma convert_finish_converting env s x :
  converting (convert_finish env s x) = false
  ∧ (is_Some (ffmpegRef x) → is_Some (ffmpegRef (convert_finish env s x))).
Proof.
  unfold convert_finish, cleanupTempFiles.
  destruct (ffmpegRef x) as [ff|] eqn:Hff; [destruct (listDir_ok env)|];
    cbn; rewrite ?Hff; by split.
Qed.

Lemma loadCore_cases load_ok s :
  loadCore load_ok s = s
  ∨ (loadCore load_ok s = set_coreLoaded true s ∧ is_Some (ffmpegRef s))
  ∨ loadCore load_ok s = setFeedback CoreLoadFailure s.
Proof.
  unfold loadCore. destruct (ffmpegRef s); [|by left].
  destruct (coreLoaded s); [by left|]. destruct load_ok; [|by right; right].
  right; left. by split.
Qed.

(** What [handleConvert] does to the flags of the component. *)
Lemma handleConvert_flags env s :
  coreLoaded (handleConvert env s) = coreLoaded s
  ∧ (is_Some (ffmpegRef s) → is_Some (ffmpegRef (handleConvert env s)))
  ∧ (converting s = false → converting (handleConvert env s) = false)
  ∧ (tracks (handleConvert env s) = tracks s ∨ tracks (handleConvert env s) = []
     ∨ coreLoaded s = true).
Proof.
  outcome_cases (handleConvert_outcome env s).
  1,2: by repeat split; auto.
  - set (x := setFeedback TranscodeFailure _).
    destruct (convert_finish_frame env s x) as (_ & _ & _ & _ & _ & _ & _ & -> & _).
    destruct (convert_finish_converting env s x) as [-> Hsome].
    assert (Hcore' : coreLoaded x = coreLoaded s) by (subst x; by destruct s).
    assert (Hff' : is_Some (ffmpegRef x)) by (subst x; by destruct s).
    rewrite Hcore'. auto 10.
  - set (x := setFeedback ConvertDone _).
    destruct (convert_finish_frame env s x) as (_ & _ & _ & _ & _ & _ & _ & -> & _).
    destruct (convert_finish_converting env s x) as [-> Hsome].
    assert (Hcore' : coreLoaded x = coreLoaded s) by (subst x; by destruct s).
    assert (Hff' : is_Some (ffmpegRef x)) by (subst x; by destruct s).
    rewrite Hcore'. auto 10.
Qed.

Lemma reachable_flags (s : AppState) :
  reachable s →
  (coreLoaded s = true → is_Some (ffmpegRef s))
  ∧ (tracks s ≠ [] → coreLoaded s = true)
  ∧ converting s = false.
Proof.
  intros [evs ->]. induction evs as [|ev evs IH] using rev_ind; [done|].
  rewrite run_snoc. destruct IH as (Heng & Htr & Hconv).
  set (s := run evs) in *. destruct ev; cbn [step].
  - split; [|done]. intros _. by eexists.
  - destruct (loadCore_cases load_ok s) as [->|[[-> Hff]| ->]]; [done| |done].
    by split.
  - done.
  - destruct (handleConvert_flags env s) as (Hc & Hs & Hv & Ht).
    rewrite Hc. split; [auto|]. split; [|auto].
    destruct Ht as [->|[->|?]]; auto.
  - done.
  - by destruct (checkAnswers_cases s) as [[_ ->]|[(_ & _ & ->)|(_ & _ & ->)]].
  - done.
  - done.
  - done.
  - done.
  - done.
  - done.
Qed.

(** X7: in every state the component can reach, the core counts as loaded
    only while an engine exists, tracks are on display only if the core was
    loaded, and no handler leaves the component marked as converting. *)
Theorem tracks_need_engine (s : AppState) :
  reachable s →
  (coreLoaded s = true → is_Some (ffmpegRef s))
  ∧ (tracks s ≠ [] → coreLoaded s = true)
  ∧ converting s = false.
Proof. apply reachable_flags. Qed.

Lemma tracks_need_engine_witness : coreLoaded after_one_session = true.
Proof.
  apply (tracks_need_engine after_one_session); [by eexists | vm_compute; discriminate].
Defined.

(** ** The cap at transcoding time *)

Lemma session_plans_capped env s f :
  Forall capped_args (plan_args <$> session_plans env s f).
Proof.
  unfold session_plans, outputPlans, plan_args. cbn [fmap list_fmap command app].
  repeat constructor; by do 2 eexists.
Qed.

Lemma handleConvert_invocations env s e0 :
  ffmpegRef s = Some e0 →
  ∃ e1 f j, ffmpegRef (handleConvert env s) = Some e1
    ∧ (invocations e1 = invocations e0
       ∨ file s = Some f
         ∧ invocations e1
           = invocations e0 ++ take j (plan_args <$> session_plans env s f)).
Proof.
  intros Hs.
  outcome_cases (handleConvert_outcome env s).
  1,2: exists e0, song, 0%nat; split; [done | by left].
  - set (x := setFeedback TranscodeFailure _).
    destruct (convert_finish_frame env s x) as (_ & _ & _ & _ & _ & _ & _ & _ & Hinv').
    assert (Hx : ffmpegRef x = Some ff') by (subst x; by destruct s).
    rewrite Hx in Hinv'. destruct (ffmpegRef (convert_finish env s x)) as [ff2|]; [|done].
    injection Hinv' as Hinv'. exists ff2, f, j. split; [done|]. right. split; [done|].
    rewrite Hinv', Hinv. congruence.
  - set (x := setFeedback ConvertDone _).
    destruct (convert_finish_frame env s x) as (_ & _ & _ & _ & _ & _ & _ & _ & Hinv').
    assert (Hx : ffmpegRef x = Some ff') by (subst x; by destruct s).
    rewrite Hx in Hinv'. destruct (ffmpegRef (convert_finish env s x)) as [ff2|]; [|done].
    injection Hinv' as Hinv'. exists ff2, f, 3%nat. split; [done|]. right. split; [done|].
    rewrite Hinv', Hinv. replace e0 with ff by congruence. f_equal.
Qed.

(** X8: whatever the component did so far, every command it gave to the
    engine it holds reads its input up to the first [MAX_PLAY_SECONDS]
    seconds only: no track is ever made from more than that. *)
Theorem transcodes_are_capped (s : AppState) (ff : FFmpeg) :
  reachable s →
  ffmpegRef s = Some ff →
  Forall capped_args (invocations ff).
Proof.
  intros [evs ->]. revert ff. induction evs as [|ev evs IH] using rev_ind; [done|].
  intros ff. rewrite run_snoc. set (s := run evs) in *. destruct ev; cbn [step]; try exact (IH ff).
  - intros [= <-]. constructor.
  - destruct (loadCore_cases load_ok s) as [->|[[-> _]| ->]]; exact (IH ff).
  - destruct (ffmpegRef s) as [ff0|] eqn:Hff0.
    + destruct (handleConvert_invocations env s ff0 Hff0) as (ff' & f & j & -> & Hinv).
      intros [= <-]. destruct Hinv as [->|[_ ->]]; [by apply IH|].
      apply Forall_app. split; [by apply IH|].
      apply Forall_take, session_plans_capped.
    + unfold handleConvert. rewrite Hff0. cbn. by rewrite Hff0.
  - destruct (checkAnswers_cases s) as [[_ ->]|[(_ & _ & ->)|(_ & _ & ->)]]; exact (IH ff).
Qed.

Lemma transcodes_are_capped_witness :
  ∃ ff, ffmpegRef after_one_session = Some ff ∧ Forall capped_args (invocations ff).
Proof.
  eexists. split; [reflexivity|].
  apply (transcodes_are_capped after_one_session); [by eexists | reflexivity].
Defined.

(** ** No object URL is forgotten *)

Lemma revoke_all_resolving (u : ObjectURLs) :
  resolving (foldl revokeObjectURL u (resolving u).*1) = [].
Proof.
  destruct (resolving (foldl revokeObjectURL u (resolving u).*1)) as [|e l] eqn:Hres;
    [done|].
  assert (He : e ∈ resolving (foldl revokeObjectURL u (resolving u).*1))
    by (rewrite Hres; left).
  apply foldl_revoke_resolving in He as [Hin Hnot].
  destruct Hnot. apply list_elem_of_fmap. by exists e.
Qed.

Lemma Ledger_tight_outputs k blobs ff' s :
  length blobs = k → Ledger_tight s →
  Ledger_tight (with_outputs k blobs ff' (convert_start s)).
Proof.
  intros Hlen [Hres Hiss]. unfold Ledger_tight.
  destruct (with_outputs_ledger k blobs ff' s Hlen) as (-> & -> & -> & _).
  split.
  - unfold with_outputs, convert_start, revokeTrackUrls.
    cbn [objectURLs set_locators set_tracks set_player set_converting set_ffmpeg
         resolving objectUrlsRef].
    rewrite <- Hres, revoke_all_resolving, app_nil_l, foldl_revoke_issued.
    apply fst_zip. rewrite Hlen. unfold issued_urls. by rewrite length_map, length_seq.
  - intros i Hi. destruct (decide (i < issued (objectURLs s))%N) as [Hold|Hnew].
    + apply elem_of_app. left. by apply Hiss.
    + apply elem_of_app. right. apply elem_of_issued_urls.
      exists (N.to_nat (i - issued (objectURLs s))). split; [lia|]. f_equal. lia.
Qed.

Lemma handleConvert_Ledger_tight env s :
  Ledger_tight s → Ledger_tight (handleConvert env s).
Proof.
  intros Hok.
  outcome_cases (handleConvert_outcome env s); [done | done | ..];
  unfold Ledger_tight;
  match goal with |- context [convert_finish env s ?x] =>
    destruct (convert_finish_frame env s x) as (_ & _ & _ & -> & -> & _) end;
  by apply Ledger_tight_outputs.
Qed.

Lemma reachable_tight s : reachable s → Ledger_tight s.
Proof.
  intros [evs ->]. induction evs as [|ev evs IH] using rev_ind.
  - split; [done|]. intros i Hi. cbn in Hi. lia.
  - rewrite run_snoc. set (s := run evs) in *. destruct ev; cbn [step]; try exact IH.
    + by destruct (loadCore_cases load_ok s) as [->|[[-> _]| ->]].
    + by apply handleConvert_Ledger_tight.
    + by destruct (checkAnswers_cases s) as [[_ ->]|[(_ & _ & ->)|(_ & _ & ->)]].
Qed.

(** X9: the ledger forgets no URL. In every reachable state a URL resolves
    exactly while it is a member of the ledger, and every URL the browser
    ever issued is a member or was revoked; so after the unmount cleanup no
    URL resolves and every URL ever issued was revoked. *)
Theorem no_url_is_forgotten (s : AppState) :
  reachable s →
  (resolving (objectURLs s)).*1 = objectUrlsRef s
  ∧ (∀ i, (i < issued (objectURLs s))%N →
       blob_url i ∈ revocations (objectURLs s) ∨ blob_url i ∈ objectUrlsRef s)
  ∧ resolving (objectURLs (unmountCleanup s)) = []
  ∧ (∀ i, (i < issued (objectURLs (unmountCleanup s)))%N →
       blob_url i ∈ revocations (objectURLs (unmountCleanup s))).
Proof.
  intros Hreach. destruct (reachable_tight s Hreach) as [Hres Hiss].
  split; [done|]. split; [intros i Hi; by apply elem_of_app, Hiss|].
  unfold unmountCleanup, revokeTrackUrls.
  cbn [objectURLs set_locators set_player objectUrlsRef].
  split.
  - rewrite <- Hres. apply revoke_all_resolving.
  - rewrite foldl_revoke_issued, foldl_revoke_revocations. exact Hiss.
Qed.

Lemma no_url_is_forgotten_witness :
  resolving (objectURLs (unmountCleanup after_one_session)) = [].
Proof.
  apply (no_url_is_forgotten after_one_session). by eexists.
Defined.

(** ** No listener is left behind *)

Lemma ears_refl els : ears els els.
Proof. split; [done|]. intros e a a' H1 H2. rewrite H1 in H2. by injection H2 as <-. Qed.

Lemma ears_trans els1 els2 els3 : ears els1 els2 → ears els2 els3 → ears els1 els3.
Proof.
  intros [L1 H1] [L2 H2]. split; [congruence|]. intros e a a'' Ha Ha''.
  destruct (lookup_lt_is_Some_2 els2 e) as [a' Ha'].
  { rewrite L1. by eapply lookup_lt_Some. }
  destruct (H1 e a a' Ha Ha') as [E1 E2]. destruct (H2 e a' a'' Ha' Ha'') as [E3 E4].
  split; congruence.
Qed.

Lemma quieter_ears els els' : quieter els els' → ears els els'.
Proof. intros [L H]. split; [done|]. intros e a a' Ha Ha'. by destruct (H e a a' Ha Ha'). Qed.

Lemma ears_alter (f : HTMLAudioElement → HTMLAudioElement) e els :
  (∀ a, same_listeners a (f a)) → ears els (alter f e els).
Proof.
  intros Hf. split; [by rewrite length_alter|]. intros e' a a' Ha.
  destruct (decide (e' = e)) as [->|Hne].
  - rewrite list_lookup_alter_eq, Ha. intros [= <-]. apply Hf.
  - rewrite list_lookup_alter_ne, Ha by done. intros [= <-]. by split.
Qed.

Lemma hears_refl p : hears p p.
Proof. do 3 (split; [done|]). apply ears_refl. Qed.

Lemma hears_trans p1 p2 p3 : hears p1 p2 → hears p2 p3 → hears p1 p3.
Proof.
  intros (A1 & B1 & C1 & E1) (A2 & B2 & C2 & E2).
  split; [congruence|]. split; [congruence|]. split; [congruence|].
  by eapply ears_trans.
Qed.

Lemma with_elements_hears els p : ears (elements p) els → hears p (with_elements els p).
Proof. by intros H. Qed.

Lemma forget_playing_hears k p : hears p (forget_playing k p).
Proof.
  unfold forget_playing. destruct (decide _); do 3 (split; [done|]); apply ears_refl.
Qed.

Lemma limitHandler_hears h p : hears p (limitHandler h p).
Proof.
  unfold limitHandler. destruct (elements p !! closure_instance h); [|apply hears_refl].
  destruct (limit_reached _); [|apply hears_refl].
  eapply hears_trans; [|apply forget_playing_hears].
  apply with_elements_hears, quieter_ears, quieter_halt.
Qed.

Lemma endedHandler_hears h p : hears p (endedHandler h p).
Proof.
  unfold endedHandler. eapply hears_trans; [|apply forget_playing_hears].
  apply with_elements_hears, ears_alter. by intros a.
Qed.

Lemma dispatch_hears (handler : Listener → Player → Player) hs p :
  (∀ h q, hears q (handler h q)) → hears p (dispatch handler hs p).
Proof.
  intros Hh. revert p. unfold dispatch.
  induction hs as [|h hs IH]; intros p; cbn [foldl]; [apply hears_refl|].
  eapply hears_trans; [apply Hh | apply IH].
Qed.

Lemma handlePlay_hears allowed k p : hears p (handlePlay allowed k p).
Proof.
  unfold handlePlay. destruct (obj_get k (audioRefs p)) as [target|]; [|apply hears_refl].
  destruct (halt_others_loop k (bool_decide (playingTrackIdRef p = Some k))
              (audioRefs p) (elements p)) as [Hq _].
  apply quieter_ears in Hq.
  destruct (bool_decide (playingTrackIdRef p = Some k)).
  - by do 3 (split; [done|]).
  - do 3 (split; [done|]). cbn [elements with_elements with_playing].
    eapply ears_trans; [exact Hq|].
    eapply ears_trans; apply ears_alter; by intros a.
Qed.

Lemma mediaProgress_hears e t p : hears p (mediaProgress e t p).
Proof.
  unfold mediaProgress. destruct (elements p !! e) as [a|]; [|apply hears_refl].
  eapply hears_trans; [|apply dispatch_hears, limitHandler_hears].
  destruct (paused a); [apply hears_refl|].
  apply with_elements_hears, ears_alter. by intros a0.
Qed.

Lemma mediaEnded_hears e p : hears p (mediaEnded e p).
Proof.
  unfold mediaEnded. destruct (elements p !! e) as [a|]; [|apply hears_refl].
  destruct (paused a); [apply hears_refl|].
  eapply hears_trans; [|apply dispatch_hears, endedHandler_hears].
  apply with_elements_hears, ears_alter. by intros a0.
Qed.

Lemma Handlers_ok_hears p p' : Handlers_ok p → hears p p' → Handlers_ok p'.
Proof.
  intros [Hk Hr Hf] (A & B & C & L & E). split.
  - by rewrite A.
  - rewrite A, B, C. apply Hr.
  - intros e a' Ha'. rewrite A.
    destruct (lookup_lt_is_Some_2 (elements p) e) as [a Ha].
    { rewrite <- L. by eapply lookup_lt_Some. }
    destruct (Hf e a Ha) as [?|[H1 H2]]; [by left|]. right.
    destruct (E e a a' Ha Ha') as [E1 E2]. split; congruence.
Qed.

Lemma obj_get_of_elem {V} (k : string) (v : V) (o : list (string * V)) :
  NoDup o.*1 → (k, v) ∈ o → obj_get k o = Some v.
Proof.
  induction o as [|[k' v'] o IH]; intros Hnd Hin; [by apply elem_of_nil in Hin|].
  cbn [fmap list_fmap fst] in Hnd. apply NoDup_cons in Hnd as [Hnot Hnd].
  cbn [obj_get]. apply elem_of_cons in Hin as [[= -> ->]|Hin].
  - by rewrite decide_True.
  - rewrite decide_False; [by apply IH|]. intros ->. apply Hnot.
    apply list_elem_of_fmap. by exists (k, v).
Qed.

Lemma obj_set_keys {V} (k : string) (v : V) (o : list (string * V)) :
  (obj_set k v o).*1 = if decide (k ∈ o.*1) then o.*1 else o.*1 ++ [k].
Proof.
  induction o as [|[k' v'] o IH]; [done|]. cbn [obj_set fmap list_fmap fst].
  destruct (decide (k' = k)) as [->|Hne].
  - rewrite decide_True by left. done.
  - cbn [fmap list_fmap fst]. fold (fmap (M:=list) (@fst string V)). rewrite IH.
    destruct (decide (k ∈ o.*1)) as [Hin|Hnot].
    + rewrite decide_True by by right. done.
    + rewrite decide_False; [done|]. intros H. apply elem_of_cons in H as [->|H]; done.
Qed.

Lemma obj_set_NoDup {V} (k : string) (v : V) (o : list (string * V)) :
  NoDup o.*1 → NoDup (obj_set k v o).*1.
Proof.
  intros Hnd. rewrite obj_set_keys. destruct (decide (k ∈ o.*1)); [done|].
  apply NoDup_app. split; [done|]. split; [|apply NoDup_singleton].
  intros x Hx Hk. apply list_elem_of_singleton in Hk as ->. done.
Qed.

Lemma obj_delete_NoDup {V} (k : string) (o : list (string * V)) :
  NoDup o.*1 → NoDup (obj_delete k o).*1.
Proof.
  intros Hnd. eapply sublist_NoDup; [exact Hnd|]. apply fmap_sublist, sublist_filter.
Qed.

(** No element is held under two keys. *)
Lemma held_once p : Player_ok p → NoDup (audioRefs p).*1 → NoDup (audioRefs p).*2.
Proof.
  intros Hok Hk. apply NoDup_fmap_2_strong; [|by eapply NoDup_fmap_1].
  intros [k1 e1] [k2 e2] H1 H2. cbn [snd]. intros <-. f_equal.
  apply (ok_injective p Hok k1 k2 e1); by apply obj_get_of_elem.
Qed.

Lemma remove_first_only (h : Listener) : remove_first h [h] = [].
Proof. simpl. by rewrite decide_True. Qed.

(** What letting go of an element does to its listeners. *)
Lemma halt_and_unlisten_ears limits endeds els k e h1 h2 a a' :
  limits !! k = Some h1 → endeds !! k = Some h2 →
  els !! e = Some a →
  halt_and_unlisten limits endeds els (k, e) !! e = Some a' →
  on_timeupdate a' = remove_first h1 (on_timeupdate a)
  ∧ on_ended a' = remove_first h2 (on_ended a).
Proof.
  intros H1 H2 Ha. unfold halt_and_unlisten, halt. rewrite H1, H2.
  rewrite !list_lookup_alter_eq, Ha. by intros [= <-].
Qed.

(** The loop of [resetAudioRefs] and of the unmount cleanup takes every
    listener off. *)
Lemma unlisten_loop limits endeds entries els :
  NoDup entries.*2 →
  (∀ k e, (k, e) ∈ entries →
     limits !! k = Some {| closure_instance := e; closure_trackId := k |}
     ∧ endeds !! k = Some {| closure_instance := e; closure_trackId := k |}) →
  (∀ e a, els !! e = Some a →
     no_listeners a
     ∨ ∃ k, (k, e) ∈ entries
            ∧ on_timeupdate a = [ {| closure_instance := e; closure_trackId := k |} ]
            ∧ on_ended a = [ {| closure_instance := e; closure_trackId := k |} ]) →
  ∀ e a', foldl (halt_and_unlisten limits endeds) els entries !! e = Some a' →
    no_listeners a'.
Proof.
  revert els. induction entries as [|[k e] entries IH]; intros els Hnd Hrefs Hels; cbn [foldl].
  - intros e a' Ha'. destruct (Hels e a' Ha') as [H|(k & Hin & _)]; [done|].
    by apply elem_of_nil in Hin.
  - cbn [fmap list_fmap snd] in Hnd. apply NoDup_cons in Hnd as [Hnot Hnd].
    apply IH; [done | by intros k0 e0 Hin; apply Hrefs; right |].
    intros e0 a1 Ha1.
    destruct (halt_and_unlisten_spec limits endeds els k e) as (L & O & _).
    destruct (decide (e0 = e)) as [->|Hne].
    + left. destruct (lookup_lt_is_Some_2 els e) as [a Ha].
      { rewrite <- L. by eapply lookup_lt_Some. }
      destruct (Hrefs k e) as [H1 H2]; [left|].
      destruct (halt_and_unlisten_ears limits endeds els k e _ _ a a1 H1 H2 Ha Ha1)
        as [E1 E2].
      destruct (Hels e a Ha) as [[F1 F2]|(k' & Hin & F1 & F2)].
      * rewrite F1 in E1. rewrite F2 in E2. by split.
      * apply elem_of_cons in Hin as [[= ->]|Hin].
        -- rewrite F1, remove_first_only in E1. rewrite F2, remove_first_only in E2.
           by split.
        -- destruct Hnot. apply list_elem_of_fmap. by exists (k', e).
    + rewrite O in Ha1 by done. destruct (Hels e0 a1 Ha1) as [H|(k' & Hin & F)]; [by left|].
      right. exists k'. split; [|done].
      apply elem_of_cons in Hin as [[= -> ->]|Hin]; done.
Qed.

(** After the loop over all of [audioRefs] no element has a listener. *)
Lemma unlisten_all p :
  Player_ok p → Handlers_ok p →
  ∀ e a', foldl (halt_and_unlisten (limitHandlersRef p) (endedHandlersRef p))
            (elements p) (audioRefs p) !! e = Some a' →
    no_listeners a'.
Proof.
  intros Hok [Hk Hr Hf]. apply unlisten_loop.
  - by apply held_once.
  - intros k e Hin. apply Hr. by apply obj_get_of_elem.
  - intros e a Ha. destruct (Hf e a Ha) as [[k Hke]|H]; [|by left]. right. exists k.
    split; [by apply obj_get_elem_of|].
    destruct (ok_listeners p Hok k e Hke) as (a0 & Ha0 & H1 & H2).
    rewrite Ha in Ha0. by injection Ha0 as <-.
Qed.

Lemma resetAudioRefs_handlers p :
  Player_ok p → Handlers_ok p → Handlers_ok (resetAudioRefs p).
Proof.
  intros Hok Hh. split; cbn [resetAudioRefs audioRefs elements].
  - constructor.
  - done.
  - intros e a' Ha'. right. by apply (unlisten_all p Hok Hh e).
Qed.

(** The element a track held has no listener once the ref callback let go
    of it. *)
Lemma detach_free p k e a' :
  Player_ok p → Handlers_ok p →
  obj_get k (audioRefs p) = Some e →
  halt_and_unlisten (limitHandlersRef p) (endedHandlersRef p) (elements p) (k, e) !! e
  = Some a' →
  no_listeners a'.
Proof.
  intros Hok Hh Hk Ha'. destruct (hk_refs p Hh k e Hk) as [H1 H2].
  destruct (ok_listeners p Hok k e Hk) as (a & Ha & F1 & F2).
  destruct (halt_and_unlisten_ears _ _ _ k e _ _ a a' H1 H2 Ha Ha') as [E1 E2].
  rewrite F1, remove_first_only in E1. rewrite F2, remove_first_only in E2. by split.
Qed.

Lemma unmountAudio_handlers p k :
  Player_ok p → Handlers_ok p → Handlers_ok (unmountAudio k p).
Proof.
  intros Hok Hh. unfold unmountAudio, refCallback.
  rewrite decide_False by (intros [[x Hx] H]; congruence).
  cbv zeta.
  set (els1 := match obj_get k (audioRefs p) with
               | Some prev =>
                   halt_and_unlisten (limitHandlersRef p) (endedHandlersRef p)
                     (elements p) (k, prev)
               | None => elements p
               end).
  destruct (refCallback_detach p k els1 Hok eq_refl) as (L & O & _).
  split; cbn [elements audioRefs limitHandlersRef endedHandlersRef].
  - apply obj_delete_NoDup, (hk_keys p Hh).
  - intros k' e. rewrite obj_get_delete. destruct (decide (k = k')) as [|Hne]; [done|].
    intros Hk'. rewrite !lookup_delete_ne by done. by apply (hk_refs p Hh).
  - intros e a' Ha'. destruct (decide (obj_get k (audioRefs p) = Some e)) as [Hk|Hk].
    + right. apply (detach_free p k e a' Hok Hh Hk). subst els1. by rewrite Hk in Ha'.
    + rewrite O in Ha' by done. destruct (hk_free p Hh e a' Ha') as [[k' Hk']|H]; [|by right].
      left. exists k'. rewrite obj_get_delete. rewrite decide_False; [done|]. congruence.
Qed.

Lemma Handlers_ok_alloc p k :
  Handlers_ok p →
  Handlers_ok (getAudioRef k (with_elements (elements p ++ [new_audio]) p)).
Proof.
  intros [Hk Hr Hf]. split; cbn [getAudioRef with_elements elements audioRefs
                                  limitHandlersRef endedHandlersRef]; [done | done |].
  intros e a Ha. apply lookup_app_Some in Ha as [Ha|[_ Ha]]; [by apply Hf|].
  apply list_lookup_singleton_Some in Ha as [_ <-]. by right.
Qed.

Lemma mountAudio_handlers p k :
  Player_ok p → Handlers_ok p → Handlers_ok (mountAudio k p).
Proof.
  intros Hok Hh. unfold mountAudio.
  set (inst := length (elements p)).
  set (p0 := getAudioRef k (with_elements (elements p ++ [new_audio]) p)).
  assert (Hok0 : Player_ok p0) by by apply Player_ok_alloc.
  assert (Hh0 : Handlers_ok p0) by by apply Handlers_ok_alloc.
  assert (Hbound : ∀ k' e, obj_get k' (audioRefs p0) = Some e → e ≠ inst).
  { intros k' e Hk' ->. destruct (ok_listeners p Hok k' inst Hk') as (a & Ha & _).
    apply lookup_lt_Some in Ha. subst inst. lia. }
  unfold refCallback.
  rewrite decide_False by (intros [_ H]; by apply (Hbound k inst)).
  cbv zeta.
  set (els1 := match obj_get k (audioRefs p0) with
               | Some prev =>
                   halt_and_unlisten (limitHandlersRef p0) (endedHandlersRef p0)
                     (elements p0) (k, prev)
               | None => elements p0
               end).
  set (h := {| closure_instance := inst; closure_trackId := k |}).
  destruct (refCallback_detach p0 k els1 Hok0 eq_refl) as (L & O & _).
  assert (Hlook : ∀ e, e ≠ inst →
    alter (el_listen_ended h) inst (alter (el_listen_timeupdate h) inst els1) !! e
    = els1 !! e).
  { intros e Hne. by rewrite !list_lookup_alter_ne. }
  split; cbn [elements audioRefs limitHandlersRef endedHandlersRef].
  - apply obj_set_NoDup, (hk_keys p0 Hh0).
  - intros k' e. rewrite obj_get_set. destruct (decide (k = k')) as [<-|Hne].
    + intros [= <-]. by rewrite !lookup_insert_eq.
    + intros Hk'. rewrite !lookup_insert_ne by done. by apply (hk_refs p0 Hh0).
  - intros e a'. destruct (decide (e = inst)) as [->|Hne].
    + intros _. left. exists k. rewrite obj_get_set. by rewrite decide_True.
    + rewrite Hlook by done. intros Ha'.
      destruct (decide (obj_get k (audioRefs p0) = Some e)) as [Hk|Hk].
      * right. apply (detach_free p0 k e a' Hok0 Hh0 Hk). subst els1. by rewrite Hk in Ha'.
      * rewrite O in Ha' by done.
        destruct (hk_free p0 Hh0 e a' Ha') as [[k' Hk']|H]; [|by right].
        left. exists k'. rewrite obj_get_set. rewrite decide_False; [done|]. congruence.
Qed.

Lemma step_handlers s ev :
  Player_ok (player s) → Handlers_ok (player s) → Handlers_ok (player (step s ev)).
Proof.
  intros Hok Hh. destruct ev; cbn [step player set_player]; try done.
  - by destruct (loadCore_cases load_ok s) as [->|[[-> _]| ->]].
  - destruct (handleConvert_player env s) as [->| ->]; [done|].
    by apply resetAudioRefs_handlers.
  - by destruct (checkAnswers_cases s) as [[_ ->]|[(_ & _ & ->)|(_ & _ & ->)]].
  - by apply mountAudio_handlers.
  - by apply unmountAudio_handlers.
  - eapply Handlers_ok_hears; [done | apply handlePlay_hears].
  - eapply Handlers_ok_hears; [done|]. do 3 (split; [done|]). apply ears_refl.
  - eapply Handlers_ok_hears; [done | apply mediaProgress_hears].
  - eapply Handlers_ok_hears; [done | apply mediaEnded_hears].
Qed.

Lemma reachable_handlers s : reachable s → Handlers_ok (player s).
Proof.
  intros [evs ->]. induction evs as [|ev evs IH] using rev_ind.
  - split; [constructor | done | done].
  - rewrite run_snoc. apply step_handlers; [|done].
    apply (reachable_ok (run evs)). by eexists.
Qed.

(** X10: no listener is left behind. In every reachable state an audio
    element either is the element of a track and carries exactly the two
    closures made for it, or it carries no listener at all; and after
    [resetAudioRefs], as after the unmount cleanup, no element carries a
    listener. *)
Theorem no_listener_is_left_behind (s : AppState) :
  reachable s →
  (∀ e a, elements (player s) !! e = Some a →
     (∃ k, obj_get k (audioRefs (player s)) = Some e
           ∧ on_timeupdate a = [ {| closure_instance := e; closure_trackId := k |} ]
           ∧ on_ended a = [ {| closure_instance := e; closure_trackId := k |} ])
     ∨ no_listeners a)
  ∧ (∀ e a, elements (resetAudioRefs (player s)) !! e = Some a → no_listeners a)
  ∧ (∀ e a, elements (player (unmountCleanup s)) !! e = Some a → no_listeners a).
Proof.
  intros Hreach. destruct (reachable_ok s Hreach) as [Hok _].
  pose proof (reachable_handlers s Hreach) as Hh.
  split; [|split].
  - intros e a Ha. destruct (hk_free _ Hh e a Ha) as [[k Hk]|H]; [|by right].
    left. exists k. split; [done|].
    destruct (ok_listeners _ Hok k e Hk) as (a0 & Ha0 & H1 & H2).
    rewrite Ha in Ha0. by injection Ha0 as <-.
  - exact (unlisten_all (player s) Hok Hh).
  - exact (unlisten_all (player s) Hok Hh).
Qed.

Lemma no_listener_is_left_behind_witness :
  Forall no_listeners (elements (resetAudioRefs (player playing_a))).
Proof.
  apply Forall_lookup. intros e a.
  apply (no_listener_is_left_behind playing_a). by eexists.
Defined.

(** ** Names that never clash *)

(** X11: the four files a session puts into the engine, the upload and the
    three outputs, have pairwise distinct names whatever the name of the
    upload: no output overwrites the input or another output. *)
Theorem engine_file_names_distinct (baseIdentifier extension fileType : string) :
  let inputName := baseIdentifier +:+ "_input." +:+ extension in
  NoDup (inputName
         :: (outputName <$> outputPlans baseIdentifier inputName extension fileType)).
Proof.
  cbv zeta. unfold outputPlans. cbn [fmap list_fmap outputName].
  exact (NoDup_prefixed baseIdentifier _ (suffixes_distinct extension)).
Qed.

Lemma prepared_tracks_names env s f :
  id <$> prepared_tracks env s f
  = String.append (sessionId env s) <$> ["-mp3_128"; "-mp3_320"; "-original"]
  ∧ url <$> prepared_tracks env s f = issued_urls (issued (objectURLs s)) 3
  ∧ fileName <$> prepared_tracks env s f
    = String.append (sessionId env s)
        <$> ["_128.mp3"; "_320.mp3"; "_original." +:+ originalExtension (file s)].
Proof. done. Qed.

Lemma handleConvert_tracks env s :
  tracks (handleConvert env s) = tracks s
  ∨ tracks (handleConvert env s) = []
  ∨ ∃ f, file s = Some f ∧ tracks (handleConvert env s) = shuffled_tracks env s f.
Proof.
  outcome_cases (handleConvert_outcome env s); [by left | by left | ..];
    match goal with |- context [convert_finish env s ?x] =>
      destruct (convert_finish_frame env s x) as (-> & _) end.
  - right; left. cbn [tracks setFeedback].
    by destruct (with_outputs_ledger k blobs ff' s Hlen) as (_ & _ & _ & _ & -> & _).
  - right; right. by exists f.
Qed.

Lemma reachable_distinct s :
  reachable s →
  NoDup (id <$> tracks s) ∧ NoDup (url <$> tracks s) ∧ NoDup (fileName <$> tracks s).
Proof.
  intros [evs ->]. induction evs as [|ev evs IH] using rev_ind.
  - repeat split; constructor.
  - rewrite run_snoc. set (s := run evs) in *. destruct ev; cbn [step]; try exact IH.
    + by destruct (loadCore_cases load_ok s) as [->|[[-> _]| ->]].
    + destruct (handleConvert_tracks env s) as [->|[->|(f & _ & ->)]]; [done| |].
      * repeat split; constructor.
      * assert (Hp : shuffled_tracks env s f ≡ₚ prepared_tracks env s f)
          by apply shuffle_Permutation.
        rewrite !Hp. destruct (prepared_tracks_names env s f) as (-> & -> & ->).
        split; [|split].
        -- apply NoDup_prefixed.
           repeat (apply NoDup_cons; split); [..|apply NoDup_nil_2];
             rewrite ?elem_of_cons, ?elem_of_nil; intros H; decompose [or] H; done.
        -- apply issued_urls_NoDup.
        -- apply NoDup_prefixed.
           pose proof (suffixes_distinct (originalExtension (file s))) as H.
           by apply NoDup_cons in H as [_ H].
    + by destruct (checkAnswers_cases s) as [[_ ->]|[(_ & _ & ->)|(_ & _ & ->)]].
Qed.

(** X12: in every reachable state the tracks on display have pairwise
    distinct ids, pairwise distinct URLs and pairwise distinct file names:
    an answer, an audio element or a download never belongs to two tracks. *)
Theorem tracks_have_distinct_names (s : AppState) :
  reachable s →
  NoDup (id <$> tracks s) ∧ NoDup (url <$> tracks s) ∧ NoDup (fileName <$> tracks s).
Proof. apply reachable_distinct. Qed.

Lemma tracks_have_distinct_names_witness :
  NoDup (id <$> tracks after_one_session).
Proof.
  apply (tracks_have_distinct_names after_one_session). by eexists.
Defined.

(** ** From the answers to the report *)

Lemma filter_ext_in {A} (P Q : A → Prop) `{∀ x, Decision (P x)} `{∀ x, Decision (Q x)}
    (l : list A) :
  (∀ x, x ∈ l → P x ↔ Q x) → filter P l = filter Q l.
Proof.
  induction l as [|x l IH]; intros Hext; [done|]. rewrite !filter_cons.
  rewrite IH by (intros y Hy; apply Hext; by right).
  destruct (decide (P x)) as [HP|HP], (decide (Q x)) as [HQ|HQ]; try done.
  - destruct HQ. apply Hext; [left | done].
  - destruct HP. apply Hext; [left | done].
Qed.

Lemma answers_fold (guess : QuizTrack → QuizTrackQuality) (ts : list QuizTrack) s :
  let s' := foldl (λ st track, handleAnswerChange (id track) (Some (guess track)) st)
              s ts in
  tracks s' = tracks s
  ∧ (NoDup (id <$> ts) → ∀ track, track ∈ ts →
       selectedAnswers s' !! id track = Some (Some (guess track))).
Proof.
  induction ts as [|x ts IH] using rev_ind; cbv zeta.
  - split; [done|]. intros _ track Hin. by apply elem_of_nil in Hin.
  - rewrite foldl_snoc. destruct IH as [Ht Hans]. split; [done|].
    rewrite fmap_app. intros Hnd track Hin. apply NoDup_app in Hnd as (Hnd & Hnot & _).
    cbn [handleAnswerChange selectedAnswers setSelectedAnswers].
    unfold handleAnswerChange. cbn [selectedAnswers setSelectedAnswers].
    apply elem_of_app in Hin as [Hin|Hin].
    + rewrite lookup_insert_ne; [by apply Hans|]. intros Heq.
      apply (Hnot (id track)); [apply list_elem_of_fmap; by exists track|].
      rewrite <- Heq. left.
    + apply list_elem_of_singleton in Hin as ->. by rewrite lookup_insert_eq.
Qed.

(** X13: picking a quality for every track and then checking always gives
    the report, not a refusal: its header counts the tracks and the picks
    that match the true quality, its lines name the pick of each track, and
    the tone is success exactly when every pick matches. Clearing the pick
    of any one track makes the check refuse the answers as incomplete. *)
Theorem answering_all_gives_report (guess : QuizTrack → QuizTrackQuality) (s : AppState) :
  reachable s →
  tracks s ≠ [] →
  let right := length (filter (λ track, guess track = quality track) (tracks s)) in
  feedback (checkAnswers (answerAll guess s))
  = Some {| text :=
              join newline
                (report_header (length (tracks s)) right
                 :: imap (λ i track, detail_line i track (Some (Some (guess track))))
                      (tracks s));
            tone := if (right =? length (tracks s))%nat then success else error |}
  ∧ ∀ track, track ∈ tracks s →
      feedback (checkAnswers (handleAnswerChange (id track) None (answerAll guess s)))
      = Some IncompleteAnswers.
Proof.
  intros Hreach Hne right. subst right.
  destruct (reachable_distinct s Hreach) as [Hnd _].
  destruct (answers_fold guess (tracks s) s) as [Ht Hans].
  fold (answerAll guess s) in Ht, Hans. specialize (Hans Hnd).
  split.
  - destruct (checkAnswers_cases (answerAll guess s))
      as [[Hnil _]|[(_ & Hun & _)|(_ & _ & ->)]].
    + rewrite Ht in Hnil. done.
    + apply existsb_unanswered_true in Hun as (track & Hin & Hun).
      rewrite Ht in Hin. unfold unanswered in Hun. by rewrite (Hans track Hin) in Hun.
    + cbn [feedback setFeedback]. rewrite Ht. unfold report_details.
      rewrite (filter_ext_in (guessed_right (selectedAnswers (answerAll guess s)))
                 (λ track, guess track = quality track) (tracks s)).
      * do 4 f_equal. apply imap_ext. intros i track Hi. cbn beta.
        by rewrite (Hans track (list_elem_of_lookup_2 _ _ _ Hi)).
      * intros track Hin. unfold guessed_right. rewrite (Hans track Hin).
        split; [by intros [= ->] | by intros ->].
  - intros track Hin.
    destruct (checkAnswers_cases (handleAnswerChange (id track) None (answerAll guess s)))
      as [[Hnil _]|[(_ & _ & ->)|(_ & Hun & _)]]; [| done |].
    + cbn [tracks handleAnswerChange setSelectedAnswers] in Hnil.
      unfold handleAnswerChange in Hnil. cbn [tracks setSelectedAnswers] in Hnil.
      rewrite Ht in Hnil. done.
    + rewrite existsb_unanswered_false in Hun.
      specialize (Hun track). unfold handleAnswerChange in Hun.
      cbn [tracks selectedAnswers setSelectedAnswers] in Hun. rewrite Ht in Hun.
      specialize (Hun Hin). unfold unanswered in Hun.
      by rewrite lookup_insert_eq in Hun.
Qed.

Lemma answering_all_gives_report_witness :
  tone <$> feedback (checkAnswers (answerAll quality after_one_session)) = Some success.
Proof.
  assert (Hreach : reachable after_one_session) by (by eexists).
  destruct (answering_all_gives_report quality after_one_session Hreach) as [-> _].
  - vm_compute. discriminate.
  - reflexivity.
Defined.

(** ** The engine's files and the blobs of a run *)

Lemma startsWith_append (base rest : string) : startsWith (base +:+ rest) base = true.
Proof.
  unfold startsWith. induction base as [|c base IH]; [by destruct rest|].
  change (String c base +:+ rest) with (String c (base +:+ rest)). cbn [String.prefix].
  by destruct (ascii_dec c c).
Qed.

Lemma outside_refl base fs : outside base fs fs.
Proof. done. Qed.

Lemma outside_insert base fs fs' n data :
  startsWith n base = true → outside base fs fs' → outside base fs (<[n := data]> fs').
Proof.
  intros Hn Hout. unfold outside. rewrite map_filter_insert_not; [done|].
  intros y. cbn [fst]. rewrite Hn. by intros H.
Qed.

Lemma outside_trans base fs1 fs2 fs3 :
  outside base fs1 fs2 → outside base fs2 fs3 → outside base fs1 fs3.
Proof. unfold outside. congruence. Qed.

(** One call of [exec] for a plan whose output name starts with [base]. *)
Lemma exec_detail env base plan s ff :
  ffmpegRef s = Some ff →
  startsWith (outputName plan) base = true →
  ∃ c ff1,
    exec (engine env) (command plan ++ [outputName plan]) s
    = (c, set_ffmpeg (Some ff1) s)
    ∧ outside base (files ff) (files ff1)
    ∧ ∀ data, engine env (plan_args plan) = ExecResolves (Some data) →
        files ff1 !! outputName plan = Some data.
Proof.
  intros Hff Hname. unfold exec. rewrite Hff. fold (plan_args plan).
  destruct (engine env (plan_args plan)) as [|[data|]] eqn:Heng;
    do 2 eexists; (split; [reflexivity|]); cbn [files]; split; try done.
  - unfold plan_args. rewrite last_snoc. cbn [default]. by apply outside_insert.
  - intros data' [= <-]. unfold plan_args. rewrite last_snoc. cbn [default].
    by rewrite lookup_insert_eq.
Qed.

Lemma transcodePlans_detail env base plans acc s ff r s' :
  ffmpegRef s = Some ff →
  Forall (λ plan, startsWith (outputName plan) base = true) plans →
  transcodePlans env base plans acc s = (r, s') →
  ∃ k ff' blobs,
    length blobs = k
    ∧ s' = with_outputs k blobs ff' s
    ∧ outside base (files ff) (files ff')
    ∧ Forall2 (blob_of_plan env) (take k plans) blobs
    ∧ (r = Rejected ∨ k = length plans).
Proof.
  revert acc s ff. induction plans as [|plan plans IH]; intros acc s ff Hff Hnames Hrun.
  - simpl in Hrun. injection Hrun as <- <-.
    exists 0%nat, ff, []. split; [done|]. split.
    + rewrite with_outputs_0. destruct s. simpl in Hff. by subst.
    + split; [done|]. split; [constructor | by right].
  - apply Forall_cons in Hnames as [Hname Hnames].
    cbn [transcodePlans] in Hrun. rewrite bind_run in Hrun.
    destruct (exec_detail env base plan s ff Hff Hname) as (c & ff1 & Hexec & Hout & Hdata).
    rewrite Hexec in Hrun. clear Hexec.
    assert (Hstop : ∃ k ff' blobs,
      length blobs = k
      ∧ set_ffmpeg (Some ff1) s = with_outputs k blobs ff' s
      ∧ outside base (files ff) (files ff')
      ∧ Forall2 (blob_of_plan env) (take k (plan :: plans)) blobs
      ∧ (@Rejected (list QuizTrack) = Rejected ∨ k = length (plan :: plans))).
    { exists 0%nat, ff1, []. split; [done|]. split; [by rewrite with_outputs_0|].
      split; [done|]. split; [constructor | by left]. }
    destruct c as [[]|]; [|by injection Hrun as <- <-].
    rewrite bind_run in Hrun. unfold readFile at 1 in Hrun.
    cbn [ffmpegRef set_ffmpeg] in Hrun.
    destruct (files ff1 !! outputName plan) as [data|] eqn:Hread;
      [|by injection Hrun as <- <-].
    clear Hstop.
    rewrite bind_run in Hrun. unfold newObjectURL at 1 in Hrun.
    cbn [createObjectURL objectURLs set_ffmpeg] in Hrun.
    rewrite bind_run in Hrun. unfold perform at 1 in Hrun.
    eapply (IH _ _ ff1) in Hrun; [|done|done].
    destruct Hrun as (k & ff' & blobs & Hlen & -> & Hout' & Hblobs & Hr).
    exists (S k), ff', ({| blob_bytes := data; blob_type := mime plan |} :: blobs).
    split; [simpl; by rewrite Hlen|]. split; [|split; [|split]].
    + unfold with_outputs. rewrite issued_urls_cons. cbn [foldl zip zip_with].
      unfold registerUrl, set_locators, set_ffmpeg. cbn.
      f_equal. f_equal.
      * lia.
      * by rewrite <- app_assoc.
    + by eapply outside_trans.
    + cbn [take]. constructor; [|done]. split; [done|].
      intros data' Heng. cbn [blob_bytes]. by injection (Hdata data' Heng).
    + destruct Hr as [->| ->]; [by left | by right].
Qed.

Lemma session_plans_names env s f :
  Forall (λ plan, startsWith (outputName plan) (sessionId env s) = true
                  ∧ mime plan = getMimeByQuality (plan_quality plan) (type f))
         (session_plans env s f).
Proof.
  unfold session_plans, outputPlans.
  repeat constructor; cbn [outputName]; apply startsWith_append.
Qed.

(** A run of [handleConvert] that passed its checks, in detail. *)
Lemma handleConvert_detail env s ff f :
  ffmpegRef s = Some ff → coreLoaded s = true → file s = Some f →
  ∃ k ff' blobs x,
    handleConvert env s = convert_finish env s x
    ∧ ffmpegRef x = Some ff'
    ∧ outside (sessionId env s) (files ff) (files ff')
    ∧ objectURLs x = objectURLs (with_outputs k blobs ff' (convert_start s))
    ∧ length blobs = k
    ∧ Forall2 (blob_of_plan env) (take k (session_plans env s f)) blobs
    ∧ (feedback x = Some TranscodeFailure ∨ k = 3%nat).
Proof.
  intros Hff Hcore Hfile.
  rewrite (handleConvert_unfold env s ff f) by done.
  assert (Hstart : ffmpegRef (convert_start s) = Some ff) by done.
  unfold convertBody. rewrite bind_run. unfold writeFile at 1. rewrite Hstart.
  destruct (upload_ok env) eqn:Hup.
  - rewrite bind_run.
    match goal with |- context [transcodePlans ?e ?b ?p ?a ?s0] =>
      destruct (transcodePlans e b p a s0) as [r s'] eqn:Hrun end.
    eapply transcodePlans_detail in Hrun; [|reflexivity|].
    2: { fold (session_plans env s f).
         eapply Forall_impl; [apply (session_plans_names env s f)|]. by intros plan [H _]. }
    destruct Hrun as (k & ff' & blobs & Hlen & -> & Hout & Hblobs & Hr).
    change (with_outputs k blobs ff' (set_ffmpeg _ (convert_start s)))
      with (with_outputs k blobs ff' (convert_start s)).
    fold (session_plans env s f) in Hblobs, Hr. cbn [files] in Hout.
    assert (Hout0 : outside (sessionId env s) (files ff) (files ff')).
    { eapply outside_trans; [|exact Hout]. apply outside_insert; [|done].
      apply startsWith_append. }
    destruct r as [ts|].
    + destruct Hr as [?| ->]; [done|].
      rewrite !bind_run. unfold perform.
      eexists _, ff', blobs, _. split; [reflexivity|].
      split; [by destruct s|]. split; [done|]. split; [reflexivity|].
      split; [done|]. split; [done|]. by right.
    + eexists k, ff', blobs, _. split; [reflexivity|].
      split; [by destruct s|]. split; [done|]. split; [reflexivity|].
      split; [done|]. split; [done|]. by left.
  - exists 0%nat, ff, [], (setFeedback TranscodeFailure (convert_start s)).
    split; [done|]. split; [done|]. split; [done|].
    split; [by rewrite with_outputs_0|]. split; [done|]. split; [constructor | by left].
Qed.

(** X14: a run of [handleConvert] that passed its checks, the engine
    listing its directory, leaves in the engine exactly the files that were
    there before and whose names do not start with the session identifier:
    the upload and the outputs of the run are gone, whether the run
    succeeded or not, and no other file was touched. *)
Theorem convert_cleans_up_engine (env : ConvertEnv) (s : AppState) (ff : FFmpeg) (f : File) :
  ffmpegRef s = Some ff → coreLoaded s = true → file s = Some f →
  listDir_ok env = true →
  ∃ ff', ffmpegRef (handleConvert env s) = Some ff'
    ∧ files ff' = filter (λ e, ¬ startsWith e.1 (sessionId env s)) (files ff)
    ∧ ∀ n, startsWith n (sessionId env s) = true → files ff' !! n = None.
Proof.
  intros Hff Hcore Hfile Hlist.
  destruct (handleConvert_detail env s ff f Hff Hcore Hfile)
    as (k & ff' & blobs & x & -> & Hx & Hout & _).
  unfold convert_finish, cleanupTempFiles. rewrite Hx, Hlist.
  eexists. split; [reflexivity|]. cbn [files]. split; [exact Hout|].
  intros n Hn. apply map_lookup_filter_None. right. intros data _. cbn [fst].
  rewrite Hn. by intros H.
Qed.

Lemma convert_cleans_up_engine_witness :
  ∃ ff', ffmpegRef (handleConvert all_ok ready_state) = Some ff' ∧ files ff' = ∅.
Proof.
  destruct (convert_cleans_up_engine all_ok ready_state FFmpeg_new song)
    as (ff' & Hff' & Hfiles & _); try reflexivity.
  exists ff'. split; [done|]. rewrite Hfiles. apply map_filter_empty.
Defined.

Lemma NoDup_fst_unique {A B} (l : list (A * B)) (x : A) (y1 y2 : B) :
  NoDup l.*1 → (x, y1) ∈ l → (x, y2) ∈ l → y1 = y2.
Proof.
  intros Hnd H1 H2.
  apply list_elem_of_lookup in H1 as [i Hi]. apply list_elem_of_lookup in H2 as [j Hj].
  assert (i = j) as ->.
  { apply (NoDup_lookup l.*1 i j x Hnd); rewrite list_lookup_fmap; [by rewrite Hi | by rewrite Hj]. }
  congruence.
Qed.

(** X15: after a successful run every track on display plays what the
    engine made for its quality: the track's URL resolves to one blob only,
    that blob has the MIME type the component gives to the track's quality,
    and its bytes are those the engine wrote for the plan of that quality. *)
Theorem tracks_play_their_quality (env : ConvertEnv) (s : AppState) (upload : File) :
  reachable s →
  file s = Some upload →
  tone <$> feedback (handleConvert env s) = Some success →
  let s' := handleConvert env s in
  ∀ track, track ∈ tracks s' →
    ∃ plan b,
      plan ∈ session_plans env s upload
      ∧ quality track = plan_quality plan ∧ fileName track = outputName plan
      ∧ (∀ b', (url track, b') ∈ resolving (objectURLs s') ↔ b' = b)
      ∧ blob_type b = getMimeByQuality (quality track) (type upload)
      ∧ ∀ data, engine env (plan_args plan) = ExecResolves (Some data) →
          blob_bytes b = data.
Proof.
  intros Hreach Hupload Hok s' track Hin.
  assert (Hreach' : reachable s') by exact (reachable_step s (ConvertClicked env) Hreach).
  assert (Hnd : NoDup (resolving (objectURLs s')).*1).
  { destruct (reachable_tight s' Hreach') as [-> _].
    destruct (reachable_ok s' Hreach') as [_ [Hnd _]].
    by apply NoDup_app in Hnd as (_ & _ & Hnd). }
  assert (Hguards : is_Some (ffmpegRef s) ∧ coreLoaded s = true
                    ∧ tracks s' = shuffled_tracks env s upload).
  { subst s'. outcome_cases (handleConvert_outcome env s).
    1-3: try (destruct (convert_finish_frame env s
        (setFeedback TranscodeFailure (with_outputs k blobs ff' (convert_start s))))
        as (_ & _ & Hfb & _); rewrite Hfb in Hok); by simpl in Hok.
    match goal with |- context [convert_finish env s ?x] =>
      destruct (convert_finish_frame env s x) as (-> & _) end.
    split; [by eexists|]. split; [done|]. cbn [tracks setFeedback setSelectedAnswers set_tracks].
    congruence. }
  destruct Hguards as ([ff Hff] & Hcore & Htracks).
  destruct (handleConvert_detail env s ff upload Hff Hcore Hupload)
    as (k & ff' & blobs & x & Hs' & _ & _ & Hurls & Hlen & Hblobs & Hk).
  fold s' in Hs'.
  assert (Hfb : feedback s' = feedback x).
  { rewrite Hs'. by destruct (convert_finish_frame env s x) as (_ & _ & -> & _). }
  destruct Hk as [Hk| ->].
  { subst s'. rewrite Hfb, Hk in Hok. by simpl in Hok. }
  assert (Hres : resolving (objectURLs s')
                 = resolving (objectURLs (convert_start s))
                   ++ zip (issued_urls (issued (objectURLs (convert_start s))) 3) blobs).
  { rewrite Hs'. destruct (convert_finish_frame env s x) as (_ & _ & _ & _ & -> & _).
    by rewrite Hurls. }
  rewrite Htracks in Hin.
  assert (Hp : shuffled_tracks env s upload ≡ₚ prepared_tracks env s upload)
    by apply shuffle_Permutation.
  rewrite Hp in Hin. unfold prepared_tracks in Hin.
  apply elem_of_lookup_zip_with in Hin as (i & plan & u & -> & Hplan & Hu).
  rewrite take_ge in Hblobs by done.
  destruct (Forall2_lookup_l _ _ _ i plan Hblobs Hplan) as (b & Hb & Hty & Hbytes).
  pose proof (session_plans_names env s upload) as Hnames.
  rewrite Forall_forall in Hnames.
  destruct (Hnames plan (list_elem_of_lookup_2 _ _ _ Hplan)) as [_ Hmime].
  exists plan, b. cbn [track_of quality fileName url].
  split; [by eapply list_elem_of_lookup_2|]. split; [done|]. split; [done|].
  split; [|split; [congruence | done]].
  assert (Hmem : (u, b) ∈ resolving (objectURLs s')).
  { rewrite Hres. apply elem_of_app. right. apply list_elem_of_lookup. exists i.
    apply lookup_zip_Some. split; [|done].
    replace (issued (objectURLs (convert_start s))) with (issued (objectURLs s)); [done|].
    symmetry. apply foldl_revoke_issued. }
  intros b'. split; [|by intros ->].
  intros Hmem'. by apply (NoDup_fst_unique _ u b' b Hnd).
Qed.

Lemma tracks_play_their_quality_witness :
  Forall (λ track, ∃ b, (url track, b) ∈ resolving (objectURLs after_one_session)
                        ∧ blob_bytes b = [Byte.x49; Byte.x44; Byte.x33])
         (tracks after_one_session).
Proof.
  apply Forall_forall. intros track Hin.
  assert (Hreach : reachable ready_state) by (by eexists).
  destruct (tracks_play_their_quality all_ok ready_state song Hreach eq_refl eq_refl
              track Hin) as (plan & b & _ & _ & _ & Hres & _ & Hbytes).
  exists b. split; [by apply Hres | by apply Hbytes].
Defined.

(** ** A new session replaces the old one *)

Lemma reachable_tracks_ok s : reachable s → Tracks_ok s.
Proof.
  intros [evs ->]. induction evs as [|ev evs IH] using rev_ind.
  - intros track Hin. by apply elem_of_nil in Hin.
  - rewrite run_snoc. by apply step_Tracks_ok.
Qed.

(** X16: whenever the convert button is enabled, the click starts a run:
    the answer is [ConvertDone] or [TranscodeFailure], never a refusal.
    After it the playback controller is idle and holds no element, every
    URL of the previous session is revoked, is no member of the ledger and
    resolves no more, and no track of the previous session is on display. *)
Theorem convert_replaces_session (env : ConvertEnv) (s : AppState) :
  reachable s →
  convertDisabled s = false →
  let s' := handleConvert env s in
  (feedback s' = Some ConvertDone ∨ feedback s' = Some TranscodeFailure)
  ∧ idle (player s') ∧ audioRefs (player s') = []
  ∧ (∀ u, u ∈ objectUrlsRef s →
       u ∈ revocations (objectURLs s')
       ∧ (u ∉ objectUrlsRef s')
       ∧ (u ∉ (resolving (objectURLs s')).*1))
  ∧ (∀ track, track ∈ tracks s → track ∉ tracks s').
Proof.
  intros Hreach Hen s'.
  assert (Hreach' : reachable s') by exact (reachable_step s (ConvertClicked env) Hreach).
  apply orb_false_iff in Hen as [Hcore0 Hfile0].
  apply negb_false_iff in Hcore0. apply bool_decide_eq_false in Hfile0.
  destruct (reachable_flags s Hreach) as (Heng & _).
  destruct (Heng Hcore0) as [ff0 Hff0].
  destruct (reachable_ok s Hreach) as [Hpok [Hnd Hiss]].
  pose proof (reachable_tracks_ok s Hreach) as Htok.
  pose proof (reachable_tracks_ok s' Hreach') as Htok'.
  destruct (reachable_tight s' Hreach') as [Hres' _].
  assert (Hrun : ∃ k blobs ff' x,
    s' = convert_finish env s x
    ∧ length blobs = k
    ∧ (feedback x = Some ConvertDone ∨ feedback x = Some TranscodeFailure)
    ∧ objectUrlsRef x = objectUrlsRef (with_outputs k blobs ff' (convert_start s))
    ∧ objectURLs x = objectURLs (with_outputs k blobs ff' (convert_start s))
    ∧ player x = player (with_outputs k blobs ff' (convert_start s))).
  { subst s'. outcome_cases (handleConvert_outcome env s).
    - destruct Hnr; congruence.
    - congruence.
    - exists k, blobs, ff', (setFeedback TranscodeFailure
                               (with_outputs k blobs ff' (convert_start s))).
      repeat split; auto.
    - exists 3%nat, blobs, ff',
        (setFeedback ConvertDone
           (setSelectedAnswers (initialAnswers (shuffled_tracks env s f))
              (set_tracks (shuffled_tracks env s f)
                 (with_outputs 3 blobs ff' (convert_start s))))).
      repeat split; auto. }
  destruct Hrun as (k & blobs & ff' & x & Hs' & Hlen & Hfb & Hm & Hu & Hp).
  destruct (convert_finish_frame env s x) as (_ & _ & Efb & Em & Eu & Ep & _).
  rewrite <- Hs' in Efb, Em, Eu, Ep.
  destruct (with_outputs_ledger k blobs ff' s Hlen) as (Lm & _ & Lr & _ & _ & Lp & _).
  cbv zeta in Lm, Lr, Lp.
  assert (Hmem : objectUrlsRef s' = issued_urls (issued (objectURLs s)) k) by congruence.
  assert (Hrev : revocations (objectURLs s')
                 = revocations (objectURLs s) ++ objectUrlsRef s) by congruence.
  assert (Hpl : player s' = resetAudioRefs (player s)) by congruence.
  assert (Hold : ∀ u, u ∈ objectUrlsRef s → u ∉ objectUrlsRef s').
  { intros u Hin Hin'. rewrite Hmem in Hin'.
    apply elem_of_issued_urls in Hin' as (n & _ & ->).
    destruct (Hiss (blob_url (issued (objectURLs s) + N.of_nat n))) as (i & Hi & Heq).
    { apply elem_of_app. by right. }
    apply blob_url_inj in Heq. lia. }
  split; [by rewrite Efb|]. rewrite Hpl. split; [|split; [done|split]].
  - split; [done|]. intros e He.
    destruct (ok_held _ (resetAudioRefs_ok (player s) Hpok) e He) as [k0 Hk0].
    discriminate Hk0.
  - intros u Hin. split; [|split].
    + rewrite Hrev. apply elem_of_app. by right.
    + by apply Hold.
    + rewrite Hres'. by apply Hold.
  - intros track Hin Hin'.
    destruct (Htok track Hin) as [Hu1 _]. destruct (Htok' track Hin') as [Hu2 _].
    by apply (Hold (url track)).
Qed.

Lemma convert_replaces_session_witness :
  Forall (λ track, track ∉ tracks (handleConvert all_ok after_one_session))
         (tracks after_one_session).
Proof.
  assert (Hreach : reachable after_one_session) by (by eexists).
  apply Forall_forall.
  apply (convert_replaces_session all_ok after_one_session Hreach). reflexivity.
Defined.

(** ** Loading the core *)

(** X17: loading the core is final and can be retried. No handler and no
    event unloads a loaded core, and [loadCore] on a loaded core changes
    nothing; before the mount effect made an engine [loadCore] changes
    nothing either; a load that fails reports [CoreLoadFailure], leaves the
    core unloaded and changes nothing else, and a later load that goes well
    still loads it. *)
Theorem core_load_is_final (s : AppState) :
  (∀ ev, coreLoaded s = true → coreLoaded (step s ev) = true)
  ∧ (∀ load_ok, coreLoaded s = true ∨ ffmpegRef s = None → loadCore load_ok s = s)
  ∧ (is_Some (ffmpegRef s) → coreLoaded s = false →
       loadCore false s = setFeedback CoreLoadFailure s
       ∧ coreLoaded (loadCore true (loadCore false s)) = true
       ∧ feedback (loadCore true (loadCore false s)) = Some CoreLoadFailure).
Proof.
  split; [|split].
  - intros ev Hcore. destruct ev; cbn [step]; try done.
    + by destruct (loadCore_cases load_ok s) as [->|[[-> _]| ->]].
    + by destruct (handleConvert_flags env s) as (-> & _).
    + by destruct (checkAnswers_cases s) as [[_ ->]|[(_ & _ & ->)|(_ & _ & ->)]].
  - intros load_ok [Hcore|Hnone]; unfold loadCore.
    + rewrite Hcore. by destruct (ffmpegRef s).
    + by rewrite Hnone.
  - intros [ff Hff] Hcore. unfold loadCore. rewrite Hff, Hcore.
    cbn [ffmpegRef coreLoaded setFeedback]. by rewrite Hff, Hcore.
Qed.

(** ** Seeking in the playing track *)

Lemma Math_max_spec (a b : Q) : (a <= Math_max a b ∧ b <= Math_max a b)%Q.
Proof.
  unfold Math_max. destruct (Qle_bool a b) eqn:H.
  - apply Qle_bool_iff in H. split; [done | apply Qle_refl].
  - split; [apply Qle_refl|]. apply Qlt_le_weak, Qnot_le_lt.
    intros Hle. apply Qle_bool_iff in Hle. congruence.
Qed.

Lemma Math_min_spec (a b : Q) :
  (Math_min a b <= a ∧ Math_min a b <= b)%Q ∧ (Math_min a b = a ∨ Math_min a b = b).
Proof.
  unfold Math_min. destruct (Qle_bool a b) eqn:H.
  - apply Qle_bool_iff in H. split; [split; [apply Qle_refl | done] | by left].
  - split; [|by right]. split; [|apply Qle_refl]. apply Qlt_le_weak, Qnot_le_lt.
    intros Hle. apply Qle_bool_iff in Hle. congruence.
Qed.

(** X18: in the variant that plays through [use-sound], [handleSeek] only
    ever seeks in the sound registered for the playing track, and to a
    position between zero and the sound's duration, whatever the offset and
    however the sum rounds; and it seeks nowhere once the playing track was
    stopped, or the playing state was reset. *)
Theorem seek_stays_in_track (js_add : Q → Q → Q) (offsetSeconds : Q) (p : SoundState) :
  (∀ trackId next, handleSeek js_add offsetSeconds p = Some (trackId, next) →
     playingTrackId p = Some trackId
     ∧ ∃ sound d, soundMapRef p !! trackId = Some (Some sound)
         ∧ duration sound = Some d
         ∧ (next <= d)%Q
         ∧ ((0 <= d)%Q → (0 <= next)%Q))
  ∧ (∀ trackId, playingTrackId p = Some trackId →
       handleSeek js_add offsetSeconds (handleTrackStop trackId p) = None)
  ∧ handleSeek js_add offsetSeconds (resetPlayingState p) = None.
Proof.
  split; [|split].
  - intros trackId next. unfold handleSeek.
    destruct (playingTrackId p) as [k|]; [|done].
    destruct (decide (k = "")); [done|].
    destruct (soundMapRef p !! k) as [[sound|]|] eqn:Hk; [|done|done].
    destruct (duration sound) as [d|] eqn:Hd; [|done].
    intros [= <- <-]. split; [done|]. exists sound, d.
    split; [done|]. split; [done|].
    set (x := Math_max (js_add (position sound) offsetSeconds) 0).
    destruct (Math_min_spec x d) as [[_ Hle] Hcase]. split; [done|].
    intros Hd0. destruct Hcase as [-> | ->]; [|done].
    subst x. apply Math_max_spec.
  - intros trackId Hplay. unfold handleSeek, handleTrackStop.
    cbn [playingTrackId handleSoundUpdate]. rewrite Hplay. by rewrite decide_True.
  - done.
Qed.

(** ** The playing ref *)

Lemma forget_playing_ref k p :
  playingTrackIdRef (forget_playing k p) = playingTrackIdRef p
  ∨ playingTrackIdRef (forget_playing k p) = None.
Proof. unfold forget_playing. destruct (decide _); auto. Qed.

Lemma dispatch_ref (handler : Listener → Player → Player) hs p :
  (∀ h q, audioRefs (handler h q) = audioRefs q
          ∧ (playingTrackIdRef (handler h q) = playingTrackIdRef q
             ∨ playingTrackIdRef (handler h q) = None)) →
  audioRefs (dispatch handler hs p) = audioRefs p
  ∧ (playingTrackIdRef (dispatch handler hs p) = playingTrackIdRef p
     ∨ playingTrackIdRef (dispatch handler hs p) = None).
Proof.
  intros Hh. revert p. unfold dispatch.
  induction hs as [|h hs IH]; intros p; cbn [foldl]; [auto|].
  destruct (IH (handler h p)) as [E [R|R]]; destruct (Hh h p) as [E1 [R1|R1]];
    split; try congruence; rewrite R; auto.
Qed.

Lemma limitHandler_ref h p :
  audioRefs (limitHandler h p) = audioRefs p
  ∧ (playingTrackIdRef (limitHandler h p) = playingTrackIdRef p
     ∨ playingTrackIdRef (limitHandler h p) = None).
Proof.
  split; [apply limitHandler_quieter|]. unfold limitHandler.
  destruct (elements p !! closure_instance h); [|auto].
  destruct (limit_reached _); [|auto].
  apply (forget_playing_ref _ (with_elements _ p)).
Qed.

Lemma endedHandler_ref h p :
  audioRefs (endedHandler h p) = audioRefs p
  ∧ (playingTrackIdRef (endedHandler h p) = playingTrackIdRef p
     ∨ playingTrackIdRef (endedHandler h p) = None).
Proof.
  split; [apply endedHandler_quieter|]. unfold endedHandler.
  apply (forget_playing_ref _ (with_elements _ p)).
Qed.

(** The playing ref names a track that holds an element. *)
Lemma step_ref s ev :
  (∀ k, playingTrackIdRef (player s) = Some k →
     is_Some (obj_get k (audioRefs (player s)))) →
  ∀ k, playingTrackIdRef (player (step s ev)) = Some k →
    is_Some (obj_get k (audioRefs (player (step s ev)))).
Proof.
  intros Hinv. destruct ev; cbn [step player set_player]; try done.
  - by destruct (loadCore_cases load_ok s) as [->|[[-> _]| ->]].
  - by destruct (handleConvert_player env s) as [->| ->].
  - by destruct (checkAnswers_cases s) as [[_ ->]|[(_ & _ & ->)|(_ & _ & ->)]].
  - unfold mountAudio, refCallback. destruct (decide _); [done|].
    cbn [playingTrackIdRef audioRefs getAudioRef with_elements].
    intros k Hk. rewrite obj_get_set. destruct (decide (trackId = k)); [by eexists | auto].
  - unfold unmountAudio, refCallback. destruct (decide _); [done|].
    cbn [playingTrackIdRef audioRefs]. intros k.
    destruct (decide (playingTrackIdRef (player s) = Some trackId)) as [|Hne]; [done|].
    intros Hk. rewrite obj_get_delete. rewrite decide_False by congruence. auto.
  - intros k. rewrite handlePlay_audioRefs. unfold handlePlay.
    destruct (obj_get trackId (audioRefs (player s))) as [target|] eqn:Ht; [|auto].
    destruct (bool_decide _); [done|]. cbn [playingTrackIdRef with_elements with_playing].
    intros [= <-]. by rewrite Ht.
  - unfold mediaProgress. destruct (elements (player s) !! e) as [a|]; [|done].
    intros k.
    match goal with |- context [dispatch limitHandler ?hs ?q] =>
      destruct (dispatch_ref limitHandler hs q limitHandler_ref) as [-> [-> | ->]] end;
      [|done]. by destruct (paused a); auto.
  - unfold mediaEnded. destruct (elements (player s) !! e) as [a|]; [|done].
    destruct (paused a); [done|]. intros k.
    match goal with |- context [dispatch endedHandler ?hs ?q] =>
      destruct (dispatch_ref endedHandler hs q endedHandler_ref) as [-> [-> | ->]] end;
      [|done]. auto.
Qed.

Lemma reachable_ref s :
  reachable s →
  ∀ k, playingTrackIdRef (player s) = Some k → is_Some (obj_get k (audioRefs (player s))).
Proof.
  intros [evs ->]. induction evs as [|ev evs IH] using rev_ind; [done|].
  rewrite run_snoc. by apply step_ref.
Qed.

(** X19: the playing ref never dangles. In every reachable state the track
    named by [playingTrackIdRef] holds an audio element, and that element
    carries the two handlers that clear the ref when its playback ends or
    reaches the cap. *)
Theorem playing_ref_is_held (s : AppState) (k : string) :
  reachable s →
  playingTrackIdRef (player s) = Some k →
  ∃ e a, obj_get k (audioRefs (player s)) = Some e
    ∧ elements (player s) !! e = Some a
    ∧ on_timeupdate a = [ {| closure_instance := e; closure_trackId := k |} ]
    ∧ on_ended a = [ {| closure_instance := e; closure_trackId := k |} ].
Proof.
  intros Hreach Hk. destruct (reachable_ref s Hreach k Hk) as [e He].
  destruct (reachable_ok s Hreach) as [Hok _].
  destruct (ok_listeners _ Hok k e He) as (a & Ha & H1 & H2). by exists e, a.
Qed.

Lemma playing_ref_is_held_witness :
  ∃ e a, obj_get "a" (audioRefs (player playing_a)) = Some e
    ∧ elements (player playing_a) !! e = Some a
    ∧ on_timeupdate a = [ {| closure_instance := e; closure_trackId := "a" |} ]
    ∧ on_ended a = [ {| closure_instance := e; closure_trackId := "a" |} ].
Proof.
  apply (playing_ref_is_held playing_a "a"); [by eexists | reflexivity].
Defined.

(** X20: a rejection of [play()] that arrives while a track sounds, say
    for another track clicked shortly before, clears the playing ref but
    stops nothing: the track goes on playing unmarked, and the next click
    on it starts it again from the beginning instead of stopping it. *)
Theorem late_rejection_restarts (s : AppState) (k : string) (e : nat) :
  reachable s →
  sounding (player s) k →
  obj_get k (audioRefs (player s)) = Some e →
  let s1 := step s PlayRejected in
  feedback s1 = Some PlaybackFailure
  ∧ playingTrackIdRef (player s1) = None
  ∧ unpaused (player s1) e
  ∧ sounding (handlePlay true k (player s1)) k
  ∧ ∃ a, elements (handlePlay true k (player s1)) !! e = Some a ∧ currentTime a = 0%Q.
Proof.
  intros Hreach (Hplay & e0 & He0 & Hun) He s1.
  rewrite He in He0. injection He0 as <-.
  assert (Hreach1 : reachable s1) by by apply reachable_step.
  destruct (reachable_ok s1 Hreach1) as [Hok1 _].
  split; [done|]. split; [done|]. split; [exact Hun|].
  destruct (handlePlay_other (player s1) Hok1 k e) as (Hs & Ha & _); [done | done |].
  by split.
Qed.

Lemma late_rejection_restarts_witness :
  let s1 := step playing_a PlayRejected in
  playingTrackIdRef (player s1) = None
  ∧ sounding (handlePlay true "a" (player s1)) "a".
Proof.
  assert (Hreach : reachable playing_a) by (by eexists).
  destruct (late_rejection_restarts playing_a "a" 0%nat Hreach) as (_ & H1 & _ & H2 & _).
  - split; [done|]. exists 0%nat. split; [done|]. by eexists.
  - done.
  - by split.
Defined.
